(** * Statement lowering of the Vyper code generator (vyper/codegen/stmt.py)

    A shallow embedding of the statement-level IR lowering, with the
    numeric helpers of vyper/utils.py it uses, and the theorems that
    settle the specification's claims about it. *)

From Stdlib Require Import ZArith List String Bool Lia.
From stdpp Require Import base decidable option gmap strings list fin_maps.

Import ListNotations.
Set Warnings "-register-all".
Local Open Scope string_scope.
Local Open Scope Z_scope.

(* ===================================================================== *)
(** ** Semantic types *)
(* ===================================================================== *)

(** Modelled from the spec: the semantic types of vyper.semantics.types,
    absent from src/.  The lowering only asks a type whether it is a single
    word, how many bytes of memory it needs, and, for arrays, its capacity
    and element type; integer types know whether they are signed. *)
Inductive VyperType : Type :=
| IntegerT (is_signed : bool) (bits : N)
| BoolT
| AddressT
| StringT (length : N)
| BytesT (length : N)
| SArrayT (value_type : VyperType) (count : N)
| DArrayT (value_type : VyperType) (count : N)
| TupleT (member_types : list VyperType).

Definition UINT256_T : VyperType := IntegerT false 256.

Definition VyperType_eq_dec : forall a b : VyperType, {a = b} + {a <> b}.
Proof.
  fix IH 1.
  decide equality; try apply N.eq_dec; try apply Bool.bool_dec.
  apply (List.list_eq_dec IH).
Defined.

#[global] Instance VyperType_eqdec : EqDecision VyperType := VyperType_eq_dec.

(* ===================================================================== *)
(** ** vyper/utils.py *)
(* ===================================================================== *)

Module util.

(** [ceil32]: lowest multiple of 32 that is at least the input. *)
Definition ceil32 (x : Z) : Z :=
  if x mod 32 =? 0 then x else x + 32 - (x mod 32).

(** [fourbytes_to_int]: [inp[k]] raises IndexError when [inp] has fewer
    than four bytes; longer inputs are read at their first four bytes. *)
Definition fourbytes_to_int (inp : list Z) : option Z :=
  match inp with
  | b0 :: b1 :: b2 :: b3 :: _ =>
      Some (Z.shiftl b0 24 + Z.shiftl b1 16 + Z.shiftl b2 8 + b3)
  | _ => None
  end.

(** Python's [bytes(s, "utf-8")] on an ASCII signature: one byte per
    character. *)
Definition bytes_of_str (s : string) : list Z :=
  List.map (fun a => Z.of_nat (Ascii.nat_of_ascii a)) (list_ascii_of_string s).

Section Keccak.
(** [Crypto.Hash.keccak] is a third-party library: the digest function is
    a parameter of the development. *)
Variable keccak256 : list Z -> list Z.

(** [method_id]: the first four bytes of the hash of the signature. *)
Definition method_id (method_str : string) : list Z :=
  firstn 4 (keccak256 (bytes_of_str method_str)).

(** [method_id_int]: the selector as an integer. *)
Definition method_id_int (method_sig : string) : option Z :=
  fourbytes_to_int (method_id method_sig).
End Keccak.

End util.

(** Modelled from the spec: [_is_prim_word] of a type, absent from src/:
    the type is a primitive that fits one 32-byte word. *)
Definition _is_prim_word (t : VyperType) : bool :=
  match t with
  | IntegerT _ _ | BoolT | AddressT => true
  | _ => false
  end.

(** Modelled from the spec: [memory_bytes_required] of a type, absent
    from src/: one word for a primitive, a length word plus the padded
    body for a byte string, the elements (plus a length word for a
    dynamic array) for an array, the members for a tuple. *)
Fixpoint memory_bytes_required (t : VyperType) : Z :=
  match t with
  | IntegerT _ _ | BoolT | AddressT => 32
  | StringT n | BytesT n => 32 + util.ceil32 (Z.of_N n)
  | SArrayT vt n => Z.of_N n * memory_bytes_required vt
  | DArrayT vt n => 32 + Z.of_N n * memory_bytes_required vt
  | TupleT ts =>
      (fix members (l : list VyperType) : Z :=
         match l with
         | [] => 0
         | m :: l' => memory_bytes_required m + members l'
         end) ts
  end.

(* ===================================================================== *)
(** ** Faults *)
(* ===================================================================== *)

(** The exception classes the lowering raises by name, and the Python
    built-in ones its assertions and look-ups raise. *)
Inductive exc_kind : Type :=
| StructureException
| TypeCheckFailure
| CodegenPanic
| CompilerPanic
| AssertionError
| AttributeError
| IndexError
| KeyError.

#[global] Instance exc_kind_eqdec : EqDecision exc_kind.
Proof. solve_decision. Defined.

Record exception : Type := mkException {
  exc_kind_of : exc_kind;
  exc_message : string;
  exc_note : option string   (* set by [tag_exceptions] *)
}.

Definition raise_ (k : exc_kind) (msg : string) : exception :=
  mkException k msg None.

(** The internal compiler faults (section 7 of the specification):
    invariant violations, never user errors. *)
Definition is_invariant_fault (e : exception) : bool :=
  match exc_kind_of e with
  | TypeCheckFailure | CodegenPanic | CompilerPanic => true
  | _ => false
  end.

(** The exception classes of vyper.exceptions, which [tag_exceptions]
    annotates and re-raises; every other exception is replaced by the
    fallback class. *)
Definition is_vyper_exception (k : exc_kind) : bool :=
  match k with
  | StructureException | TypeCheckFailure | CodegenPanic | CompilerPanic => true
  | _ => false
  end.

Inductive result (A : Type) : Type :=
| Ok (a : A)
| Err (e : exception).
Arguments Ok {A} a.
Arguments Err {A} e.

(* ===================================================================== *)
(** ** The annotated syntax tree (vyper.ast) *)
(* ===================================================================== *)

Module vy_ast.

Inductive operator : Type :=
| Add | Sub | Mult | Div | FloorDiv | Mod | Pow
| BitAnd | BitOr | BitXor | LShift | RShift.

Inductive expr : Type :=
| Name (id : string)
| Int (n : Z)
| Str (s : string)
| Attribute (value : expr) (attr : string)
| Subscript (value : expr) (slice : expr)
| BinOp (left : expr) (op : operator) (right : expr)
| Tuple (elements : list expr)
| List (elements : list expr)
| Call (func : expr) (args : list expr) (keywords : list (string * expr)).

(** The event type attached to a [log] statement: which arguments are
    indexed. *)
Record EventT : Type := { event_name : string; indexed : list bool }.

(** Statement nodes, one constructor per node class [Stmt] dispatches on.
    The resolved types that the type checker leaves in [_metadata] are
    fields of the node. *)
Inductive stmt : Type :=
| Expr (value : expr)
| Pass
| NameStmt (id : string)
| AnnAssign (target_id : string) (target_type : VyperType) (value : option expr)
| Assign (target : expr) (value : expr)
| If (test : expr) (body : list stmt) (orelse : list stmt)
| Log (event : EventT) (value : expr)
| Assert (test : expr) (msg : option expr)
| Raise (exc : option expr)
| For (target_id : string) (target_type : VyperType) (iter : expr) (body : list stmt)
| AugAssign (target : expr) (op : operator) (value : expr)
| Continue
| Break
| Return (value : option expr).

End vy_ast.

(* ===================================================================== *)
(** ** IR nodes *)
(* ===================================================================== *)

Inductive DataLocation : Type := MEMORY | STORAGE | TRANSIENT | CALLDATA | CODE.

Inductive IRvalue : Type :=
| VStr (s : string)
| VInt (z : Z).

(** Modelled from the spec: the IR node of vyper.codegen.ir_node, absent
    from src/: an operator tag or literal, the ordered children, an
    optional semantic type, an optional location (set on addressable
    nodes), an optional error message and annotation, and an optional
    back-reference to the originating statement. *)
Inductive IRnode : Type := mkIRnode {
  value : IRvalue;
  args : list IRnode;
  typ : option VyperType;
  location : option DataLocation;
  error_msg : option string;
  annotation : option string;
  ast_source : option vy_ast.stmt
}.

(** Modelled from the spec: [IRnode.from_list], absent from src/, on a
    Python list [[op, arg, ...]], on a string and on an integer. *)
Definition ir (op : string) (children : list IRnode) : IRnode :=
  mkIRnode (VStr op) children None None None None None.
Definition ir_str (s : string) : IRnode := ir s [].
Definition ir_int (z : Z) : IRnode :=
  mkIRnode (VInt z) [] None None None None None.

(** The keyword arguments of [IRnode.from_list]. *)
Definition set_typ (t : option VyperType) (n : IRnode) : IRnode :=
  mkIRnode (value n) (args n) t (location n) (error_msg n) (annotation n) (ast_source n).
Definition set_error_msg (m : string) (n : IRnode) : IRnode :=
  mkIRnode (value n) (args n) (typ n) (location n) (Some m) (annotation n) (ast_source n).
Definition set_annotation (a : option string) (n : IRnode) : IRnode :=
  mkIRnode (value n) (args n) (typ n) (location n) (error_msg n) a (ast_source n).
Definition set_ast_source (s : vy_ast.stmt) (n : IRnode) : IRnode :=
  mkIRnode (value n) (args n) (typ n) (location n) (error_msg n) (annotation n) (Some s).

(** Modelled from the spec: [is_pointer] of the IR node, absent from
    src/: the node is an addressable location. *)
Definition is_pointer (n : IRnode) : bool :=
  match location n with Some _ => true | None => false end.

(** Modelled from the spec: [int_value] of the IR node, absent from
    src/: the compile-time integer of a literal node; any other node
    fails the method's assertion. *)
Definition int_value (n : IRnode) : result Z :=
  match value n with
  | VInt z => Ok z
  | VStr _ => Err (raise_ AssertionError "int_value")
  end.

(** A source variable, as the overlap analysis sees it. *)
Record VarInfo : Type := mkVarInfo {
  var_name : string;
  var_typ : VyperType;
  is_state_variable : bool
}.

#[global] Instance VarInfo_eqdec : EqDecision VarInfo.
Proof. solve_decision. Defined.

(** Python's [x in collection]. *)
Definition contains {A} `{EqDecision A} (x : A) (l : list A) : bool :=
  bool_decide (x ∈ l).

(* ===================================================================== *)
(** ** The compile-time Context and the lowering monad *)
(* ===================================================================== *)

Inductive Constancy : Type := Mutable | Constant.

#[global] Instance Constancy_eqdec : EqDecision Constancy.
Proof. solve_decision. Defined.

(** Modelled from the spec: the Context of vyper.codegen.context, absent
    from src/: name bindings, the active scope stack, the active
    loop-variable names ([forvars], a dict from name to [True]), the
    constant-evaluation flag, a fresh-name counter and the allocator of
    temporary buffers.  stmt.py itself reads and writes [constancy] and
    [forvars] and reads [return_type]; the other fields belong to the
    methods of the Context. *)
Record Context : Type := mkContext {
  constancy : Constancy;
  forvars : gmap string bool;
  return_type : option VyperType;
  vars : gmap string IRnode;
  scopes : list nat;
  in_range_expr : bool;
  internal_var_iter : nat;
  next_mem : Z
}.

Definition set_constancy (k : Constancy) (c : Context) : Context :=
  mkContext k (forvars c) (return_type c) (vars c) (scopes c)
            (in_range_expr c) (internal_var_iter c) (next_mem c).

Definition set_forvars (f : gmap string bool) (c : Context) : Context :=
  mkContext (constancy c) f (return_type c) (vars c) (scopes c)
            (in_range_expr c) (internal_var_iter c) (next_mem c).

(** A lowering step: it reads and mutates the Context and either returns
    or raises.  The Context a step leaves behind is kept when it raises:
    Python does not roll back the mutations made before an exception. *)
Definition M (A : Type) : Type := Context -> result A * Context.

Definition ret {A} (a : A) : M A := fun c => (Ok a, c).
Definition throw {A} (e : exception) : M A := fun c => (Err e, c).
Definition bind {A B} (m : M A) (k : A -> M B) : M B :=
  fun c =>
    match m c with
    | (Ok a, c') => k a c'
    | (Err e, c') => (Err e, c')
    end.
Definition get : M Context := fun c => (Ok c, c).
Definition modify (f : Context -> Context) : M unit := fun c => (Ok tt, f c).
Definition lift {A} (r : result A) : M A := fun c => (r, c).

Declare Scope lowering_scope.
Delimit Scope lowering_scope with lowering.
Notation "x <- m ;; k" := (bind m (fun x => k))
  (at level 100, m at next level, right associativity) : lowering_scope.
Notation "m ;;; k" := (bind m (fun _ => k))
  (at level 100, right associativity) : lowering_scope.
Local Open Scope lowering_scope.

(** Python's [assert cond]. *)
Definition assert_ (cond : bool) (what : string) : M unit :=
  if cond then ret tt else throw (raise_ AssertionError what).

(** Python's [try: body finally: cleanup]: the clean-up runs on every exit
    path and an exception of the body is re-raised after it. *)
Definition try_finally {A} (body : M A) (cleanup : Context -> Context) : M A :=
  fun c => let '(r, c') := body c in (r, cleanup c').

(** A context manager of the Context ([with context.block_scope(): ...]),
    as its entry and exit actions. *)
Record ContextManager : Type := {
  cm_enter : Context -> Context;
  cm_exit : Context -> Context
}.

(** Modelled from the spec: scopes are entered and left with a guaranteed
    symmetric release on every exit path. *)
Definition with_ {A} (cm : ContextManager) (body : M A) : M A :=
  fun c => let '(r, c') := body (cm_enter cm c) in (r, cm_exit cm c').

(** Modelled from the spec: [tag_exceptions] of vyper.exceptions, absent
    from src/.  A fault raised beneath it is annotated with the statement
    kind and re-raised unchanged in kind; an exception that is not one of
    the compiler's own is replaced by the fallback class. *)
Definition tag_exceptions {A} (fallback : exc_kind) (note : string) (body : M A) : M A :=
  fun c =>
    match body c with
    | (Ok a, c') => (Ok a, c')
    | (Err e, c') =>
        if is_vyper_exception (exc_kind_of e)
        then (Err (mkException (exc_kind_of e) (exc_message e)
                     (match exc_note e with Some n => Some n | None => Some note end)), c')
        else (Err (mkException fallback (exc_message e) (Some note)), c')
    end.

Definition attribute_error {A} (what : string) : M A :=
  throw (raise_ AttributeError what).

(** Modelled from the spec: the attributes of nodes and types (absent
    from src/) that only some of them answer; the others raise
    AttributeError. *)
Definition typ_of (n : IRnode) : M VyperType :=
  match typ n with
  | Some t => ret t
  | None => attribute_error "typ"
  end.

Definition count (t : VyperType) : M Z :=
  match t with
  | SArrayT _ n | DArrayT _ n => ret (Z.of_N n)
  | _ => attribute_error "count"
  end.

Definition value_type (t : VyperType) : M VyperType :=
  match t with
  | SArrayT vt _ | DArrayT vt _ => ret vt
  | _ => attribute_error "value_type"
  end.

Definition is_signed (t : VyperType) : M bool :=
  match t with
  | IntegerT s _ => ret s
  | _ => attribute_error "is_signed"
  end.

Definition is_DArrayT (t : VyperType) : bool :=
  match t with DArrayT _ _ => true | _ => false end.

(** [for x in xs: ... f(x) ...], collecting the results in order. *)
Fixpoint mapM {A B} (f : A -> M B) (l : list A) : M (list B) :=
  match l with
  | [] => ret []
  | x :: l' => y <- f x ;; ys <- mapM f l' ;; ret (y :: ys)
  end.

(* ===================================================================== *)
(** ** The collaborators of the statement lowering *)
(* ===================================================================== *)

(** What the type checker attaches to a statement node. *)
Class Upstream : Type := {
  is_terminus : vy_ast.stmt -> bool;
  node_source_code : vy_ast.stmt -> option string
}.

(** vyper.codegen.expr: the expression lowering ([Expr(node, context,
    is_stmt).ir_node] and the class methods). *)
Class ExprLowering : Type := {
  Expr_ir_node : vy_ast.expr -> bool -> M IRnode;
  parse_value_expr : vy_ast.expr -> M IRnode;
  parse_pointer_expr : vy_ast.expr -> M IRnode;
  handle_binop : vy_ast.operator -> IRnode -> IRnode -> M IRnode
}.

(** The analysis properties an IR node reports about itself. *)
Class IRAnalysis : Type := {
  referenced_variables : IRnode -> list VarInfo;
  variable_writes : IRnode -> list VarInfo;
  contains_writeable_call : IRnode -> bool;
  is_complex_ir : IRnode -> bool
}.

(** The IR builders of vyper.codegen.core. *)
Class Core : Type := {
  LOAD : IRnode -> IRnode;
  STORE : IRnode -> IRnode -> IRnode;
  add_ofst : IRnode -> Z -> IRnode;
  get_dyn_array_count : IRnode -> IRnode;
  get_element_ptr : IRnode -> IRnode -> bool -> IRnode;
  get_type_for_exact_size : Z -> VyperType;
  make_setter : IRnode -> IRnode -> IRnode;
  may_overlap : IRnode -> IRnode -> bool;
  wrap_value_for_external_return : IRnode -> IRnode;
  writeable : Context -> IRnode -> bool
}.

(** The methods of the Context. *)
Class ContextOps : Type := {
  new_variable : string -> VyperType -> M IRnode;
  new_internal_variable : VyperType -> M IRnode;
  fresh_varname : string -> M string;
  block_scope : ContextManager;
  range_scope : ContextManager;
  internal_memory_scope : ContextManager
}.

(** vyper.codegen.abi_encoder: [abi_encode(dst, ir_node, context, bufsz,
    returns_len)]. *)
Class AbiEncoder : Type := {
  abi_encode : IRnode -> IRnode -> Z -> bool -> M IRnode
}.

(** vyper.codegen.events and vyper.codegen.return_. *)
Class Emitters : Type := {
  ir_node_for_log :
    vy_ast.stmt -> vy_ast.EventT -> list IRnode -> list IRnode -> M IRnode;
  make_return_stmt : option IRnode -> vy_ast.stmt -> M IRnode
}.

(** The third-party hash behind [util.method_id_int]. *)
Class Hash : Type := { keccak256 : list Z -> list Z }.

(* ===================================================================== *)
(** ** Builders modelled from the specification *)
(* ===================================================================== *)

Section Builders.
Context {IA : IRAnalysis} {CO : Core}.

Definition prim_word_node (n : IRnode) : bool :=
  match typ n with
  | Some t => _is_prim_word t
  | None => false
  end.

(** Modelled from the spec: [potential_overlap] of vyper.codegen.core,
    absent from src/.  Only multi-word assignments are tested for
    overlap between the two subtrees; a single-word assignment is atomic
    and never overlaps.  The static test itself is [may_overlap]. *)
Definition potential_overlap (left right : IRnode) : bool :=
  if prim_word_node left && prim_word_node right then false
  else may_overlap left right.

(** The builder that [cache_when_complex] yields next to the node to
    build on. *)
Record WithBuilder : Type := {
  wb_node : IRnode;
  wb_name : string;
  wb_inline : bool
}.

(** Modelled from the spec: [cache_when_complex] of the IR node, absent
    from src/: "cache a complex subexpression, bind it, build on the
    bound value".  A node that is not complex is used as it is; a complex
    one is replaced by a variable [name] of the same type and location. *)
Definition cache_when_complex (n : IRnode) (name : string) : WithBuilder * IRnode :=
  if is_complex_ir n
  then ({| wb_node := n; wb_name := name; wb_inline := false |},
        mkIRnode (VStr name) [] (typ n) (location n) None None None)
  else ({| wb_node := n; wb_name := name; wb_inline := true |}, n).

(** Modelled from the spec: [resolve] of the builder, absent from src/:
    the body as it is when nothing was cached, and otherwise the
    with-binding of the cached node to its name around the body. *)
Definition resolve (b : WithBuilder) (body : IRnode) : IRnode :=
  if wb_inline b then body
  else mkIRnode (VStr "with") [ir_str (wb_name b); wb_node b; body]
                (typ body) (location body) None None None.

(** Modelled from the spec: [clamp_le] of vyper.codegen.core, absent from
    src/: the value [arg], guarded so that it never exceeds [hi], with
    the signed comparison for signed types. *)
Definition clamp_le (arg hi : IRnode) (signed : bool) : IRnode :=
  set_typ (typ arg)
    (ir "seq" [ir "assert" [ir (if signed then "sle" else "le") [arg; hi]]; arg]).
End Builders.

(* ===================================================================== *)
(** ** class Stmt *)
(* ===================================================================== *)

Section Stmt.
Context {UP : Upstream} {EL : ExprLowering} {IA : IRAnalysis} {CO : Core}
        {CX : ContextOps} {AE : AbiEncoder} {EM : Emitters} {HA : Hash}.

Definition constancy_check_failed {A} : M A :=
  throw (raise_ TypeCheckFailure "Failed constancy check").

(** [Stmt._get_target] *)
Definition _get_target (target : vy_ast.expr) : M IRnode :=
  c <- get ;;
  if match target with
     | vy_ast.Name id => bool_decide (is_Some (forvars c !! id))
     | _ => false
     end
  then constancy_check_failed
  else
    match target with
    | vy_ast.Tuple _ =>
        target <- Expr_ir_node target false ;;
        let items := args target in
        c <- get ;;
        if existsb (fun item => negb (writeable c item)) items
        then constancy_check_failed
        else ret target
    | _ =>
        target <- parse_pointer_expr target ;;
        c <- get ;;
        if negb (writeable c target)
        then constancy_check_failed
        else ret target
    end.

(** [Stmt.parse_Expr] *)
Definition parse_Expr (value : vy_ast.expr) : M IRnode :=
  Expr_ir_node value true.

(** [Stmt.parse_Pass] *)
Definition parse_Pass : M IRnode := ret (ir_str "pass").

(** [Stmt.parse_Name] *)
Definition parse_Name (id : string) : M IRnode :=
  if String.eqb id "vdb" then ret (ir_str "debugger")
  else throw (raise_ StructureException "Unsupported statement type").

(** [Stmt.parse_AnnAssign] *)
Definition parse_AnnAssign (varname : string) (ltyp : VyperType)
           (value : option vy_ast.expr) : M IRnode :=
  lhs <- new_variable varname ltyp ;;
  match value with
  | None => throw (raise_ AssertionError "value is not None")
  | Some value =>
      rhs <- Expr_ir_node value false ;;
      ret (make_setter lhs rhs)
  end.

(** [Stmt.parse_Assign] *)
Definition parse_Assign (target value : vy_ast.expr) : M IRnode :=
  src <- Expr_ir_node value false ;;
  dst <- _get_target target ;;
  if potential_overlap dst src then
    src_typ <- typ_of src ;;
    tmp <- new_internal_variable src_typ ;;
    ret (ir "seq" [make_setter tmp src; make_setter dst tmp])
  else
    ret (ir "seq" [make_setter dst src]).

(** [Stmt.parse_If], given the lowering of its two bodies. *)
Definition parse_If (test : vy_ast.expr) (body : M IRnode)
           (orelse : option (M IRnode)) : M IRnode :=
  items <- with_ block_scope
             (test_expr <- parse_value_expr test ;;
              b <- body ;;
              ret [test_expr; b]) ;;
  match orelse with
  | Some orelse =>
      e <- with_ block_scope orelse ;;
      ret (ir "if" (items ++ [e]))
  | None => ret (ir "if" items)
  end.

(** [zip(args, event.indexed)] split into topics and data. *)
Fixpoint split_log_args (args : list IRnode) (indexed : list bool)
  : list IRnode * list IRnode :=
  match args, indexed with
  | arg :: args', is_indexed :: indexed' =>
      let '(topic_ir, data_ir) := split_log_args args' indexed' in
      if is_indexed then (arg :: topic_ir, data_ir) else (topic_ir, arg :: data_ir)
  | _, _ => ([], [])
  end.

(** [Stmt.parse_Log] *)
Definition parse_Log (self_stmt : vy_ast.stmt) (event : vy_ast.EventT)
           (value : vy_ast.expr) : M IRnode :=
  match value with
  | vy_ast.Call _ call_args keywords =>
      let to_compile :=
        if (0 <? Z.of_nat (List.length keywords)) then List.map snd keywords
        else call_args in
      args <- mapM (fun arg => Expr_ir_node arg false) to_compile ;;
      let '(topic_ir, data_ir) := split_log_args args (vy_ast.indexed event) in
      ir_node_for_log self_stmt event topic_ir data_ir
  | _ => attribute_error "keywords"
  end.

(** The [try ... finally] of [Stmt._assert_reason]: the message is
    lowered with the constancy forced to [Constant], and the saved
    constancy is written back whatever the lowering did. *)
Definition lower_reason_msg (msg : vy_ast.expr) : M IRnode :=
  fun c =>
    let tmp := constancy c in
    try_finally
      (modify (set_constancy Constant) ;;; Expr_ir_node msg false)
      (set_constancy tmp) c.

Definition is_UNREACHABLE (msg : vy_ast.expr) : bool :=
  match msg with
  | vy_ast.Name id => String.eqb id "UNREACHABLE"
  | _ => false
  end.

Definition method_id_int (sig : string) : M Z :=
  match util.method_id_int keccak256 sig with
  | Some z => ret z
  | None => throw (raise_ IndexError "index out of range")
  end.

(** [Stmt._assert_reason]; [test_expr] is [None] when called from
    [parse_Raise]. *)
Definition _assert_reason (test_expr : option IRnode) (msg : vy_ast.expr) : M IRnode :=
  if is_UNREACHABLE msg then
    match test_expr with
    | None => ret (set_error_msg "raise unreachable" (ir "invalid" []))
    | Some test_expr =>
        ret (set_error_msg "assert unreachable" (ir "assert_unreachable" [test_expr]))
    end
  else
    msg_ir <- lower_reason_msg msg ;;
    let msg_ir := wrap_value_for_external_return msg_ir in
    msg_typ <- typ_of msg_ir ;;
    let bufsz := 64 + memory_bytes_required msg_typ in
    buf <- new_internal_variable (get_type_for_exact_size bufsz) ;;
    method_id <- method_id_int "Error(string)" ;;
    let payload_buf := add_ofst buf 32 in
    let bufsz := bufsz - 32 in
    encoded_length <- abi_encode payload_buf msg_ir bufsz true ;;
    let '(b1, encoded_length) := cache_when_complex encoded_length "encoded_len" in
    let revert_seq :=
      resolve b1
        (ir "seq" [ir "mstore" [buf; ir_int method_id];
                   ir "revert" [add_ofst buf 28; ir "add" [ir_int 4; encoded_length]]]) in
    let ir_node :=
      match test_expr with
      | None => revert_seq
      | Some test_expr => ir "if" [ir "iszero" [test_expr]; revert_seq]
      end in
    ret (set_error_msg "user revert with reason" ir_node).

(** [Stmt.parse_Assert] *)
Definition parse_Assert (test : vy_ast.expr) (msg : option vy_ast.expr) : M IRnode :=
  test_expr <- parse_value_expr test ;;
  match msg with
  | Some msg => _assert_reason (Some test_expr) msg
  | None => ret (set_error_msg "user assert" (ir "assert" [test_expr]))
  end.

(** [Stmt.parse_Raise] *)
Definition parse_Raise (exc : option vy_ast.expr) : M IRnode :=
  match exc with
  | Some exc => _assert_reason None exc
  | None => ret (set_error_msg "user raise" (ir "revert" [ir_int 0; ir_int 0]))
  end.

(** [context.forvars[varname] = True] and [del context.forvars[varname]]. *)
Definition forvars_add (varname : string) : M unit :=
  modify (fun c => set_forvars (<[varname := true]> (forvars c)) c).

Definition forvars_del (varname : string) : M unit :=
  fun c =>
    match forvars c !! varname with
    | Some _ => (Ok tt, set_forvars (delete varname (forvars c)) c)
    | None => (Err (raise_ KeyError varname), c)
    end.

(** The dict comprehension over [range_call.keywords]: the values are
    lowered in order and a repeated keyword keeps its last value. *)
Fixpoint lower_keywords (keywords : list (string * vy_ast.expr))
         (kwargs : gmap string IRnode) : M (gmap string IRnode) :=
  match keywords with
  | [] => ret kwargs
  | (arg, v) :: keywords' =>
      n <- parse_value_expr v ;;
      lower_keywords keywords' (<[arg := n]> kwargs)
  end.

(** The part of [Stmt._parse_For_range] under [range_scope]: the two
    endpoints and the keyword arguments. *)
Definition range_endpoints (target_type : VyperType) (range_args : list vy_ast.expr)
           (keywords : list (string * vy_ast.expr))
  : M (IRnode * IRnode * gmap string IRnode) :=
  with_ range_scope
    (args <- mapM parse_value_expr range_args ;;
     se <- match args with
           | [end_] => ret (set_typ (Some target_type) (ir_int 0), end_)
           | [start; end_] => ret (start, end_)
           | _ => throw (raise_ TypeCheckFailure "unreachable")
           end ;;
     kwargs <- lower_keywords keywords ∅ ;;
     ret (fst se, snd se, kwargs)).

(** The round count and the declared bound of a range loop, with what is
    left of the keyword arguments. *)
Definition range_rounds (target_type : VyperType) (start end_ : IRnode)
           (kwargs : gmap string IRnode) : M (IRnode * Z * gmap string IRnode) :=
  match kwargs !! "bound" with
  | Some bound =>
      let '(b2, end_) := cache_when_complex end_ "end" in
      signed <- is_signed target_type ;;
      let clamped_start := clamp_le start end_ signed in
      let rounds := resolve b2 (ir "sub" [end_; clamped_start]) in
      rounds_bound <- lift (int_value bound) ;;
      ret (rounds, rounds_bound, delete "bound" kwargs)
  | None =>
      e <- lift (int_value end_) ;;
      s <- lift (int_value start) ;;
      let rounds := e - s in
      ret (ir_int rounds, rounds, kwargs)
  end.

(** [Stmt._parse_For_range], given the lowering of the loop body. *)
Definition _parse_For_range (varname : string) (target_type : VyperType)
           (range_args : list vy_ast.expr) (keywords : list (string * vy_ast.expr))
           (body : M IRnode) : M IRnode :=
  endpoints <- range_endpoints target_type range_args keywords ;;
  let '(start, end_, kwargs) := endpoints in
  assert_ (bool_decide (typ start = typ end_)
           && bool_decide (typ end_ = Some target_type)) "start.typ == end.typ == target_type" ;;;
  let '(b1, start) := cache_when_complex start "start" in
  counts <- range_rounds target_type start end_ kwargs ;;
  let '(rounds, rounds_bound, kwargs) := counts in
  assert_ (bool_decide (kwargs = ∅)) "len(kwargs) == 0" ;;;
  if rounds_bound <? 1 then
    throw (raise_ TypeCheckFailure "unreachable: unchecked 0 bound")
  else
    i_name <- fresh_varname "range_ix" ;;
    let i := set_typ (Some target_type) (ir_str i_name) in
    iptr <- new_variable varname target_type ;;
    forvars_add varname ;;;
    b <- body ;;
    let loop_body := ir "seq" [ir "mstore" [iptr; i]; b] in
    forvars_del varname ;;;
    let loop := ir "repeat" [i; start; rounds; ir_int rounds_bound; loop_body] in
    ret (resolve b1 (set_error_msg "range() bounds check" loop)).

(** [Stmt._parse_For_list], given the lowering of the loop body. *)
Definition _parse_For_list (varname : string) (target_type : VyperType)
           (iter : vy_ast.expr) (body : M IRnode) : M IRnode :=
  iter_list <- with_ range_scope (Expr_ir_node iter false) ;;
  iter_typ <- typ_of iter_list ;;
  vt <- value_type iter_typ ;;
  assert_ (bool_decide (target_type = vt)) "target_type == iter_list.typ.value_type" ;;;
  loop_var <- new_variable varname target_type ;;
  i_name <- fresh_varname "for_list_ix" ;;
  let i := set_typ (Some UINT256_T) (ir_str i_name) in
  forvars_add varname ;;;
  staged <- (if negb (is_pointer iter_list) then
               tmp_list <- new_internal_variable iter_typ ;;
               ret ([make_setter tmp_list iter_list], tmp_list)
             else ret ([], iter_list)) ;;
  let '(ret_, iter_list) := staged in
  let '(b1, iter_list) := cache_when_complex iter_list "list_iter" in
  let e := get_element_ptr iter_list i false in
  b <- body ;;
  let body_ir := ir "seq" [make_setter loop_var e; b] in
  list_typ <- typ_of iter_list ;;
  repeat_bound <- count list_typ ;;
  let array_len :=
    if is_DArrayT list_typ then get_dyn_array_count iter_list
    else ir_int repeat_bound in
  let ret_ :=
    (ret_ ++ [ir "repeat" [i; ir_int 0; array_len; ir_int repeat_bound; body_ir]])%list in
  forvars_del varname ;;;
  ret (resolve b1 (ir "seq" ret_)).

(** [self.stmt.get("iter.func.id") == "range"] *)
Definition is_range_call (iter : vy_ast.expr) : bool :=
  match iter with
  | vy_ast.Call (vy_ast.Name id) _ _ => String.eqb id "range"
  | _ => false
  end.

(** [Stmt.parse_For], given the lowering of the loop body. *)
Definition parse_For (varname : string) (target_type : VyperType)
           (iter : vy_ast.expr) (body : M IRnode) : M IRnode :=
  with_ block_scope
    (match iter with
     | vy_ast.Call (vy_ast.Name id) range_args keywords =>
         if String.eqb id "range"
         then _parse_For_range varname target_type range_args keywords body
         else _parse_For_list varname target_type iter body
     | _ => _parse_For_list varname target_type iter body
     end).

(** The loop of [Stmt.parse_AugAssign] over the variables the target
    references. *)
Fixpoint check_aliasing (vars_ : list VarInfo) (right : IRnode) : M unit :=
  match vars_ with
  | [] => ret tt
  | var :: vars' =>
      if _is_prim_word (var_typ var) then check_aliasing vars' right
      else if contains var (variable_writes right)
              || (is_state_variable var && contains_writeable_call right)
      then throw (raise_ CodegenPanic "unreachable")
      else check_aliasing vars' right
  end.

(** [Stmt.parse_AugAssign] *)
Definition parse_AugAssign (target : vy_ast.expr) (op : vy_ast.operator)
           (value : vy_ast.expr) : M IRnode :=
  target <- _get_target target ;;
  right <- parse_value_expr value ;;
  target_typ <- typ_of target ;;
  if negb (_is_prim_word target_typ) then
    throw (raise_ TypeCheckFailure "unreachable")
  else
    check_aliasing (referenced_variables target) right ;;;
    let '(b, target) := cache_when_complex target "_loc" in
    let left := set_typ (typ target) (LOAD target) in
    new_val <- handle_binop op left right ;;
    ret (resolve b (STORE target new_val)).

(** [Stmt.parse_Continue] and [Stmt.parse_Break] *)
Definition parse_Continue : M IRnode := ret (ir_str "continue").
Definition parse_Break : M IRnode := ret (ir_str "break").

(** [Stmt.parse_Return] *)
Definition parse_Return (self_stmt : vy_ast.stmt) (value : option vy_ast.expr) : M IRnode :=
  match value with
  | Some value =>
      ir_val <- Expr_ir_node value false ;;
      make_return_stmt (Some ir_val) self_stmt
  | None => make_return_stmt None self_stmt
  end.

(** [type(node).__name__] *)
Definition class_name (node : vy_ast.stmt) : string :=
  match node with
  | vy_ast.Expr _ => "Expr"
  | vy_ast.Pass => "Pass"
  | vy_ast.NameStmt _ => "Name"
  | vy_ast.AnnAssign _ _ _ => "AnnAssign"
  | vy_ast.Assign _ _ => "Assign"
  | vy_ast.If _ _ _ => "If"
  | vy_ast.Log _ _ => "Log"
  | vy_ast.Assert _ _ => "Assert"
  | vy_ast.Raise _ => "Raise"
  | vy_ast.For _ _ _ _ => "For"
  | vy_ast.AugAssign _ _ _ => "AugAssign"
  | vy_ast.Continue => "Continue"
  | vy_ast.Break => "Break"
  | vy_ast.Return _ => "Return"
  end.

(** [Stmt.__init__] around the handler [fn] chosen for [node]. *)
Definition Stmt_init (node : vy_ast.stmt) (fn : M IRnode) : M IRnode :=
  ir_node <- tag_exceptions CodegenPanic ("parse_" ++ class_name node)
               (with_ internal_memory_scope fn) ;;
  ret (set_ast_source node (set_annotation (node_source_code node) ir_node)).

(** The aggregate node of [parse_body]: the lowered statements and the
    trailing no-op. *)
Definition body_seq (irs : list IRnode) : IRnode :=
  ir "seq" (irs ++ [ir_str "pass"]).

(** [parse_stmt]: [Stmt(stmt, context).ir_node].  The bodies of [if] and
    [for] are lowered by [parse_body] with its default
    [ensure_terminated=False], which is the local [lower_body]. *)
Fixpoint parse_stmt (stmt : vy_ast.stmt) : M IRnode :=
  let lower_body :=
    fix lower_stmts (code : list vy_ast.stmt) : M (list IRnode) :=
      match code with
      | [] => ret []
      | s :: code' =>
          ir_ <- parse_stmt s ;;
          irs <- lower_stmts code' ;;
          ret (ir_ :: irs)
      end in
  let parse_body_ code := (irs <- lower_body code ;; ret (body_seq irs)) in
  Stmt_init stmt
    match stmt with
    | vy_ast.Expr value => parse_Expr value
    | vy_ast.Pass => parse_Pass
    | vy_ast.NameStmt id => parse_Name id
    | vy_ast.AnnAssign target_id ltyp value => parse_AnnAssign target_id ltyp value
    | vy_ast.Assign target value => parse_Assign target value
    | vy_ast.If test body orelse =>
        parse_If test (parse_body_ body)
          (match orelse with [] => None | _ :: _ => Some (parse_body_ orelse) end)
    | vy_ast.Log event value => parse_Log stmt event value
    | vy_ast.Assert test msg => parse_Assert test msg
    | vy_ast.Raise exc => parse_Raise exc
    | vy_ast.For target_id target_type iter body =>
        parse_For target_id target_type iter (parse_body_ body)
    | vy_ast.AugAssign target op value => parse_AugAssign target op value
    | vy_ast.Continue => parse_Continue
    | vy_ast.Break => parse_Break
    | vy_ast.Return value => parse_Return stmt value
    end.

(** The loop of [parse_body]. *)
Fixpoint lower_stmts (code : list vy_ast.stmt) : M (list IRnode) :=
  match code with
  | [] => ret []
  | s :: code' =>
      ir_ <- parse_stmt s ;;
      irs <- lower_stmts code' ;;
      ret (ir_ :: irs)
  end.

(** [_is_terminated], entered at the last statement of a sequence. *)
Fixpoint last_terminated (last_stmt : vy_ast.stmt) : result bool :=
  let _is_terminated :=
    fix of_code (code : list vy_ast.stmt) : result bool :=
      match code with
      | [] => Err (raise_ IndexError "list index out of range")
      | [s] => last_terminated s
      | _ :: code' => of_code code'
      end in
  if is_terminus last_stmt then Ok true
  else
    match last_stmt with
    | vy_ast.If _ body orelse =>
        match orelse with
        | [] => Ok false
        | _ :: _ =>
            match _is_terminated body with
            | Ok true => _is_terminated orelse
            | r => r
            end
        end
    | _ => Ok false
    end.

(** [_is_terminated]: [code[-1]] raises IndexError on an empty list. *)
Fixpoint _is_terminated (code : list vy_ast.stmt) : result bool :=
  match code with
  | [] => Err (raise_ IndexError "list index out of range")
  | [s] => last_terminated s
  | _ :: code' => _is_terminated code'
  end.

(** [parse_body] *)
Definition parse_body (code : list vy_ast.stmt) (ensure_terminated : bool) : M IRnode :=
  ir_node <- lower_stmts code ;;
  c <- get ;;
  ir_node <-
    (if ensure_terminated && bool_decide (return_type c = None) then
       terminated <- lift (_is_terminated code) ;;
       if negb terminated then
         r <- parse_stmt (vy_ast.Return None) ;;
         ret (ir_node ++ [r])%list
       else ret ir_node
     else ret ir_node) ;;
  ret (body_seq ir_node).

End Stmt.

(* ===================================================================== *)
(** ** The specification's notion of a terminated sequence *)
(* ===================================================================== *)

(** Python's grammar gives every block at least one statement; only the
    [orelse] of an [if] may be empty, which means that it is absent. *)
Fixpoint blocks_nonempty (s : vy_ast.stmt) : bool :=
  let block :=
    fix block (code : list vy_ast.stmt) : bool :=
      match code with
      | [] => true
      | s' :: code' => blocks_nonempty s' && block code'
      end in
  match s with
  | vy_ast.If _ body orelse =>
      negb (bool_decide (body = [])) && block body && block orelse
  | vy_ast.For _ _ _ body => negb (bool_decide (body = [])) && block body
  | _ => true
  end.

Definition well_formed (code : list vy_ast.stmt) : bool :=
  negb (bool_decide (code = [])) && forallb blocks_nonempty code.

(** The specification's words (section 4.6): a sequence is terminated if
    its final statement is a terminus, or if its final statement is an
    [if] with both branches present and each branch terminated; no other
    sequence is. *)
Inductive Terminated {UP : Upstream} : list vy_ast.stmt -> Prop :=
| Terminated_terminus code last_stmt :
    last code = Some last_stmt ->
    is_terminus last_stmt = true ->
    Terminated code
| Terminated_if code test body orelse :
    last code = Some (vy_ast.If test body orelse) ->
    orelse <> [] ->
    Terminated body ->
    Terminated orelse ->
    Terminated code.

(* ===================================================================== *)
(** ** Evaluation of the pure word arithmetic of the IR *)
(* ===================================================================== *)

(** The words of the target machine are the integers below [2^256]; a
    word read as signed is in two's complement. *)
Definition WORD : Z := 2 ^ 256.

Definition to_signed (w : Z) : Z := if w <? 2 ^ 255 then w else w - WORD.

Definition of_bool (b : bool) : Z := if b then 1 else 0.

(** The integer a word stands for in a loop over a signed or an unsigned
    type. *)
Definition as_integer (signed : bool) (w : Z) : Z :=
  if signed then to_signed w else w.

Definition env_lookup (env : list (string * Z)) (name : string) : option Z :=
  match List.find (fun kv => String.eqb (fst kv) name) env with
  | Some kv => Some (snd kv)
  | None => None
  end.

(** Modelled from the spec: the binary operators of the round count, on
    words: [sub] and [add] wrap around, [le] compares unsigned and [sle]
    signed. *)
Definition eval_binop (op : string) (a b : Z) : option Z :=
  if String.eqb op "sub" then Some ((a - b) mod WORD)
  else if String.eqb op "add" then Some ((a + b) mod WORD)
  else if String.eqb op "le" then Some (of_bool (a <=? b))
  else if String.eqb op "sle" then Some (of_bool (to_signed a <=? to_signed b))
  else None.

(** Modelled from the spec: the run-time value of the pure word
    arithmetic that a range loop's round count is made of (the assembler
    behind the IR is absent from src/).  A literal is its word, a name is
    looked up, [assert] reverts on zero, [seq] yields its last value and
    [with] binds a name.  [None] is a revert, or a node outside this
    fragment. *)
Fixpoint eval (env : list (string * Z)) (n : IRnode) : option Z :=
  match n with
  | mkIRnode (VInt z) _ _ _ _ _ _ => Some (z mod WORD)
  | mkIRnode (VStr op) children _ _ _ _ _ =>
      if String.eqb op "seq" then
        (fix steps (l : list IRnode) (last_value : Z) : option Z :=
           match l with
           | [] => Some last_value
           | x :: l' =>
               match eval env x with
               | Some v => steps l' v
               | None => None
               end
           end) children 0
      else
        match children with
        | [] => env_lookup env op
        | [c] =>
            if String.eqb op "assert" then
              match eval env c with
              | Some v => if v =? 0 then None else Some 0
              | None => None
              end
            else None
        | [a; b] =>
            match eval env a, eval env b with
            | Some va, Some vb => eval_binop op va vb
            | _, _ => None
            end
        | [bound_name; v; body] =>
            if String.eqb op "with" then
              match value bound_name, eval env v with
              | VStr name, Some vv => eval ((name, vv) :: env) body
              | _, _ => None
              end
            else None
        | _ => None
        end
  end.

(* ===================================================================== *)
(** ** A small instance of the collaborators *)
(* ===================================================================== *)

(** A toy contract with the state variables [self.x : uint256] and
    [self.a : DynArray[uint256, 4]], the mutating internal function
    [self.bump()] (it writes [self.x] and [self.a]) and the view function
    [self.peek()].  The theorems below hold for every collaborator; this
    instance is where they are run. *)
Module Demo.

Definition var_node (name : string) (t : VyperType) (loc : DataLocation) : IRnode :=
  mkIRnode (VStr name) [] (Some t) (Some loc) None None None.

Definition x_T : VyperType := UINT256_T.
Definition a_T : VyperType := DArrayT UINT256_T 4.
Definition x_info : VarInfo := mkVarInfo "self.x" x_T true.
Definition a_info : VarInfo := mkVarInfo "self.a" a_T true.

Definition unsupported {A} : M A := throw (raise_ CompilerPanic "unsupported").

Definition nat_name (base : string) (k : nat) : string :=
  base ++ String (Ascii.ascii_of_nat (48 + k)) "".

Definition state_location (loc : DataLocation) : bool :=
  match loc with STORAGE | TRANSIENT => true | _ => false end.

Definition upstream : Upstream := {|
  is_terminus s :=
    match s with vy_ast.Return _ | vy_ast.Raise _ => true | _ => false end;
  node_source_code _ := None
|}.

Definition load (ptr : IRnode) : IRnode :=
  match location ptr with
  | Some STORAGE => ir "sload" [ptr]
  | _ => ir "mload" [ptr]
  end.

Definition store (ptr val : IRnode) : IRnode :=
  match location ptr with
  | Some STORAGE => ir "sstore" [ptr; val]
  | _ => ir "mstore" [ptr; val]
  end.

Fixpoint lower (e : vy_ast.expr) : M IRnode :=
  match e with
  | vy_ast.Name id =>
      c <- get ;;
      match vars c !! id with
      | Some n => ret n
      | None => unsupported
      end
  | vy_ast.Attribute (vy_ast.Name "self") "x" => ret (var_node "self.x" x_T STORAGE)
  | vy_ast.Attribute (vy_ast.Name "self") "a" => ret (var_node "self.a" a_T STORAGE)
  | vy_ast.Int n => ret (set_typ (Some UINT256_T) (ir_int n))
  | vy_ast.Str s =>
      ret (mkIRnode (VStr "string_literal") [ir_str s]
             (Some (StringT (N.of_nat (String.length s)))) None None None None)
  | vy_ast.Subscript base index =>
      b <- lower base ;;
      i <- lower index ;;
      match typ b with
      | Some (SArrayT vt _) | Some (DArrayT vt _) =>
          ret (mkIRnode (VStr "element") [b; i] (Some vt) (location b) None None None)
      | _ => unsupported
      end
  | vy_ast.Call (vy_ast.Attribute (vy_ast.Name "self") f) [] [] =>
      ret (set_typ (Some UINT256_T) (ir "internal_call" [ir_str f]))
  | vy_ast.List [vy_ast.Int n1; vy_ast.Int n2] =>
      ret (set_typ (Some (SArrayT UINT256_T 2)) (ir "multi" [ir_int n1; ir_int n2]))
  | _ => unsupported
  end.

Definition exprs : ExprLowering := {|
  Expr_ir_node e _ := lower e;
  parse_value_expr e :=
    (n <- lower e ;;
     if is_pointer n then ret (set_typ (typ n) (load n)) else ret n);
  parse_pointer_expr e :=
    (n <- lower e ;;
     if is_pointer n then ret n else unsupported);
  handle_binop op l r :=
    ret (set_typ (typ l)
           (ir match op with vy_ast.Add => "add" | vy_ast.Sub => "sub" | _ => "binop" end
               [l; r]))
|}.

Fixpoint node_variables (n : IRnode) : list VarInfo :=
  match n with
  | mkIRnode (VStr name) [] (Some t) (Some loc) _ _ _ =>
      [mkVarInfo name t (state_location loc)]
  | mkIRnode _ children _ _ _ _ _ =>
      (fix each (l : list IRnode) : list VarInfo :=
         match l with
         | [] => []
         | x :: l' => (node_variables x ++ each l')%list
         end) children
  end.

Definition mutating_function (f : string) : bool := String.eqb f "bump".

Fixpoint node_writes (n : IRnode) : list VarInfo :=
  match n with
  | mkIRnode (VStr "internal_call") [mkIRnode (VStr f) [] _ _ _ _ _] _ _ _ _ _ =>
      if mutating_function f then [x_info; a_info] else []
  | mkIRnode _ children _ _ _ _ _ =>
      (fix each (l : list IRnode) : list VarInfo :=
         match l with
         | [] => []
         | x :: l' => (node_writes x ++ each l')%list
         end) children
  end.

Fixpoint node_calls (n : IRnode) : bool :=
  match n with
  | mkIRnode (VStr "internal_call") [mkIRnode (VStr f) [] _ _ _ _ _] _ _ _ _ _ =>
      mutating_function f
  | mkIRnode _ children _ _ _ _ _ =>
      (fix each (l : list IRnode) : bool :=
         match l with
         | [] => false
         | x :: l' => node_calls x || each l'
         end) children
  end.

Definition analysis : IRAnalysis := {|
  referenced_variables := node_variables;
  variable_writes := node_writes;
  contains_writeable_call := node_calls;
  is_complex_ir n :=
    match value n, args n with
    | VStr _, _ :: _ => true
    | _, _ => false
    end
|}.

Definition core : Core := {|
  LOAD := load;
  STORE := store;
  add_ofst ptr ofst := ir "add" [ptr; ir_int ofst];
  get_dyn_array_count ptr := load ptr;
  get_element_ptr ptr ix _ :=
    mkIRnode (VStr "element") [ptr; ix]
      (match typ ptr with
       | Some (SArrayT vt _) | Some (DArrayT vt _) => Some vt
       | _ => None
       end) (location ptr) None None None;
  get_type_for_exact_size n := BytesT (Z.to_N (n - 32));
  make_setter l r := ir "copy" [l; r];
  may_overlap l r :=
    existsb (fun v => contains v (node_variables r)) (node_variables l);
  wrap_value_for_external_return n :=
    set_typ (match typ n with Some t => Some (TupleT [t]) | None => None end)
            (ir "multi" [n]);
  writeable _ n :=
    match location n with Some CALLDATA | Some CODE => false | _ => true end
|}.

Definition allocate (name : string) (t : VyperType) (c : Context) : Context :=
  mkContext (constancy c) (forvars c) (return_type c)
            (<[name := var_node name t MEMORY]> (vars c)) (scopes c)
            (in_range_expr c) (internal_var_iter c)
            (next_mem c + memory_bytes_required t).

Definition bump_iter (c : Context) : Context :=
  mkContext (constancy c) (forvars c) (return_type c) (vars c) (scopes c)
            (in_range_expr c) (S (internal_var_iter c)) (next_mem c).

Definition set_scopes (s : list nat) (c : Context) : Context :=
  mkContext (constancy c) (forvars c) (return_type c) (vars c) s
            (in_range_expr c) (internal_var_iter c) (next_mem c).

Definition set_in_range (b : bool) (c : Context) : Context :=
  mkContext (constancy c) (forvars c) (return_type c) (vars c) (scopes c)
            b (internal_var_iter c) (next_mem c).

Definition context_ops : ContextOps := {|
  new_variable name t :=
    (modify (allocate name t) ;;; ret (var_node name t MEMORY));
  new_internal_variable t :=
    (c <- get ;;
     let name := nat_name "#internal_" (internal_var_iter c) in
     modify (fun c => bump_iter (allocate name t c)) ;;;
     ret (var_node name t MEMORY));
  fresh_varname name :=
    (c <- get ;;
     modify bump_iter ;;;
     ret (nat_name name (internal_var_iter c)));
  block_scope := {|
    cm_enter c := bump_iter (set_scopes (internal_var_iter c :: scopes c) c);
    cm_exit c := set_scopes (tl (scopes c)) c |};
  range_scope := {|
    cm_enter := set_in_range true;
    cm_exit := set_in_range false |};
  internal_memory_scope := {| cm_enter c := c; cm_exit c := c |}
|}.

Definition abi : AbiEncoder := {|
  abi_encode dst n bufsz returns_len :=
    ret (ir "abi_encode" [dst; n; ir_int bufsz])
|}.

Definition emitters : Emitters := {|
  ir_node_for_log _ _ topics data := ret (ir "log" (topics ++ data));
  make_return_stmt val _ :=
    ret (ir "exit_to" (match val with Some v => [v] | None => [] end))
|}.

(** A stand-in digest: its first four bytes are those of the Keccak-256
    hash of [Error(string)], 0x08c379a0. *)
Definition digest : Hash := {|
  keccak256 _ := ([8; 195; 121; 160] ++ List.repeat 0 28)%list
|}.

(** The Context at the start of a function without a return value. *)
Definition ctx0 : Context :=
  mkContext Mutable ∅ None ∅ [] false 0 640.

(** The Context inside the body of [for i: uint256 in ...]. *)
Definition loop_ctx : Context :=
  set_forvars {["i" := true]} (allocate "i" UINT256_T ctx0).

(** Some expressions of the toy contract. *)
Definition self_x : vy_ast.expr := vy_ast.Attribute (vy_ast.Name "self") "x".
Definition self_a : vy_ast.expr := vy_ast.Attribute (vy_ast.Name "self") "a".
Definition self_call (f : string) : vy_ast.expr :=
  vy_ast.Call (vy_ast.Attribute (vy_ast.Name "self") f) [] [].
Definition range_call (range_args : list vy_ast.expr)
           (keywords : list (string * vy_ast.expr)) : vy_ast.expr :=
  vy_ast.Call (vy_ast.Name "range") range_args keywords.

Definition x_node : IRnode := var_node "self.x" x_T STORAGE.
Definition a_node : IRnode := var_node "self.a" a_T STORAGE.
Definition call_node (f : string) : IRnode :=
  set_typ (Some UINT256_T) (ir "internal_call" [ir_str f]).

End Demo.


(* ===================================================================== *)
(** ** The rest of vyper/utils.py *)
(* ===================================================================== *)

Module utils.

(** The Python exceptions these helpers raise. *)
Inductive error : Type :=
| AssertionError
| OverflowError
| KeyError
| StopIteration
| ValueError
| BinasciiError.

Inductive outcome (A : Type) : Type :=
| Returns (a : A)
| Raises (e : error).
Arguments Returns {A} a.
Arguments Raises {A} e.

(** *** Integers *)

(** The elements of a Python [bytes] object. *)
Definition is_byte (b : Z) : Prop := 0 <= b < 256.

(** Python's [n.to_bytes(length, byteorder="big")]: OverflowError for a
    negative [n] and for one that does not fit [length] bytes. *)
Fixpoint big_endian (length : nat) (n : Z) : list Z :=
  match length with
  | O => []
  | S k => (n / 256 ^ Z.of_nat k) mod 256 :: big_endian k n
  end.

Definition to_bytes (n : Z) (length : nat) : outcome (list Z) :=
  if n <? 0 then Raises OverflowError
  else if 256 ^ Z.of_nat length <=? n then Raises OverflowError
  else Returns (big_endian length n).

(** [int_to_fourbytes] *)
Definition int_to_fourbytes (n : Z) : outcome (list Z) :=
  if n <? 2 ^ 32 then to_bytes n 4 else Raises AssertionError.

(** [bytes_to_int] *)
Definition bytes_to_int (bytez : list Z) : Z :=
  fold_left (fun o b => o * 256 + b) bytez 0.

(** [int_bounds], for [bits >= 1] (below that Python's [2 ** (bits - 1)]
    is a float). *)
Definition int_bounds (signed : bool) (bits : Z) : Z * Z :=
  if signed then (- 2 ^ (bits - 1), 2 ^ (bits - 1) - 1)
  else (0, 2 ^ bits - 1).

(** [signed_to_unsigned] *)
Definition signed_to_unsigned (int_ bits : Z) (strict : bool) : outcome Z :=
  let '(lo, hi) := int_bounds true bits in
  if strict && negb ((lo <=? int_) && (int_ <=? hi)) then Raises AssertionError
  else if int_ <? 0 then Returns (int_ + 2 ^ bits)
  else Returns int_.

(** [unsigned_to_signed] *)
Definition unsigned_to_signed (int_ bits : Z) (strict : bool) : outcome Z :=
  let '(lo, hi) := int_bounds false bits in
  if strict && negb ((lo <=? int_) && (int_ <=? hi)) then Raises AssertionError
  else if 2 ^ (bits - 1) - 1 <? int_ then Returns (int_ - 2 ^ bits)
  else Returns int_.

(** [wrap256] *)
Definition wrap256 (val : Z) (signed : bool) : outcome Z :=
  let ret := val mod 2 ^ 256 in
  if signed then unsigned_to_signed ret 256 true else Returns ret.

(** [is_power_of_two]; Python's [&] on integers is the two's-complement
    conjunction, which is [Z.land]. *)
Definition is_power_of_two (n : Z) : bool :=
  negb (n =? 0) && (Z.land n (n - 1) =? 0).

(** Python's [n.bit_length()]: the number of bits of [abs(n)]. *)
Definition bit_length (n : Z) : Z :=
  if n =? 0 then 0 else Z.log2 (Z.abs n) + 1.

(** [int_log2] *)
Definition int_log2 (n : Z) : Z := bit_length n - 1.


(** [class SizeLimits] *)
Module SizeLimits.
Definition MAX_INT128 : Z := 2 ^ 127 - 1.
Definition MIN_INT128 : Z := - 2 ^ 127.
Definition MAX_INT256 : Z := 2 ^ 255 - 1.
Definition MIN_INT256 : Z := - 2 ^ 255.
Definition MAXDECIMAL : Z := 2 ^ 167 - 1.
Definition MINDECIMAL : Z := - 2 ^ 167.
Definition MAX_UINT8 : Z := 2 ^ 8 - 1.
Definition MAX_UINT256 : Z := 2 ^ 256 - 1.
Definition CEILING_UINT256 : Z := 2 ^ 256.
End SizeLimits.

(** [evm_twos_complement] *)
Definition evm_twos_complement (x : Z) : Z :=
  Z.lxor (2 ^ 256 - 1) x + 1.

(** [evm_not] *)
Definition evm_not (val : Z) : outcome Z :=
  if (0 <=? val) && (val <=? SizeLimits.MAX_UINT256)
  then Returns (Z.lxor SizeLimits.MAX_UINT256 val)
  else Raises AssertionError.

(** [evm_div] *)
Definition evm_div (x y : Z) : Z :=
  if y =? 0 then 0
  else
    let sign := if x * y <? 0 then -1 else 1 in
    sign * (Z.abs x / Z.abs y).

(** [evm_mod] *)
Definition evm_mod (x y : Z) : Z :=
  if y =? 0 then 0
  else
    let sign := if x <? 0 then -1 else 1 in
    sign * (Z.abs x mod Z.abs y).

(** [evm_pow]; the three-argument [pow] is the power modulo its third
    argument. *)
Definition evm_pow (x y : Z) : outcome Z :=
  if (0 <=? x) && (0 <=? y) then Returns ((x ^ y) mod 2 ^ 256)
  else Raises AssertionError.

(** *** Hexadecimal strings and checksummed addresses *)

(** The value of a hexadecimal digit, as [binascii.unhexlify] reads it. *)
Definition hex_digit (c : Ascii.ascii) : option Z :=
  let n := Z.of_nat (Ascii.nat_of_ascii c) in
  if (48 <=? n) && (n <=? 57) then Some (n - 48)
  else if (97 <=? n) && (n <=? 102) then Some (n - 87)
  else if (65 <=? n) && (n <=? 70) then Some (n - 55)
  else None.

(** [binascii.unhexlify], on an ASCII string: two digits a byte; an odd
    length or a character that is no hexadecimal digit raises
    [binascii.Error]. *)
Fixpoint unhexlify (s : string) : outcome (list Z) :=
  match s with
  | EmptyString => Returns []
  | String _ EmptyString => Raises BinasciiError
  | String a (String b rest) =>
      match hex_digit a, hex_digit b, unhexlify rest with
      | Some x, Some y, Returns bytez => Returns (16 * x + y :: bytez)
      | _, _, _ => Raises BinasciiError
      end
  end.

(** [inp[:2]] and [inp[2:]] *)
Definition first_two (s : string) : string := String.substring 0 2 s.
Definition after_two (s : string) : string :=
  String.substring 2 (String.length s - 2) s.

(** [hex_to_int] *)
Definition hex_to_int (inp : string) : outcome Z :=
  let inp := if String.eqb (first_two inp) "0x" then after_two inp else inp in
  match unhexlify inp with
  | Returns bytez => Returns (bytes_to_int bytez)
  | Raises e => Raises e
  end.

(** [str.lower] and [str.upper] on the characters of an ASCII string. *)
Definition code (c : Ascii.ascii) : Z := Z.of_nat (Ascii.nat_of_ascii c).

Definition lower_char (c : Ascii.ascii) : Ascii.ascii :=
  if (65 <=? code c) && (code c <=? 90)
  then Ascii.ascii_of_nat (Ascii.nat_of_ascii c + 32) else c.

Definition upper_char (c : Ascii.ascii) : Ascii.ascii :=
  if (97 <=? code c) && (code c <=? 122)
  then Ascii.ascii_of_nat (Ascii.nat_of_ascii c - 32) else c.

Fixpoint lower (s : string) : string :=
  match s with
  | EmptyString => EmptyString
  | String c rest => String (lower_char c) (lower rest)
  end.

(** [c in "0123456789"] for a character [c]. *)
Definition is_decimal_digit (c : Ascii.ascii) : bool :=
  (48 <=? code c) && (code c <=? 57).

Section Checksum.
Variable keccak256 : list Z -> list Z.

(** The loop of [checksum_encode] from index [i] on. *)
Fixpoint checksum_chars (v : Z) (i : Z) (s : string) : string :=
  match s with
  | EmptyString => EmptyString
  | String c rest =>
      String
        (if is_decimal_digit c then c
         else if negb (Z.land v (2 ^ (255 - 4 * i)) =? 0) then upper_char c
         else lower_char c)
        (checksum_chars v (i + 1) rest)
  end.

(** [checksum_encode], on an ASCII string. *)
Definition checksum_encode (addr : string) : outcome string :=
  if String.eqb (first_two addr) "0x" && (String.length addr =? 42)%nat then
    let v := bytes_to_int (keccak256 (util.bytes_of_str (lower (after_two addr)))) in
    Returns ("0x" ++ checksum_chars v 0 (after_two addr))
  else Raises AssertionError.

(** [is_checksum_encoded] *)
Definition is_checksum_encoded (addr : string) : outcome bool :=
  match checksum_encode addr with
  | Returns encoded => Returns (String.eqb addr encoded)
  | Raises e => Raises e
  end.
End Checksum.

(** *** Ordered collections *)

Section Collections.
Context {A : Type} `{EqDecision A}.

(** [uniq], with the set [seen] it threads through the loop. *)
Fixpoint uniq_from (seen : list A) (seq : list A) : list A :=
  match seq with
  | [] => []
  | x :: seq' =>
      if contains x seen then uniq_from seen seq'
      else x :: uniq_from (x :: seen) seq'
  end.

Definition uniq (seq : list A) : list A := uniq_from [] seq.

(** [class OrderedSet]: the keys of [_data], a dict, in insertion
    order.  Assigning to a key the dict already has keeps its place. *)
Definition OrderedSet : Type := list A.

Definition add (self : OrderedSet) (item : A) : OrderedSet :=
  if contains item self then self else (self ++ [item])%list.

(** [update], [addmany] and [__ior__]: the same loop. *)
Definition update (self : OrderedSet) (other : list A) : OrderedSet :=
  fold_left add other self.

(** [OrderedSet(iterable)]: [dict.fromkeys] inserts the items in order. *)
Definition from_iterable (iterable : list A) : OrderedSet :=
  fold_left add iterable [].

Definition first (self : OrderedSet) : outcome A :=
  match self with
  | x :: _ => Returns x
  | [] => Raises StopIteration
  end.

Definition last (self : OrderedSet) : outcome A :=
  match rev self with
  | x :: _ => Returns x
  | [] => Raises StopIteration
  end.

(** [pop]: [dict.popitem] takes the item inserted last; KeyError on an
    empty dict. *)
Definition pop (self : OrderedSet) : outcome (A * OrderedSet) :=
  match rev self with
  | x :: before => Returns (x, rev before)
  | [] => Raises KeyError
  end.

(** [discard]: [dict.pop(item, None)]. *)
Definition discard (self : OrderedSet) (item : A) : OrderedSet :=
  List.filter (fun k => negb (bool_decide (k = item))) self.

(** [remove]: [del self._data[item]]. *)
Definition remove (self : OrderedSet) (item : A) : outcome OrderedSet :=
  if contains item self then Returns (discard self item) else Raises KeyError.

(** [dropmany] and [__isub__]. *)
Definition dropmany (self : OrderedSet) (other : list A) : OrderedSet :=
  fold_left discard other self.

(** [difference] and [__sub__]: a copy with [other] dropped. *)
Definition difference (self : OrderedSet) (other : list A) : OrderedSet :=
  dropmany self other.

(** [union] and [__or__]: a copy updated with [other]. *)
Definition union (self : OrderedSet) (other : list A) : OrderedSet :=
  update self other.

(** [__eq__]: the equality of the two dicts, which have the same keys
    when they have as many and each key of the one is in the other. *)
Definition __eq__ (self other : OrderedSet) : bool :=
  (List.length self =? List.length other)%nat
  && forallb (fun k => contains k other) self.
End Collections.

End utils.

(** The number that a string of hexadecimal digits denotes, the most
    significant digit first; [None] when a character is no digit. *)
Fixpoint hex_value_from (acc : Z) (s : string) : option Z :=
  match s with
  | EmptyString => Some acc
  | String c rest =>
      match utils.hex_digit c with
      | Some d => hex_value_from (acc * 16 + d) rest
      | None => None
      end
  end.

Definition hex_value (s : string) : option Z := hex_value_from 0 s.

(** The characters of the string are ASCII: below 128. *)
Fixpoint ascii_only (s : string) : bool :=
  match s with
  | EmptyString => true
  | String c rest => (utils.code c <? 128) && ascii_only rest
  end.


(* ===================================================================== *)
(** ** Reasoning in the lowering monad *)
(* ===================================================================== *)

Lemma bind_Ok {A B} (m : M A) (k : A -> M B) c a c' :
  m c = (Ok a, c') -> bind m k c = k a c'.
Proof. intros Hm. unfold bind. now rewrite Hm. Qed.

Lemma bind_Err {A B} (m : M A) (k : A -> M B) c e c' :
  m c = (Err e, c') -> bind m k c = (Err e, c').
Proof. intros Hm. unfold bind. now rewrite Hm. Qed.

Lemma bind_ret {A B} (a : A) (k : A -> M B) c : bind (ret a) k c = k a c.
Proof. reflexivity. Qed.

Lemma bind_bind {A B C} (m : M A) (k1 : A -> M B) (k2 : B -> M C) c :
  bind (bind m k1) k2 c = bind m (fun a => bind (k1 a) k2) c.
Proof. unfold bind. now destruct (m c) as [[a|e] c']. Qed.

Lemma bind_get {B} (k : Context -> M B) c : bind get k c = k c c.
Proof. reflexivity. Qed.

Lemma bind_modify {B} (f : Context -> Context) (k : unit -> M B) c :
  bind (modify f) k c = k tt (f c).
Proof. reflexivity. Qed.

Lemma with_Ok {A} (cm : ContextManager) (body : M A) c a c' :
  body (cm_enter cm c) = (Ok a, c') -> with_ cm body c = (Ok a, cm_exit cm c').
Proof. intros Hb. unfold with_. now rewrite Hb. Qed.

Lemma with_Err {A} (cm : ContextManager) (body : M A) c e c' :
  body (cm_enter cm c) = (Err e, c') -> with_ cm body c = (Err e, cm_exit cm c').
Proof. intros Hb. unfold with_. now rewrite Hb. Qed.

(** One step of symbolic execution: a bind whose first computation is
    known, by a hypothesis or by computation. *)
Ltac step :=
  first
    [ rewrite bind_ret
    | rewrite bind_bind
    | rewrite bind_get
    | rewrite bind_modify
    | match goal with
      | Hm : ?m ?c = (Ok ?a, ?c') |- context [bind ?m _ ?c] =>
          rewrite (bind_Ok m _ c a c' Hm)
      | Hm : ?m ?c = (Err ?e, ?c') |- context [bind ?m _ ?c] =>
          rewrite (bind_Err m _ c e c' Hm)
      end ].

Ltac steps := repeat (step; cbv beta iota).

(* ===================================================================== *)
(** ** Properties of the statement lowering *)
(* ===================================================================== *)

Section Properties.
Context {UP : Upstream} {EL : ExprLowering} {IA : IRAnalysis} {CO : Core}
        {CX : ContextOps} {AE : AbiEncoder} {EM : Emitters} {HA : Hash}.

(** *** The dispatcher *)

(** The bodies of [if] and [for] are lowered by [parse_body] with its
    default [ensure_terminated=False]. *)
Lemma parse_stmt_If (test : vy_ast.expr) (body orelse : list vy_ast.stmt) (c : Context) :
  parse_stmt (vy_ast.If test body orelse) c
  = Stmt_init (vy_ast.If test body orelse)
      (parse_If test (parse_body body false)
         (match orelse with
          | [] => None
          | _ :: _ => Some (parse_body orelse false)
          end)) c.
Proof. reflexivity. Qed.

Lemma parse_stmt_For (target_id : string) (target_type : VyperType)
      (iter : vy_ast.expr) (body : list vy_ast.stmt) (c : Context) :
  parse_stmt (vy_ast.For target_id target_type iter body) c
  = Stmt_init (vy_ast.For target_id target_type iter body)
      (parse_For target_id target_type iter (parse_body body false)) c.
Proof. reflexivity. Qed.


(** *** Assignment targets *)

(** C10: an assignment or augmented assignment whose target is a bare
    name registered in the Context's active loop variables fails with an
    internal invariant fault when the target is resolved: [_get_target]
    raises before it lowers the target, so it produces no IR and leaves
    the Context as it found it; [parse_AugAssign], which resolves the
    target first, fails at once, and [parse_Assign] fails as soon as its
    right-hand side is lowered. *)
Theorem loop_variable_is_not_a_target (id : string) (c : Context) :
  is_Some (forvars c !! id) ->
  let fault := raise_ TypeCheckFailure "Failed constancy check" in
  is_invariant_fault fault = true /\
  _get_target (vy_ast.Name id) c = (Err fault, c) /\
  (forall op value,
      parse_AugAssign (vy_ast.Name id) op value c = (Err fault, c)) /\
  (forall value c0 src,
      Expr_ir_node value false c0 = (Ok src, c) ->
      parse_Assign (vy_ast.Name id) value c0 = (Err fault, c)).
Proof.
  intros Hin fault.
  assert (Hget : _get_target (vy_ast.Name id) c = (Err fault, c)).
  { unfold _get_target. rewrite bind_get.
    rewrite bool_decide_true by exact Hin. reflexivity. }
  split; [reflexivity|]. split; [exact Hget|]. split.
  - intros op value. unfold parse_AugAssign. now steps.
  - intros value c0 src Hsrc. unfold parse_Assign. now steps.
Qed.

(** *** Revert reasons *)

(** C9: while the reason of an assert or raise is lowered, the constancy
    of the Context is [Constant]; whatever the lowering of the message
    does, returning or raising, the constancy it was entered with is
    written back, and every other field of the Context is as the
    message lowering left it.  When the message lowering raises,
    [_assert_reason] raises the same fault with the constancy
    restored. *)
Theorem reason_lowering_restores_constancy (msg : vy_ast.expr) (c : Context) :
  let run := Expr_ir_node msg false (set_constancy Constant c) in
  constancy (set_constancy Constant c) = Constant /\
  lower_reason_msg msg c = (fst run, set_constancy (constancy c) (snd run)) /\
  constancy (snd (lower_reason_msg msg c)) = constancy c /\
  (forall test_expr e,
      is_UNREACHABLE msg = false ->
      fst run = Err e ->
      _assert_reason test_expr msg c
      = (Err e, set_constancy (constancy c) (snd run))).
Proof.
  intros run.
  assert (Hlow : lower_reason_msg msg c
                 = (fst run, set_constancy (constancy c) (snd run))).
  { unfold lower_reason_msg, try_finally. rewrite bind_modify.
    fold run. now destruct run. }
  split; [reflexivity|]. split; [exact Hlow|]. split.
  - now rewrite Hlow.
  - intros test_expr e Hmsg Hrun. unfold _assert_reason. rewrite Hmsg.
    rewrite Hrun in Hlow. now steps.
Qed.


(** C8: when the message of an assert or raise is the name
    [UNREACHABLE], nothing is encoded: [raise UNREACHABLE] lowers to the
    trap [invalid], which is not the [revert] of a bare raise, and
    [assert cond, UNREACHABLE] lowers to [assert_unreachable] on the
    lowered condition.  The Context is not touched after the condition
    is lowered, and the result is the same whatever the ABI encoder
    and the hash are: neither is called. *)
Theorem unreachable_sentinel_bypasses_encoder (c : Context) :
  let sentinel := vy_ast.Name "UNREACHABLE" in
  parse_Raise (Some sentinel) c
  = (Ok (set_error_msg "raise unreachable" (ir "invalid" [])), c) /\
  fst (parse_Raise (Some sentinel) c) <> fst (parse_Raise None c) /\
  (forall test test_expr c',
      parse_value_expr test c = (Ok test_expr, c') ->
      parse_Assert test (Some sentinel) c
      = (Ok (set_error_msg "assert unreachable"
               (ir "assert_unreachable" [test_expr])), c')) /\
  (forall (AE' : AbiEncoder) (HA' : Hash) test_expr,
      _assert_reason (AE := AE') (HA := HA') test_expr sentinel
      = _assert_reason test_expr sentinel).
Proof.
  intros sentinel. split; [reflexivity|]. split; [discriminate|]. split.
  - intros test test_expr c' Htest. unfold parse_Assert. now steps.
  - intros AE' HA' test_expr. now destruct test_expr.
Qed.


(** The selector that [fourbytes_to_int] reads off four bytes fits four
    bytes. *)
Lemma fourbytes_to_int_range (inp : list Z) (n : Z) :
  Forall (fun b => 0 <= b < 256) inp ->
  util.fourbytes_to_int inp = Some n ->
  0 <= n < 2 ^ 32.
Proof.
  intros Hbytes Hn.
  destruct inp as [|b0 [|b1 [|b2 [|b3 rest]]]]; try discriminate.
  injection Hn as <-.
  repeat match goal with
         | Hf : Forall _ (_ :: _) |- _ => apply Forall_cons_1 in Hf; destruct Hf as [? Hf]
         end.
  rewrite !Z.shiftl_mul_pow2 by lia.
  change (2 ^ 24) with 16777216. change (2 ^ 16) with 65536.
  change (2 ^ 8) with 256. change (2 ^ 32) with 4294967296. lia.
Qed.

(** C3: for a message other than the sentinel, [_assert_reason] asks
    for one temporary buffer of [64 + memory_bytes_required] bytes of
    the ABI-wrapped message type, has the message encoded as a single
    return value at [buf + 32] with the remaining [bufsz - 32] bytes as
    budget, stores the selector of [Error(string)] in the word at [buf],
    and reverts with the region that starts at [buf + 28], four bytes
    before the payload, and is [4 + encoded_length] bytes long.  From
    [parse_Raise] the sequence is unconditional; from [parse_Assert] it
    is the body of an [if] on the negated condition.  The selector is
    the first four bytes of the hash of the signature, read big-endian,
    so it is below [2^32]. *)
Theorem revert_reason_layout (test_expr : option IRnode) (msg : vy_ast.expr)
        (c c1 c2 c3 : Context) (m buf len : IRnode) (t : VyperType) (selector : Z) :
  let msg_ir := wrap_value_for_external_return m in
  let bufsz := 64 + memory_bytes_required t in
  let cached := cache_when_complex len "encoded_len" in
  let revert_seq :=
    resolve (fst cached)
      (ir "seq" [ir "mstore" [buf; ir_int selector];
                 ir "revert" [add_ofst buf (32 - 4);
                              ir "add" [ir_int 4; snd cached]]]) in
  is_UNREACHABLE msg = false ->
  lower_reason_msg msg c = (Ok m, c1) ->
  typ msg_ir = Some t ->
  new_internal_variable (get_type_for_exact_size bufsz) c1 = (Ok buf, c2) ->
  util.method_id_int keccak256 "Error(string)" = Some selector ->
  abi_encode (add_ofst buf 32) msg_ir (bufsz - 32) true c2 = (Ok len, c3) ->
  _assert_reason test_expr msg c
  = (Ok (set_error_msg "user revert with reason"
           match test_expr with
           | None => revert_seq
           | Some cond => ir "if" [ir "iszero" [cond]; revert_seq]
           end), c3) /\
  parse_Raise (Some msg) = _assert_reason None msg /\
  (forall test c0 cond,
      parse_value_expr test c0 = (Ok cond, c) ->
      parse_Assert test (Some msg) c0 = _assert_reason (Some cond) msg c) /\
  selector
  = (let digest := keccak256 (util.bytes_of_str "Error(string)") in
     Z.shiftl (nth 0 digest 0) 24 + Z.shiftl (nth 1 digest 0) 16
     + Z.shiftl (nth 2 digest 0) 8 + nth 3 digest 0) /\
  (Forall (fun b => 0 <= b < 256) (keccak256 (util.bytes_of_str "Error(string)")) ->
   0 <= selector < 2 ^ 32).
Proof.
  intros msg_ir bufsz cached revert_seq Hmsg Hlow Htyp Hbuf Hsel Henc.
  split; [|split; [|split; [|split]]].
  - unfold _assert_reason. rewrite Hmsg. steps.
    fold msg_ir. unfold typ_of. rewrite Htyp. steps.
    fold bufsz. steps.
    unfold method_id_int. rewrite Hsel. steps.
    fold cached. destruct cached as [b1 encoded_length]. reflexivity.
  - reflexivity.
  - intros test c0 cond Htest. unfold parse_Assert. now steps.
  - unfold util.method_id_int, util.method_id in Hsel.
    destruct (keccak256 (util.bytes_of_str "Error(string)"))
      as [|b0 [|b1 [|b2 [|b3 rest]]]]; try discriminate.
    now injection Hsel as <-.
  - intros Hbytes. apply (fourbytes_to_int_range (util.method_id keccak256 "Error(string)")); [|exact Hsel]. unfold util.method_id. now apply Forall_take.
Qed.


(** *** Assignment *)

(** The aliasing loop of [parse_AugAssign] raises exactly when one of
    the variables is multi-word and is written by the right-hand side,
    or is a multi-word state variable while the right-hand side may make
    a state-mutating call. *)
Lemma check_aliasing_run (vars_ : list VarInfo) (right : IRnode) (c : Context) :
  check_aliasing vars_ right c
  = if existsb (fun var =>
                  negb (_is_prim_word (var_typ var))
                  && (contains var (variable_writes right)
                      || (is_state_variable var && contains_writeable_call right)))
               vars_
    then (Err (raise_ CodegenPanic "unreachable"), c)
    else (Ok tt, c).
Proof.
  induction vars_ as [|var vars' IH]; [reflexivity|].
  cbn [check_aliasing existsb].
  destruct (_is_prim_word (var_typ var)); cbn [negb andb orb]; [exact IH|].
  destruct (contains var (variable_writes right)
            || (is_state_variable var && contains_writeable_call right));
    [reflexivity|exact IH].
Qed.

(** C1, as the code has it: on a primitive single-word target, once the
    target and the right-hand side are lowered, an augmented assignment
    fails with an internal invariant fault if a multi-word variable
    referenced by the target is written by the right-hand side, or is a
    state variable while the right-hand side may make a state-mutating
    call.  When no multi-word variable referenced by the target meets
    either condition and the binary operation lowers, the statement
    lowers to the store, at the cached target address, of the operation
    applied to the load from that address and the right-hand side.
    Single-word variables referenced by the target are not examined. *)
Theorem augassign_rejects_multiword_aliasing
        (target value : vy_ast.expr) (op : vy_ast.operator)
        (c c1 c2 : Context) (tnode right : IRnode) (target_typ : VyperType) :
  let cached := cache_when_complex tnode "_loc" in
  let left := set_typ (typ (snd cached)) (LOAD (snd cached)) in
  _get_target target c = (Ok tnode, c1) ->
  parse_value_expr value c1 = (Ok right, c2) ->
  typ tnode = Some target_typ ->
  _is_prim_word target_typ = true ->
  ((exists var,
       var ∈ referenced_variables tnode /\
       _is_prim_word (var_typ var) = false /\
       ((var ∈ variable_writes right) \/
        (is_state_variable var = true /\ contains_writeable_call right = true))) ->
   parse_AugAssign target op value c
   = (Err (raise_ CodegenPanic "unreachable"), c2) /\
   is_invariant_fault (raise_ CodegenPanic "unreachable") = true) /\
  (forall new_val c3,
      (forall var,
          var ∈ referenced_variables tnode ->
          _is_prim_word (var_typ var) = false ->
          (var ∉ variable_writes right) /\
          (is_state_variable var = false \/ contains_writeable_call right = false)) ->
      handle_binop op left right c2 = (Ok new_val, c3) ->
      parse_AugAssign target op value c
      = (Ok (resolve (fst cached) (STORE (snd cached) new_val)), c3)).
Proof.
  intros cached left Htarget Hright Htyp Hprim.
  unfold parse_AugAssign. steps. unfold typ_of. rewrite Htyp. steps.
  rewrite Hprim. cbn [negb].
  split.
  - intros (var & Hin & Hmulti & Hbad). split; [|reflexivity].
    assert (Hchk : check_aliasing (referenced_variables tnode) right c2
                   = (Err (raise_ CodegenPanic "unreachable"), c2)).
    { rewrite check_aliasing_run.
      match goal with
      | |- context [existsb ?f ?l] =>
          replace (existsb f l) with true; [reflexivity|]
      end.
      symmetry. apply existsb_exists. exists var.
      split; [now apply list_elem_of_In|].
      rewrite Hmulti. cbn [negb andb]. unfold contains.
      destruct Hbad as [Hw | [Hstate Hcall]].
      - now rewrite bool_decide_true.
      - rewrite Hstate, Hcall. apply orb_true_r. }
    now steps.
  - intros new_val c3 Hclean Hbinop.
    assert (Hchk : check_aliasing (referenced_variables tnode) right c2
                   = (Ok tt, c2)).
    { rewrite check_aliasing_run.
      match goal with
      | |- context [existsb ?f ?l] =>
          replace (existsb f l) with false; [reflexivity|]
      end.
      symmetry. apply not_true_is_false. intros Hex.
      apply existsb_exists in Hex. destruct Hex as (var & Hin & Hbad).
      apply list_elem_of_In in Hin.
      apply andb_true_iff in Hbad. destruct Hbad as [Hmulti Hbad].
      apply negb_true_iff in Hmulti.
      destruct (Hclean var Hin Hmulti) as [Hnw Hnc].
      unfold contains in Hbad. rewrite bool_decide_false in Hbad by exact Hnw.
      cbn [orb] in Hbad. apply andb_true_iff in Hbad.
      destruct Hbad as [Hs Hc]. destruct Hnc; congruence. }
    steps. fold cached. subst left.
    destruct cached as [b target']. cbn [fst snd] in *. now steps.
Qed.


(** C2: once the right-hand side and the target of a plain assignment
    are lowered, a single-word assignment, and any assignment whose two
    sides cannot overlap, is one copy of the value into the target; a
    multi-word assignment whose sides may overlap asks the Context for a
    temporary of the value's type, copies the value into it, and then
    copies the temporary into the target. *)
Theorem assign_stages_only_overlapping_multiword
        (target value : vy_ast.expr) (c c1 c2 : Context) (src dst : IRnode) :
  Expr_ir_node value false c = (Ok src, c1) ->
  _get_target target c1 = (Ok dst, c2) ->
  (prim_word_node dst && prim_word_node src = true ->
   parse_Assign target value c = (Ok (ir "seq" [make_setter dst src]), c2)) /\
  (may_overlap dst src = false ->
   parse_Assign target value c = (Ok (ir "seq" [make_setter dst src]), c2)) /\
  (forall t tmp c3,
      prim_word_node dst && prim_word_node src = false ->
      may_overlap dst src = true ->
      typ src = Some t ->
      new_internal_variable t c2 = (Ok tmp, c3) ->
      parse_Assign target value c
      = (Ok (ir "seq" [make_setter tmp src; make_setter dst tmp]), c3)).
Proof.
  intros Hsrc Hdst. unfold parse_Assign, potential_overlap.
  split; [|split].
  - intros Hprim. steps. now rewrite Hprim.
  - intros Hno. steps. rewrite Hno. now destruct (_ && _).
  - intros t tmp c3 Hmulti Hmay Htyp Htmp. steps.
    rewrite Hmulti, Hmay. unfold typ_of. rewrite Htyp. now steps.
Qed.


(** *** Terminated bodies *)

(** Induction on statements with the induction hypothesis for every
    statement of a nested block. *)
Lemma stmt_nested_ind (P : vy_ast.stmt -> Prop) :
  (forall test body orelse,
      Forall P body -> Forall P orelse -> P (vy_ast.If test body orelse)) ->
  (forall target_id target_type iter body,
      Forall P body -> P (vy_ast.For target_id target_type iter body)) ->
  (forall s,
      match s with
      | vy_ast.If _ _ _ | vy_ast.For _ _ _ _ => False
      | _ => True
      end -> P s) ->
  forall s, P s.
Proof.
  intros HIf HFor Hother. fix IH 1. intros s.
  destruct s as [| | | | |test body orelse| | | |tid tty iter body| | | |];
    try (apply Hother; exact I).
  - apply HIf.
    + induction body as [|x body' IHb]; constructor; [apply IH|exact IHb].
    + induction orelse as [|x orelse' IHo]; constructor; [apply IH|exact IHo].
  - apply HFor.
    induction body as [|x body' IHb]; constructor; [apply IH|exact IHb].
Qed.

Lemma last_terminated_unfold (s : vy_ast.stmt) :
  last_terminated s
  = if is_terminus s then Ok true
    else match s with
         | vy_ast.If _ body orelse =>
             match orelse with
             | [] => Ok false
             | _ :: _ =>
                 match _is_terminated body with
                 | Ok true => _is_terminated orelse
                 | r => r
                 end
             end
         | _ => Ok false
         end.
Proof. destruct s; reflexivity. Qed.

Lemma _is_terminated_last (code : list vy_ast.stmt) (s : vy_ast.stmt) :
  last code = Some s -> _is_terminated code = last_terminated s.
Proof.
  induction code as [|x code' IH]; [discriminate|].
  destruct code' as [|y code'']; [now intros [= <-]|].
  intros Hlast. exact (IH Hlast).
Qed.

Lemma blocks_nonempty_If test body orelse :
  blocks_nonempty (vy_ast.If test body orelse) = true ->
  well_formed body = true /\ forallb blocks_nonempty orelse = true.
Proof.
  cbn [blocks_nonempty]. intros Hb.
  apply andb_true_iff in Hb. destruct Hb as [Hb Ho].
  apply andb_true_iff in Hb. destruct Hb as [Hne Hb].
  unfold well_formed. rewrite Hne. cbn [andb]. split.
  - clear Hne Ho. induction body as [|x l IH]; [reflexivity|].
    cbn [forallb]. apply andb_true_iff in Hb. destruct Hb as [-> Hb].
    now rewrite (IH Hb).
  - clear Hne Hb. induction orelse as [|x l IH]; [reflexivity|].
    cbn [forallb]. apply andb_true_iff in Ho. destruct Ho as [-> Ho].
    now rewrite (IH Ho).
Qed.

Lemma well_formed_last (code : list vy_ast.stmt) :
  well_formed code = true ->
  exists s, last code = Some s /\ In s code /\ blocks_nonempty s = true.
Proof.
  unfold well_formed. intros Hwf.
  apply andb_true_iff in Hwf. destruct Hwf as [Hne Hall].
  destruct (last code) as [s|] eqn:Hlast.
  - exists s. split; [reflexivity|].
    assert (Hin : In s code).
    { apply list_elem_of_In. apply last_Some_elem_of. exact Hlast. }
    split; [exact Hin|].
    rewrite forallb_forall in Hall. now apply Hall.
  - apply last_None in Hlast. subst code. discriminate.
Qed.

(** The verdict of [last_terminated], in the specification's words. *)
Lemma last_terminated_sound (s : vy_ast.stmt) :
  blocks_nonempty s = true ->
  exists b,
    last_terminated s = Ok b /\
    (b = true <->
     (is_terminus s = true \/
      exists test body orelse,
        s = vy_ast.If test body orelse /\ orelse <> [] /\
        Terminated body /\ Terminated orelse)).
Proof.
  induction s as [test body orelse IHb IHo|tid tty iter body IHb|s Hs]
    using stmt_nested_ind; intros Hwf; rewrite last_terminated_unfold.
  - destruct (is_terminus _) eqn:Hterm.
    { exists true. split; [reflexivity|]. split; [now left|reflexivity]. }
    assert (Hcode : forall code,
               Forall (fun s =>
                         blocks_nonempty s = true ->
                         exists b,
                           last_terminated s = Ok b /\
                           (b = true <->
                            (is_terminus s = true \/
                             exists test body orelse,
                               s = vy_ast.If test body orelse /\ orelse <> [] /\
                               Terminated body /\ Terminated orelse))) code ->
               well_formed code = true ->
               exists b, _is_terminated code = Ok b /\ (b = true <-> Terminated code)).
    { intros code Hall Hcwf.
      destruct (well_formed_last code Hcwf) as (l & Hlast & Hin & Hl).
      rewrite Forall_forall in Hall.
      destruct (Hall l (proj2 (list_elem_of_In _ _) Hin) Hl) as (b & Hb & Hiff).
      exists b. split; [now rewrite (_is_terminated_last code l Hlast)|].
      rewrite Hiff. split.
      - intros [Ht | (t' & b' & o' & -> & Hne & Hb' & Ho')].
        + now apply (Terminated_terminus code l).
        + now apply (Terminated_if code t' b' o').
      - intros HT. inversion HT as [code0 l0 Hl0 Ht0|code0 t0 b0 o0 Hl0 Hne0 Hb0 Ho0].
        + left. congruence.
        + right. exists t0, b0, o0. repeat split; try assumption. congruence. }
    destruct (blocks_nonempty_If _ _ _ Hwf) as [Hbwf Howf].
    destruct orelse as [|o1 orelse'].
    { exists false. split; [reflexivity|]. split; [discriminate|].
      intros [Ht | (t' & b' & o' & Heq & Hne & _)]; [congruence|].
      injection Heq as _ _ <-. now destruct Hne. }
    destruct (Hcode body IHb Hbwf) as (bb & Hbb & Hbiff).
    assert (Howf' : well_formed (o1 :: orelse') = true).
    { unfold well_formed. now rewrite Howf. }
    destruct (Hcode (o1 :: orelse') IHo Howf') as (bo & Hbo & Hoiff).
    rewrite Hbb. destruct bb.
    + exists bo. split; [exact Hbo|]. rewrite Hoiff. split.
      * intros HTo. right. exists test, body, (o1 :: orelse').
        repeat split; [discriminate| now apply Hbiff | exact HTo].
      * intros [Ht | (t' & b' & o' & Heq & _ & _ & HTo)]; [congruence|].
        now injection Heq as _ _ <-.
    + exists false. split; [reflexivity|]. split; [discriminate|].
      intros [Ht | (t' & b' & o' & Heq & _ & HTb & _)]; [congruence|].
      injection Heq as _ <- _. apply Hbiff in HTb. discriminate.
  - destruct (is_terminus _) eqn:Hterm.
    + exists true. split; [reflexivity|]. split; [now left|reflexivity].
    + exists false. split; [reflexivity|]. split; [discriminate|].
      intros [Ht | (t' & b' & o' & Heq & _)]; [congruence|discriminate].
  - destruct (is_terminus _) eqn:Hterm.
    + exists true. split; [reflexivity|]. split; [now left|reflexivity].
    + exists false. split; [now destruct s|]. split; [discriminate|].
      intros [Ht | (t' & b' & o' & -> & _)]; [congruence|]. destruct Hs.
Qed.


(** C7: on a well-formed sequence [_is_terminated] returns, and it says
    [True] exactly when the sequence is terminated in the
    specification's sense: the final statement is a terminus, or it is
    an [if] with both branches present and both terminated.
    [parse_body] appends nothing but the trailing no-op when it is not
    asked to ensure termination; when it is asked, it appends the
    lowering of one bare [return] after the lowered statements if no
    return type is recorded in the Context and the sequence is not
    terminated, and appends nothing otherwise. *)
Theorem body_termination (code : list vy_ast.stmt) :
  well_formed code = true ->
  (exists verdict,
      _is_terminated code = Ok verdict /\ (verdict = true <-> Terminated code)) /\
  (forall c,
      parse_body code false c
      = (irs <- lower_stmts code ;; ret (body_seq irs)) c) /\
  (forall c irs c',
      lower_stmts code c = (Ok irs, c') ->
      (return_type c' = None /\ ~ Terminated code ->
       parse_body code true c
       = (r <- parse_stmt (vy_ast.Return None) ;;
          ret (ir "seq" (irs ++ [r] ++ [ir_str "pass"]))) c') /\
      (return_type c' <> None \/ Terminated code ->
       parse_body code true c = (Ok (ir "seq" (irs ++ [ir_str "pass"])), c'))).
Proof.
  intros Hwf.
  assert (Hverdict : exists verdict,
             _is_terminated code = Ok verdict /\
             (verdict = true <-> Terminated code)).
  { destruct (well_formed_last code Hwf) as (l & Hlast & _ & Hl).
    destruct (last_terminated_sound l Hl) as (b & Hb & Hiff).
    exists b. split; [now rewrite (_is_terminated_last code l Hlast)|].
    rewrite Hiff. split.
    - intros [Ht | (t' & b' & o' & -> & Hne & Hb' & Ho')].
      + now apply (Terminated_terminus code l).
      + now apply (Terminated_if code t' b' o').
    - intros HT. inversion HT as [code0 l0 Hl0 Ht0|code0 t0 b0 o0 Hl0 Hne0 Hb0 Ho0].
      + left. congruence.
      + right. exists t0, b0, o0. repeat split; try assumption. congruence. }
  split; [exact Hverdict|]. split.
  - intros c. unfold parse_body, bind. cbn [andb].
    destruct (lower_stmts code c) as [[irs|e] c']; reflexivity.
  - intros c irs c' Hirs.
    destruct Hverdict as (verdict & Hv & Hiff).
    unfold parse_body. steps. cbn [andb]. split.
    + intros [Hret Hnot]. rewrite bool_decide_true by exact Hret.
      unfold lift. unfold bind at 2. rewrite Hv.
      destruct verdict; [now destruct Hnot; apply Hiff|]. cbn [negb].
      unfold bind. destruct (parse_stmt _ c') as [[r|e] c'']; [|reflexivity].
      unfold ret, body_seq. now rewrite <- app_assoc.
    + intros Hcase. destruct (bool_decide (return_type c' = None)) eqn:Hret.
      * apply bool_decide_eq_true in Hret.
        destruct Hcase as [Hsome|HT]; [now destruct Hsome|].
        unfold lift. unfold bind at 2. rewrite Hv.
        apply Hiff in HT. subst verdict. reflexivity.
      * reflexivity.
Qed.


(** *** Loops *)

Lemma forvars_del_Ok (varname : string) (c : Context) :
  is_Some (forvars c !! varname) ->
  forvars_del varname c = (Ok tt, set_forvars (delete varname (forvars c)) c).
Proof. intros [v Hv]. unfold forvars_del. now rewrite Hv. Qed.

Lemma cache_when_complex_typ (n : IRnode) (name : string) :
  typ (snd (cache_when_complex n name)) = typ n.
Proof. unfold cache_when_complex. now destruct (is_complex_ir n). Qed.

(** C6: a sequence loop lowers to a [repeat] whose declared bound is the
    static capacity of the array type, and whose round count is the
    read of the stored length of the iterated list when the type is a
    dynamic array, and the static capacity otherwise.  [L] is the
    location that is iterated: the lowered iterable itself when it is a
    pointer, or else the temporary of the iterable's type it is first
    copied into. *)
Theorem for_list_rounds_and_bound
        (varname : string) (target_type : VyperType) (iter : vy_ast.expr)
        (body : M IRnode) (c c1 c2 c3 c4 c5 : Context)
        (iter_list loop_var L b : IRnode) (t : VyperType) (capacity : N)
        (i_name : string) (staging : list IRnode) :
  let i := set_typ (Some UINT256_T) (ir_str i_name) in
  let entered := set_forvars (<[varname := true]> (forvars c3)) c3 in
  let cached := cache_when_complex L "list_iter" in
  let array_len :=
    if is_DArrayT t then get_dyn_array_count (snd cached)
    else ir_int (Z.of_N capacity) in
  let body_ir :=
    ir "seq" [make_setter loop_var (get_element_ptr (snd cached) i false); b] in
  with_ range_scope (Expr_ir_node iter false) c = (Ok iter_list, c1) ->
  typ iter_list = Some t ->
  t = SArrayT target_type capacity \/ t = DArrayT target_type capacity ->
  new_variable varname target_type c1 = (Ok loop_var, c2) ->
  fresh_varname "for_list_ix" c2 = (Ok i_name, c3) ->
  (is_pointer iter_list = true /\ L = iter_list /\ staging = [] /\ c4 = entered) \/
  (is_pointer iter_list = false /\
   new_internal_variable t entered = (Ok L, c4) /\ typ L = Some t /\
   staging = [make_setter L iter_list]) ->
  body c4 = (Ok b, c5) ->
  is_Some (forvars c5 !! varname) ->
  _parse_For_list varname target_type iter body c
  = (Ok (resolve (fst cached)
           (ir "seq"
              (staging ++
               [ir "repeat" [i; ir_int 0; array_len;
                             ir_int (Z.of_N capacity); body_ir]]))),
     set_forvars (delete varname (forvars c5)) c5).
Proof.
  intros i entered cached array_len body_ir
         Hiter Htyp Harr Hvar Hfresh Hstage Hbody Hfor.
  assert (HtypL : typ (snd cached) = Some t).
  { unfold cached. rewrite cache_when_complex_typ.
    destruct Hstage as [(_ & -> & _) | (_ & _ & HL & _)]; assumption. }
  assert (Hvt : value_type t = ret target_type) by (destruct Harr; now subst t).
  assert (Hcount : count t = ret (Z.of_N capacity)) by (destruct Harr; now subst t).
  unfold _parse_For_list. steps.
  unfold typ_of at 1. rewrite Htyp. steps. rewrite Hvt. steps.
  rewrite bool_decide_true by reflexivity. unfold assert_. steps.
  unfold forvars_add. steps. fold entered.
  destruct Hstage as [(Hptr & -> & -> & ->) | (Hptr & Htmp & _ & ->)];
    rewrite Hptr; cbn [negb]; steps; fold cached;
    destruct cached as [b1 iter_list']; cbn [fst snd] in *; steps;
    unfold typ_of; rewrite HtypL; steps; rewrite Hcount; steps;
    rewrite (bind_Ok _ _ _ _ _ (forvars_del_Ok varname c5 Hfor)); reflexivity.
Qed.


(** [_parse_For_range] once the round count and the declared bound are
    known: the bound is checked, the index and the loop variable are
    declared, the body is lowered with the loop variable registered,
    and the [repeat] is built. *)
Lemma parse_For_range_run
      (varname : string) (target_type : VyperType)
      (range_args : list vy_ast.expr) (keywords : list (string * vy_ast.expr))
      (body : M IRnode) (c c1 c2 c3 c4 : Context)
      (start end_ rounds iptr b : IRnode) (kwargs : gmap string IRnode)
      (rounds_bound : Z) (i_name : string) :
  let cached := cache_when_complex start "start" in
  let i := set_typ (Some target_type) (ir_str i_name) in
  range_endpoints target_type range_args keywords c = (Ok (start, end_, kwargs), c1) ->
  typ start = Some target_type ->
  typ end_ = Some target_type ->
  range_rounds target_type (snd cached) end_ kwargs c1
  = (Ok (rounds, rounds_bound, ∅), c1) ->
  (rounds_bound < 1 ->
   _parse_For_range varname target_type range_args keywords body c
   = (Err (raise_ TypeCheckFailure "unreachable: unchecked 0 bound"), c1)) /\
  (1 <= rounds_bound ->
   fresh_varname "range_ix" c1 = (Ok i_name, c2) ->
   new_variable varname target_type c2 = (Ok iptr, c3) ->
   body (set_forvars (<[varname := true]> (forvars c3)) c3) = (Ok b, c4) ->
   is_Some (forvars c4 !! varname) ->
   _parse_For_range varname target_type range_args keywords body c
   = (Ok (resolve (fst cached)
            (set_error_msg "range() bounds check"
               (ir "repeat" [i; snd cached; rounds; ir_int rounds_bound;
                             ir "seq" [ir "mstore" [iptr; i]; b]]))),
      set_forvars (delete varname (forvars c4)) c4)).
Proof.
  intros cached i Hends Hts Hte Hrounds.
  assert (Hprefix :
             _parse_For_range varname target_type range_args keywords body c
             = (let '(rounds, rounds_bound, kwargs) := (rounds, rounds_bound, ∅) in
                assert_ (bool_decide (kwargs = (∅ : gmap string IRnode))) "len(kwargs) == 0" ;;;
                if rounds_bound <? 1 then
                  throw (raise_ TypeCheckFailure "unreachable: unchecked 0 bound")
                else
                  i_name <- fresh_varname "range_ix" ;;
                  let i := set_typ (Some target_type) (ir_str i_name) in
                  iptr <- new_variable varname target_type ;;
                  forvars_add varname ;;;
                  b <- body ;;
                  let loop_body := ir "seq" [ir "mstore" [iptr; i]; b] in
                  forvars_del varname ;;;
                  let loop := ir "repeat" [i; snd cached; rounds; ir_int rounds_bound; loop_body] in
                  ret (resolve (fst cached) (set_error_msg "range() bounds check" loop))) c1).
  { unfold _parse_For_range. steps.
    rewrite Hts, Hte. rewrite bool_decide_true by reflexivity.
    cbn [andb]. unfold assert_ at 1. steps.
    fold cached. destruct cached as [b1 start']. cbn [fst snd] in *.
    now steps. }
  rewrite Hprefix. clear Hprefix.
  rewrite bool_decide_true by reflexivity. unfold assert_. steps.
  split.
  - intros Hlt. apply Z.ltb_lt in Hlt. now rewrite Hlt.
  - intros Hge Hfresh Hvar Hbody Hfor.
    apply Z.ltb_ge in Hge. rewrite Hge. steps.
    unfold forvars_add. steps.
    now rewrite (bind_Ok _ _ _ _ _ (forvars_del_Ok varname c4 Hfor)).
Qed.


(** The clamp yields the start when it does not exceed the end, in the
    order of the loop variable's type, and reverts otherwise. *)
Lemma eval_clamp_le (env : list (string * Z)) (start end_ : IRnode)
      (signed : bool) (s e : Z) :
  eval env start = Some s ->
  eval env end_ = Some e ->
  eval env (clamp_le start end_ signed)
  = if as_integer signed s <=? as_integer signed e then Some s else None.
Proof.
  intros Hs He. unfold clamp_le, set_typ, ir, as_integer.
  destruct signed; cbn; rewrite Hs, He; cbn;
    match goal with
    | |- context [?a <=? ?b] => destruct (a <=? b)
    end; cbn; now rewrite ?Hs.
Qed.

(** The round count [end - clamped_start], evaluated on words: the
    difference of the two integers when the start does not exceed the
    end, which is then not negative, and a revert otherwise. *)
Lemma eval_rounds (env : list (string * Z)) (start end_ : IRnode)
      (signed : bool) (s e : Z) :
  0 <= s < WORD -> 0 <= e < WORD ->
  eval env start = Some s ->
  eval env end_ = Some e ->
  (as_integer signed s <= as_integer signed e ->
   eval env (ir "sub" [end_; clamp_le start end_ signed])
   = Some (as_integer signed e - as_integer signed s) /\
   0 <= as_integer signed e - as_integer signed s) /\
  (as_integer signed e < as_integer signed s ->
   eval env (ir "sub" [end_; clamp_le start end_ signed]) = None).
Proof.
  intros Hsr Her Hs He.
  assert (Hsub : eval env (ir "sub" [end_; clamp_le start end_ signed])
                 = match eval env (clamp_le start end_ signed) with
                   | Some vb => Some ((e - vb) mod WORD)
                   | None => None
                   end).
  { unfold ir at 1. cbn [eval]. cbn [String.eqb Ascii.eqb Bool.eqb].
    rewrite He. now destruct (eval env (clamp_le start end_ signed)). }
  rewrite Hsub, (eval_clamp_le env start end_ signed s e Hs He).
  split.
  - intros Hle. apply Z.leb_le in Hle. rewrite Hle. split.
    + f_equal. apply Z.leb_le in Hle. revert Hle.
      unfold as_integer, to_signed, WORD in *.
      destruct signed; [|intros Hle; apply Z.mod_small; lia].
      destruct (s <? 2 ^ 255) eqn:Hs255, (e <? 2 ^ 255) eqn:He255;
        rewrite ?Z.ltb_lt, ?Z.ltb_ge in *; intros Hle; symmetry.
      * apply (Z.mod_unique_pos _ _ 0); lia.
      * lia.
      * apply (Z.mod_unique_pos _ _ (-1)); lia.
      * apply (Z.mod_unique_pos _ _ 0); lia.
    + apply Z.leb_le in Hle. lia.
  - intros Hlt. apply Z.leb_gt in Hlt. now rewrite Hlt.
Qed.


(** C4: a range loop with the keyword [bound] lowers to a [repeat] on
    the start, whose round count is [end - clamp_le(start, end)] with
    the signed comparison for a signed loop variable, and whose declared
    bound is the integer of the [bound] literal; a bound below 1 is
    rejected.  Evaluated on words, the clamp yields the start when the
    start does not exceed the end and reverts otherwise, so wherever the
    round count has a value the start does not exceed the end, and that
    value is the integer [end - start], which is not negative. *)
Theorem bounded_range_loop
        (varname : string) (target_type : VyperType)
        (range_args : list vy_ast.expr) (keywords : list (string * vy_ast.expr))
        (body : M IRnode) (c c1 c2 c3 c4 : Context)
        (start end_ bound iptr b : IRnode) (kwargs : gmap string IRnode)
        (bound_value : Z) (i_name : string) (signed : bool) (bits : N) :
  let cached_start := cache_when_complex start "start" in
  let cached_end := cache_when_complex end_ "end" in
  let i := set_typ (Some target_type) (ir_str i_name) in
  let clamped_start := clamp_le (snd cached_start) (snd cached_end) signed in
  let difference := ir "sub" [snd cached_end; clamped_start] in
  let rounds := resolve (fst cached_end) difference in
  target_type = IntegerT signed bits ->
  range_endpoints target_type range_args keywords c = (Ok (start, end_, kwargs), c1) ->
  typ start = Some target_type ->
  typ end_ = Some target_type ->
  kwargs !! "bound" = Some bound ->
  delete "bound" kwargs = (∅ : gmap string IRnode) ->
  value bound = VInt bound_value ->
  (bound_value < 1 ->
   _parse_For_range varname target_type range_args keywords body c
   = (Err (raise_ TypeCheckFailure "unreachable: unchecked 0 bound"), c1)) /\
  (1 <= bound_value ->
   fresh_varname "range_ix" c1 = (Ok i_name, c2) ->
   new_variable varname target_type c2 = (Ok iptr, c3) ->
   body (set_forvars (<[varname := true]> (forvars c3)) c3) = (Ok b, c4) ->
   is_Some (forvars c4 !! varname) ->
   _parse_For_range varname target_type range_args keywords body c
   = (Ok (resolve (fst cached_start)
            (set_error_msg "range() bounds check"
               (ir "repeat" [i; snd cached_start; rounds; ir_int bound_value;
                             ir "seq" [ir "mstore" [iptr; i]; b]]))),
      set_forvars (delete varname (forvars c4)) c4)) /\
  (forall env s e,
      0 <= s < WORD -> 0 <= e < WORD ->
      eval env (snd cached_start) = Some s ->
      eval env (snd cached_end) = Some e ->
      eval env clamped_start
      = (if as_integer signed s <=? as_integer signed e then Some s else None) /\
      (as_integer signed s <= as_integer signed e ->
       eval env difference = Some (as_integer signed e - as_integer signed s) /\
       0 <= as_integer signed e - as_integer signed s) /\
      (as_integer signed e < as_integer signed s -> eval env difference = None)).
Proof.
  intros cached_start cached_end i clamped_start difference rounds
         Htt Hends Hts Hte Hbound Hrest Hvalue.
  assert (Hrounds : range_rounds target_type (snd cached_start) end_ kwargs c1
                    = (Ok (rounds, bound_value, ∅), c1)).
  { unfold range_rounds. rewrite Hbound. fold cached_end.
    subst rounds difference clamped_start.
    destruct cached_end as [b2 end']. cbn [fst snd].
    subst target_type. cbn [is_signed]. steps.
    unfold int_value, lift. rewrite Hvalue. steps. now rewrite Hrest. }
  destruct (parse_For_range_run varname target_type range_args keywords body
              c c1 c2 c3 c4 start end_ rounds iptr b kwargs bound_value i_name
              Hends Hts Hte Hrounds) as [Hfault Hrun].
  split; [exact Hfault|]. split; [exact Hrun|].
  intros env s e Hs He Hes Hee. split.
  - now apply eval_clamp_le.
  - now apply eval_rounds.
Qed.


(** C5: a range loop without the keyword [bound] lowers only when both
    endpoints are integer literals, and then the round count and the
    declared bound of its [repeat] are both the literal [end - start],
    computed during lowering; when that difference is below 1 the
    lowering raises the internal fault instead. *)
Theorem constant_range_loop
        (varname : string) (target_type : VyperType)
        (range_args : list vy_ast.expr) (keywords : list (string * vy_ast.expr))
        (body : M IRnode) (c c1 : Context)
        (start end_ : IRnode) (kwargs : gmap string IRnode) :
  range_endpoints target_type range_args keywords c = (Ok (start, end_, kwargs), c1) ->
  typ start = Some target_type ->
  typ end_ = Some target_type ->
  kwargs !! "bound" = None ->
  (forall node c',
      _parse_For_range varname target_type range_args keywords body c = (Ok node, c') ->
      exists s e,
        value (snd (cache_when_complex start "start")) = VInt s /\
        value end_ = VInt e /\ 1 <= e - s) /\
  (forall s e,
      value start = VInt s ->
      is_complex_ir start = false ->
      value end_ = VInt e ->
      kwargs = ∅ ->
      (e - s < 1 ->
       _parse_For_range varname target_type range_args keywords body c
       = (Err (raise_ TypeCheckFailure "unreachable: unchecked 0 bound"), c1) /\
       is_invariant_fault (raise_ TypeCheckFailure "unreachable: unchecked 0 bound")
       = true) /\
      (forall c2 c3 c4 i_name iptr b,
          1 <= e - s ->
          fresh_varname "range_ix" c1 = (Ok i_name, c2) ->
          new_variable varname target_type c2 = (Ok iptr, c3) ->
          body (set_forvars (<[varname := true]> (forvars c3)) c3) = (Ok b, c4) ->
          is_Some (forvars c4 !! varname) ->
          let i := set_typ (Some target_type) (ir_str i_name) in
          _parse_For_range varname target_type range_args keywords body c
          = (Ok (set_error_msg "range() bounds check"
                   (ir "repeat" [i; start; ir_int (e - s); ir_int (e - s);
                                 ir "seq" [ir "mstore" [iptr; i]; b]])),
             set_forvars (delete varname (forvars c4)) c4))).
Proof.
  intros Hends Hts Hte Hnobound. split.
  - intros node c' Hrun. revert Hrun.
    unfold _parse_For_range. steps.
    rewrite Hts, Hte. rewrite bool_decide_true by reflexivity.
    cbn [andb]. unfold assert_ at 1. steps.
    destruct (cache_when_complex start "start") as [b1 start'].
    cbn [snd]. unfold range_rounds. rewrite Hnobound.
    unfold int_value.
    destruct (value end_) as [?|e]; [discriminate|].
    destruct (value start') as [?|s]; [discriminate|].
    cbv [bind lift ret throw assert_].
    destruct (bool_decide (kwargs = ∅)); [|discriminate].
    destruct (e - s <? 1) eqn:Hlt; [discriminate|].
    apply Z.ltb_ge in Hlt. intros _. now exists s, e.
  - intros s e Hs Hsimple He ->.
    assert (Hcache : cache_when_complex start "start"
                     = ({| wb_node := start; wb_name := "start"; wb_inline := true |},
                        start)).
    { unfold cache_when_complex. now rewrite Hsimple. }
    assert (Hrounds : range_rounds target_type
                        (snd (cache_when_complex start "start")) end_ ∅ c1
                      = (Ok (ir_int (e - s), e - s, ∅), c1)).
    { rewrite Hcache. cbn [snd]. unfold range_rounds.
      rewrite Hnobound. unfold lift, int_value. rewrite He, Hs. now steps. }
    split.
    + intros Hlt. split; [|reflexivity].
      exact (proj1 (parse_For_range_run varname target_type range_args keywords
                      body c c1 c1 c1 c1 start end_ (ir_int (e - s)) start start ∅
                      (e - s) "" Hends Hts Hte Hrounds) Hlt).
    + intros c2 c3 c4 i_name iptr b Hge Hfresh Hvar Hbody Hfor i.
      pose proof (proj2 (parse_For_range_run varname target_type range_args keywords
                           body c c1 c2 c3 c4 start end_ (ir_int (e - s)) iptr b ∅
                           (e - s) i_name Hends Hts Hte Hrounds)
                    Hge Hfresh Hvar Hbody Hfor) as Hrun.
      rewrite Hcache in Hrun. exact Hrun.
Qed.


End Properties.

(* ===================================================================== *)
(** ** The theorems at work on the toy contract *)
(* ===================================================================== *)

Section Witnesses.
Local Existing Instances Demo.upstream Demo.exprs Demo.analysis Demo.core
      Demo.context_ops Demo.abi Demo.emitters Demo.digest.

(** Assigning to the loop variable [i] inside its loop. *)
Lemma loop_variable_is_not_a_target_witness :
  let fault := raise_ TypeCheckFailure "Failed constancy check" in
  _get_target (vy_ast.Name "i") Demo.loop_ctx = (Err fault, Demo.loop_ctx) /\
  parse_AugAssign (vy_ast.Name "i") vy_ast.Add (vy_ast.Int 1) Demo.loop_ctx
  = (Err fault, Demo.loop_ctx) /\
  parse_Assign (vy_ast.Name "i") (vy_ast.Int 7) Demo.loop_ctx
  = (Err fault, Demo.loop_ctx).
Proof.
  assert (Hin : is_Some (forvars Demo.loop_ctx !! "i")).
  { exists true. vm_compute. reflexivity. }
  pose proof (loop_variable_is_not_a_target "i" Demo.loop_ctx Hin) as W.
  split; [exact (proj1 (proj2 W))|].
  split; [exact (proj1 (proj2 (proj2 W)) _ _)|].
  apply (proj2 (proj2 (proj2 W)) (vy_ast.Int 7) Demo.loop_ctx
           (set_typ (Some UINT256_T) (ir_int 7))).
  reflexivity.
Defined.

(** [raise "no"] in a function that started in constant mode or not:
    the flag comes back. *)
Lemma reason_lowering_restores_constancy_witness :
  constancy (snd (lower_reason_msg (vy_ast.Str "no") Demo.ctx0)) = Mutable /\
  _assert_reason None (vy_ast.Name "undeclared") Demo.ctx0
  = (Err (raise_ CompilerPanic "unsupported"), Demo.ctx0).
Proof.
  split.
  - exact (proj1 (proj2 (proj2
             (reason_lowering_restores_constancy (vy_ast.Str "no") Demo.ctx0)))).
  - etransitivity.
    + apply (proj2 (proj2 (proj2
               (reason_lowering_restores_constancy (vy_ast.Name "undeclared") Demo.ctx0)))
               None (raise_ CompilerPanic "unsupported")); reflexivity.
    + vm_compute. reflexivity.
Defined.

(** [assert self.x, UNREACHABLE]. *)
Lemma unreachable_sentinel_bypasses_encoder_witness :
  parse_Assert Demo.self_x (Some (vy_ast.Name "UNREACHABLE")) Demo.ctx0
  = (Ok (set_error_msg "assert unreachable"
           (ir "assert_unreachable"
              [set_typ (Some UINT256_T) (ir "sload" [Demo.x_node])])),
     Demo.ctx0).
Proof.
  apply (proj1 (proj2 (proj2 (unreachable_sentinel_bypasses_encoder Demo.ctx0)))).
  reflexivity.
Defined.

(** [self.a[0] += self.bump()] is rejected: [self.a] is multi-word and
    [bump] writes it.  [self.a[0] += self.peek()] is lowered. *)
Lemma augassign_rejects_multiword_aliasing_witness :
  let target := vy_ast.Subscript Demo.self_a (vy_ast.Int 0) in
  let element :=
    mkIRnode (VStr "element") [Demo.a_node; set_typ (Some UINT256_T) (ir_int 0)]
             (Some UINT256_T) (Some STORAGE) None None None in
  let loc := Demo.var_node "_loc" UINT256_T STORAGE in
  parse_AugAssign target vy_ast.Add (Demo.self_call "bump") Demo.ctx0
  = (Err (raise_ CodegenPanic "unreachable"), Demo.ctx0) /\
  parse_AugAssign target vy_ast.Add (Demo.self_call "peek") Demo.ctx0
  = (Ok (ir "with"
           [ir_str "_loc"; element;
            ir "sstore"
               [loc;
                set_typ (Some UINT256_T)
                  (ir "add" [set_typ (Some UINT256_T) (ir "sload" [loc]);
                             Demo.call_node "peek"])]]),
     Demo.ctx0).
Proof.
  intros target element loc.
  assert (Htarget : _get_target target Demo.ctx0 = (Ok element, Demo.ctx0))
    by (vm_compute; reflexivity).
  assert (Hbump : parse_value_expr (Demo.self_call "bump") Demo.ctx0
                  = (Ok (Demo.call_node "bump"), Demo.ctx0))
    by (vm_compute; reflexivity).
  assert (Hpeek : parse_value_expr (Demo.self_call "peek") Demo.ctx0
                  = (Ok (Demo.call_node "peek"), Demo.ctx0))
    by (vm_compute; reflexivity).
  split.
  - eapply proj1.
    eapply (proj1 (augassign_rejects_multiword_aliasing
                     target (Demo.self_call "bump") vy_ast.Add
                     Demo.ctx0 Demo.ctx0 Demo.ctx0 element (Demo.call_node "bump")
                     UINT256_T Htarget Hbump eq_refl eq_refl)).
    exists Demo.a_info. split; [|split].
    + apply list_elem_of_In. vm_compute. tauto.
    + reflexivity.
    + left. apply list_elem_of_In. vm_compute. tauto.
  - etransitivity.
    + eapply (proj2 (augassign_rejects_multiword_aliasing
                       target (Demo.self_call "peek") vy_ast.Add
                       Demo.ctx0 Demo.ctx0 Demo.ctx0 element (Demo.call_node "peek")
                       UINT256_T Htarget Hpeek eq_refl eq_refl)).
      * intros var Hin _. split.
        -- intros Hw. apply list_elem_of_In in Hw. vm_compute in Hw. exact Hw.
        -- right. reflexivity.
      * reflexivity.
    + vm_compute. reflexivity.
Defined.

(** C1, as the claim states it, fails on [self.x += self.bump()]: the
    target references the state variable [self.x], [bump] writes it and
    is a state-mutating call, and yet the statement is lowered, because
    [self.x] is a single word. *)
Lemma augassign_word_state_variable_is_lowered :
  _get_target Demo.self_x Demo.ctx0 = (Ok Demo.x_node, Demo.ctx0) /\
  parse_value_expr (Demo.self_call "bump") Demo.ctx0
  = (Ok (Demo.call_node "bump"), Demo.ctx0) /\
  typ Demo.x_node = Some UINT256_T /\
  Demo.x_info ∈ referenced_variables Demo.x_node /\
  is_state_variable Demo.x_info = true /\
  Demo.x_info ∈ variable_writes (Demo.call_node "bump") /\
  contains_writeable_call (Demo.call_node "bump") = true /\
  parse_AugAssign Demo.self_x vy_ast.Add (Demo.self_call "bump") Demo.ctx0
  = (Ok (ir "sstore"
           [Demo.x_node;
            set_typ (Some UINT256_T)
              (ir "add" [set_typ (Some UINT256_T) (ir "sload" [Demo.x_node]);
                         Demo.call_node "bump"])]),
     Demo.ctx0) /\
  (forall e c',
      parse_AugAssign Demo.self_x vy_ast.Add (Demo.self_call "bump") Demo.ctx0
      <> (Err e, c')).
Proof.
  assert (Hrun : parse_AugAssign Demo.self_x vy_ast.Add (Demo.self_call "bump") Demo.ctx0
                 = (Ok (ir "sstore"
                          [Demo.x_node;
                           set_typ (Some UINT256_T)
                             (ir "add" [set_typ (Some UINT256_T) (ir "sload" [Demo.x_node]);
                                        Demo.call_node "bump"])]),
                    Demo.ctx0)) by (vm_compute; reflexivity).
  split; [vm_compute; reflexivity|].
  split; [vm_compute; reflexivity|].
  split; [reflexivity|].
  split; [apply list_elem_of_In; vm_compute; tauto|].
  split; [reflexivity|].
  split; [apply list_elem_of_In; vm_compute; tauto|].
  split; [reflexivity|].
  split; [exact Hrun|].
  intros e c'. rewrite Hrun. discriminate.
Qed.

(** [self.a = self.a] is staged through a temporary; [self.x = 5] is
    copied directly. *)
Lemma assign_stages_only_overlapping_multiword_witness :
  let tmp := Demo.var_node "#internal_0" Demo.a_T MEMORY in
  parse_Assign Demo.self_a Demo.self_a Demo.ctx0
  = (Ok (ir "seq" [ir "copy" [tmp; Demo.a_node]; ir "copy" [Demo.a_node; tmp]]),
     Demo.bump_iter (Demo.allocate "#internal_0" Demo.a_T Demo.ctx0)) /\
  parse_Assign Demo.self_x (vy_ast.Int 5) Demo.ctx0
  = (Ok (ir "seq" [ir "copy" [Demo.x_node; set_typ (Some UINT256_T) (ir_int 5)]]),
     Demo.ctx0).
Proof.
  intros tmp.
  assert (Ha : Expr_ir_node Demo.self_a false Demo.ctx0 = (Ok Demo.a_node, Demo.ctx0))
    by reflexivity.
  assert (Hta : _get_target Demo.self_a Demo.ctx0 = (Ok Demo.a_node, Demo.ctx0))
    by (vm_compute; reflexivity).
  assert (Hfive : Expr_ir_node (vy_ast.Int 5) false Demo.ctx0
                  = (Ok (set_typ (Some UINT256_T) (ir_int 5)), Demo.ctx0))
    by reflexivity.
  assert (Htx : _get_target Demo.self_x Demo.ctx0 = (Ok Demo.x_node, Demo.ctx0))
    by (vm_compute; reflexivity).
  split.
  - apply (proj2 (proj2 (assign_stages_only_overlapping_multiword
                           Demo.self_a Demo.self_a Demo.ctx0 Demo.ctx0 Demo.ctx0
                           Demo.a_node Demo.a_node Ha Hta))
             Demo.a_T tmp
             (Demo.bump_iter (Demo.allocate "#internal_0" Demo.a_T Demo.ctx0)));
      vm_compute; reflexivity.
  - apply (proj1 (assign_stages_only_overlapping_multiword
                    Demo.self_x (vy_ast.Int 5) Demo.ctx0 Demo.ctx0 Demo.ctx0
                    (set_typ (Some UINT256_T) (ir_int 5)) Demo.x_node Hfive Htx)).
    reflexivity.
Defined.

(** [raise "no"]: a buffer of 128 bytes, the payload at [buf + 32] with
    a budget of 96 bytes, the selector 0x08c379a0 in the word at [buf],
    and the revert from [buf + 28]. *)
Lemma revert_reason_layout_witness :
  let msg_ir :=
    set_typ (Some (TupleT [StringT 2]))
      (ir "multi" [mkIRnode (VStr "string_literal") [ir_str "no"]
                            (Some (StringT 2)) None None None None]) in
  let buf := Demo.var_node "#internal_0" (BytesT 96) MEMORY in
  let len := ir "abi_encode" [ir "add" [buf; ir_int 32]; msg_ir; ir_int 96] in
  parse_Raise (Some (vy_ast.Str "no")) Demo.ctx0
  = (Ok (set_error_msg "user revert with reason"
           (ir "with"
              [ir_str "encoded_len"; len;
               ir "seq" [ir "mstore" [buf; ir_int 147028384];
                         ir "revert" [ir "add" [buf; ir_int 28];
                                      ir "add" [ir_int 4; ir_str "encoded_len"]]]])),
     Demo.bump_iter (Demo.allocate "#internal_0" (BytesT 96) Demo.ctx0)) /\
  0 <= 147028384 < 2 ^ 32.
Proof.
  intros msg_ir buf len.
  set (m := mkIRnode (VStr "string_literal") [ir_str "no"]
                     (Some (StringT 2)) None None None None).
  set (c2 := Demo.bump_iter (Demo.allocate "#internal_0" (BytesT 96) Demo.ctx0)).
  assert (H1 : is_UNREACHABLE (vy_ast.Str "no") = false) by reflexivity.
  assert (H2 : lower_reason_msg (vy_ast.Str "no") Demo.ctx0 = (Ok m, Demo.ctx0))
    by reflexivity.
  assert (H3 : typ (wrap_value_for_external_return m) = Some (TupleT [StringT 2]))
    by reflexivity.
  assert (H4 : new_internal_variable
                 (get_type_for_exact_size
                    (64 + memory_bytes_required (TupleT [StringT 2]))) Demo.ctx0
               = (Ok buf, c2)) by (vm_compute; reflexivity).
  assert (H5 : util.method_id_int keccak256 "Error(string)" = Some 147028384)
    by reflexivity.
  assert (H6 : abi_encode (add_ofst buf 32) (wrap_value_for_external_return m)
                 (64 + memory_bytes_required (TupleT [StringT 2]) - 32) true c2
               = (Ok len, c2)) by (vm_compute; reflexivity).
  pose proof (revert_reason_layout None (vy_ast.Str "no") Demo.ctx0 Demo.ctx0 c2 c2
                m buf len (TupleT [StringT 2]) 147028384 H1 H2 H3 H4 H5 H6) as W.
  split.
  - etransitivity; [exact (proj1 W)|]. vm_compute. reflexivity.
  - apply (proj2 (proj2 (proj2 (proj2 W)))).
    vm_compute. repeat constructor; discriminate.
Defined.

(** A body that is only [pass] gets the bare return; a body that ends in
    an [if] whose two branches return gets nothing. *)
Lemma body_termination_witness :
  let lowered (s : vy_ast.stmt) (n : IRnode) := set_ast_source s (set_annotation None n) in
  let both_return :=
    [vy_ast.If (vy_ast.Int 1) [vy_ast.Return None] [vy_ast.Raise None]] in
  ~ Terminated [vy_ast.Pass] /\
  parse_body [vy_ast.Pass] true Demo.ctx0
  = (Ok (ir "seq" [lowered vy_ast.Pass (ir_str "pass");
                   lowered (vy_ast.Return None) (ir "exit_to" []);
                   ir_str "pass"]),
     Demo.ctx0) /\
  Terminated both_return /\
  (exists if_ir c',
      lower_stmts both_return Demo.ctx0 = (Ok [if_ir], c') /\
      parse_body both_return true Demo.ctx0
      = (Ok (ir "seq" [if_ir; ir_str "pass"]), c')).
Proof.
  intros lowered both_return.
  pose proof (body_termination [vy_ast.Pass] eq_refl) as W1.
  pose proof (body_termination both_return eq_refl) as W2.
  destruct W1 as [(v1 & Hv1 & Hiff1) [_ Hbody1]].
  destruct W2 as [(v2 & Hv2 & Hiff2) [_ Hbody2]].
  assert (Hnot : ~ Terminated [vy_ast.Pass]).
  { intros HT. apply Hiff1 in HT. subst v1. vm_compute in Hv1. discriminate. }
  assert (Hyes : Terminated both_return).
  { apply Hiff2. vm_compute in Hv2. now injection Hv2. }
  split; [exact Hnot|]. split; [|split; [exact Hyes|]].
  - etransitivity.
    + apply (proj1 (Hbody1 Demo.ctx0 [lowered vy_ast.Pass (ir_str "pass")] Demo.ctx0
                      ltac:(vm_compute; reflexivity))).
      split; [reflexivity|exact Hnot].
    + vm_compute. reflexivity.
  - destruct (lower_stmts both_return Demo.ctx0) as [r c'] eqn:Hlow.
    vm_compute in Hlow. injection Hlow as <- <-.
    eexists _, _. split; [reflexivity|].
    apply (proj2 (Hbody2 Demo.ctx0 _ _ ltac:(vm_compute; reflexivity))).
    right. exact Hyes.
Defined.


(** [for v: uint256 in self.a: pass] reads its round count from the
    length word of [self.a] and declares the capacity 4;
    [for v: uint256 in [1, 2]: pass] copies the literal into a temporary
    and has the capacity 2 as round count and as declared bound. *)
Lemma for_list_rounds_and_bound_witness :
  let i := set_typ (Some UINT256_T) (ir_str "for_list_ix0") in
  let v := Demo.var_node "v" UINT256_T MEMORY in
  let pass_ir := set_ast_source vy_ast.Pass (set_annotation None (ir_str "pass")) in
  let element_of (l : IRnode) :=
    mkIRnode (VStr "element") [l; i] (Some UINT256_T) (location l) None None None in
  let body_of (l : IRnode) :=
    ir "seq" [ir "copy" [v; element_of l]; ir "seq" [pass_ir; ir_str "pass"]] in
  let literal :=
    set_typ (Some (SArrayT UINT256_T 2)) (ir "multi" [ir_int 1; ir_int 2]) in
  let tmp := Demo.var_node "#internal_1" (SArrayT UINT256_T 2) MEMORY in
  fst (_parse_For_list "v" UINT256_T Demo.self_a
         (parse_body [vy_ast.Pass] false) Demo.ctx0)
  = Ok (ir "seq" [ir "repeat" [i; ir_int 0; ir "sload" [Demo.a_node]; ir_int 4;
                               body_of Demo.a_node]]) /\
  fst (_parse_For_list "v" UINT256_T (vy_ast.List [vy_ast.Int 1; vy_ast.Int 2])
         (parse_body [vy_ast.Pass] false) Demo.ctx0)
  = Ok (ir "seq" [ir "copy" [tmp; literal];
                  ir "repeat" [i; ir_int 0; ir_int 2; ir_int 2; body_of tmp]]).
Proof.
  intros i v pass_ir element_of body_of literal tmp. split.
  - erewrite (for_list_rounds_and_bound "v" UINT256_T Demo.self_a
                (parse_body [vy_ast.Pass] false) Demo.ctx0
                _ _ _ _ _ _ _ _ _ Demo.a_T 4%N); cycle 1.
    + vm_compute. reflexivity.
    + reflexivity.
    + right. reflexivity.
    + vm_compute. reflexivity.
    + vm_compute. reflexivity.
    + left. split; [reflexivity|]. split; [reflexivity|]. split; reflexivity.
    + vm_compute. reflexivity.
    + exists true. vm_compute. reflexivity.
    + vm_compute. reflexivity.
  - erewrite (for_list_rounds_and_bound "v" UINT256_T
                (vy_ast.List [vy_ast.Int 1; vy_ast.Int 2])
                (parse_body [vy_ast.Pass] false) Demo.ctx0
                _ _ _ _ _ _ _ _ _ (SArrayT UINT256_T 2) 2%N); cycle 1.
    + vm_compute. reflexivity.
    + reflexivity.
    + left. reflexivity.
    + vm_compute. reflexivity.
    + vm_compute. reflexivity.
    + right. split; [reflexivity|]. split; [vm_compute; reflexivity|].
      split; reflexivity.
    + vm_compute. reflexivity.
    + exists true. vm_compute. reflexivity.
    + vm_compute. reflexivity.
Defined.


(** [for i: uint256 in range(self.x, bound=10): pass]: the declared
    bound is 10 and the round count is [end - clamp_le(0, end)]; when
    the end is 7 it evaluates to 7. *)
Lemma bounded_range_loop_witness :
  let i := set_typ (Some UINT256_T) (ir_str "range_ix0") in
  let iptr := Demo.var_node "i" UINT256_T MEMORY in
  let pass_ir := set_ast_source vy_ast.Pass (set_annotation None (ir_str "pass")) in
  let zero := set_typ (Some UINT256_T) (ir_int 0) in
  let end_var := mkIRnode (VStr "end") [] (Some UINT256_T) None None None None in
  let difference := ir "sub" [end_var; clamp_le zero end_var false] in
  let rounds :=
    ir "with" [ir_str "end"; set_typ (Some UINT256_T) (ir "sload" [Demo.x_node]);
               difference] in
  fst (_parse_For_range "i" UINT256_T [Demo.self_x] [("bound", vy_ast.Int 10)]
         (parse_body [vy_ast.Pass] false) Demo.ctx0)
  = Ok (set_error_msg "range() bounds check"
          (ir "repeat" [i; zero; rounds; ir_int 10;
                        ir "seq" [ir "mstore" [iptr; i];
                                  ir "seq" [pass_ir; ir_str "pass"]]])) /\
  eval [("end", 7)] difference = Some 7.
Proof.
  intros i iptr pass_ir zero end_var difference rounds.
  epose proof (bounded_range_loop "i" UINT256_T [Demo.self_x]
                 [("bound", vy_ast.Int 10)] (parse_body [vy_ast.Pass] false)
                 Demo.ctx0 _ _ _ _ _ _ _ _ _ _ 10 _ false 256%N
                 eq_refl _ _ _ _ _ _) as W.
  Unshelve.
  all: try (vm_compute; reflexivity).
  destruct W as (_ & Hrun & Heval). split.
  - erewrite Hrun; cycle 1.
    + vm_compute. discriminate.
    + vm_compute. reflexivity.
    + vm_compute. reflexivity.
    + vm_compute. reflexivity.
    + exists true. vm_compute. reflexivity.
    + vm_compute. reflexivity.
  - assert (Hword0 : 0 <= 0 < WORD) by (vm_compute; split; [discriminate|reflexivity]).
    assert (Hword7 : 0 <= 7 < WORD) by (vm_compute; split; [discriminate|reflexivity]).
    assert (Hle : as_integer false 0 <= as_integer false 7) by (vm_compute; discriminate).
    etransitivity.
    + refine (proj1 (proj1 (proj2 (Heval [("end", 7)] 0 7 Hword0 Hword7 _ _)) Hle));
        vm_compute; reflexivity.
    + reflexivity.
Defined.

(** [for i: uint256 in range(5): pass] has the round count 5 and the
    declared bound 5; [range(3, 3)] is rejected. *)
Lemma constant_range_loop_witness :
  let i := set_typ (Some UINT256_T) (ir_str "range_ix0") in
  let iptr := Demo.var_node "i" UINT256_T MEMORY in
  let pass_ir := set_ast_source vy_ast.Pass (set_annotation None (ir_str "pass")) in
  let zero := set_typ (Some UINT256_T) (ir_int 0) in
  fst (_parse_For_range "i" UINT256_T [vy_ast.Int 5] []
         (parse_body [vy_ast.Pass] false) Demo.ctx0)
  = Ok (set_error_msg "range() bounds check"
          (ir "repeat" [i; zero; ir_int 5; ir_int 5;
                        ir "seq" [ir "mstore" [iptr; i];
                                  ir "seq" [pass_ir; ir_str "pass"]]])) /\
  _parse_For_range "i" UINT256_T [vy_ast.Int 3; vy_ast.Int 3] []
    (parse_body [vy_ast.Pass] false) Demo.ctx0
  = (Err (raise_ TypeCheckFailure "unreachable: unchecked 0 bound"), Demo.ctx0).
Proof.
  intros i iptr pass_ir zero.
  set (body := parse_body [vy_ast.Pass] false).
  set (literal := fun n => set_typ (Some UINT256_T) (ir_int n)).
  assert (Hnone : (∅ : gmap string IRnode) !! "bound" = None)
    by (vm_compute; reflexivity).
  assert (Hfive : range_endpoints UINT256_T [vy_ast.Int 5] [] Demo.ctx0
                  = (Ok (zero, literal 5, ∅), Demo.ctx0))
    by (vm_compute; reflexivity).
  assert (Hthree : range_endpoints UINT256_T [vy_ast.Int 3; vy_ast.Int 3] [] Demo.ctx0
                   = (Ok (literal 3, literal 3, ∅), Demo.ctx0))
    by (vm_compute; reflexivity).
  split.
  - destruct (constant_range_loop "i" UINT256_T [vy_ast.Int 5] [] body
                Demo.ctx0 Demo.ctx0 zero (literal 5) ∅
                Hfive eq_refl eq_refl Hnone) as [_ W].
    destruct (W 0 5 eq_refl eq_refl eq_refl eq_refl) as [_ Hrun].
    erewrite Hrun; cycle 1.
    + vm_compute. discriminate.
    + vm_compute. reflexivity.
    + vm_compute. reflexivity.
    + vm_compute. reflexivity.
    + exists true. vm_compute. reflexivity.
    + vm_compute. reflexivity.
  - destruct (constant_range_loop "i" UINT256_T [vy_ast.Int 3; vy_ast.Int 3] [] body
                Demo.ctx0 Demo.ctx0 (literal 3) (literal 3) ∅
                Hthree eq_refl eq_refl Hnone) as [_ W].
    destruct (W 3 3 eq_refl eq_refl eq_refl eq_refl) as [Hfault _].
    apply Hfault. reflexivity.
Defined.

End Witnesses.

(* ===================================================================== *)
(** ** Properties of vyper/utils.py *)
(* ===================================================================== *)

Section UtilsIntegers.

(** X1: [ceil32 x] is the lowest multiple of 32 that is at least [x], for
    every integer [x], negative ones included: it is a multiple of 32, it
    lies in [x, x + 32), and no smaller multiple of 32 reaches [x]. *)
Theorem ceil32_is_lowest_multiple (x : Z) :
  util.ceil32 x mod 32 = 0 /\
  x <= util.ceil32 x < x + 32 /\
  (forall m, m mod 32 = 0 -> x <= m -> util.ceil32 x <= m).
Proof.
  unfold util.ceil32.
  pose proof (Z.div_mod x 32 ltac:(lia)) as Hx.
  pose proof (Z.mod_pos_bound x 32 ltac:(lia)) as Hr.
  destruct (x mod 32 =? 0) eqn:Hzero.
  - apply Z.eqb_eq in Hzero. repeat split; try lia.
  - apply Z.eqb_neq in Hzero. split; [|split].
    + replace (x + 32 - x mod 32) with (0 + (x / 32 + 1) * 32) by lia.
      now rewrite Z.mod_add by lia.
    + lia.
    + intros m Hm Hle.
      pose proof (Z.div_mod m 32 ltac:(lia)) as Hm'. lia.
Qed.


Lemma bytes_to_int_from (bytez : list Z) (o : Z) :
  fold_left (fun o b => o * 256 + b) bytez o
  = o * 256 ^ Z.of_nat (List.length bytez) + utils.bytes_to_int bytez.
Proof.
  unfold utils.bytes_to_int. revert o.
  induction bytez as [|b l IH]; intros o; cbn [fold_left List.length].
  - change (256 ^ Z.of_nat 0) with 1. lia.
  - rewrite IH, (IH (0 * 256 + b)), Nat2Z.inj_succ, Z.pow_succ_r by lia. lia.
Qed.

Lemma bytes_to_int_bound (bytez : list Z) :
  Forall utils.is_byte bytez ->
  0 <= utils.bytes_to_int bytez < 256 ^ Z.of_nat (List.length bytez).
Proof.
  induction 1 as [|b l Hb Hl IH].
  - cbn. lia.
  - change (utils.bytes_to_int (b :: l))
      with (fold_left (fun o b => o * 256 + b) l (0 * 256 + b)).
    rewrite bytes_to_int_from. cbn [List.length].
    rewrite Nat2Z.inj_succ, Z.pow_succ_r by lia.
    unfold utils.is_byte in Hb. nia.
Qed.

Lemma big_endian_length (length : nat) (n : Z) :
  List.length (utils.big_endian length n) = length.
Proof. induction length as [|k IH]; cbn; [reflexivity|now rewrite IH]. Qed.

Lemma big_endian_bytes (length : nat) (n : Z) :
  Forall utils.is_byte (utils.big_endian length n).
Proof.
  induction length as [|k IH]; cbn; constructor; [|exact IH].
  unfold utils.is_byte. apply Z.mod_pos_bound. lia.
Qed.

Lemma bytes_to_int_big_endian (length : nat) (n : Z) :
  0 <= n ->
  utils.bytes_to_int (utils.big_endian length n) = n mod 256 ^ Z.of_nat length.
Proof.
  intros Hn. induction length as [|k IH].
  - cbn. now rewrite Z.mod_1_r.
  - cbn [utils.big_endian].
    change (utils.bytes_to_int (?x :: ?l))
      with (fold_left (fun o y => o * 256 + y) l (0 * 256 + x)).
    rewrite bytes_to_int_from, big_endian_length, IH.
    rewrite Nat2Z.inj_succ, Z.pow_succ_r by lia.
    set (p := 256 ^ Z.of_nat k). assert (Hp : 0 < p) by (apply Z.pow_pos_nonneg; lia).
    rewrite (Z.mul_comm 256 p), Z.rem_mul_r by lia. lia.
Qed.

(** X2: [bytes_to_int] reads a byte string as a big-endian number: the
    value of a concatenation is the value of the first part shifted by the
    length of the second plus the value of the second, a string of [k]
    bytes has a value below [256^k], and the big-endian bytes that
    [int.to_bytes] gives for a number that fits are read back as that
    number. *)
Theorem bytes_to_int_big_endian_value (a b : list Z) :
  Forall utils.is_byte a ->
  Forall utils.is_byte b ->
  utils.bytes_to_int (a ++ b)
  = utils.bytes_to_int a * 256 ^ Z.of_nat (List.length b) + utils.bytes_to_int b /\
  0 <= utils.bytes_to_int a < 256 ^ Z.of_nat (List.length a) /\
  (forall n length,
      utils.to_bytes n length = utils.Returns a ->
      utils.bytes_to_int a = n).
Proof.
  intros Ha Hb. split; [|split].
  - unfold utils.bytes_to_int at 1. rewrite fold_left_app.
    fold (utils.bytes_to_int a). apply bytes_to_int_from.
  - now apply bytes_to_int_bound.
  - intros n length. unfold utils.to_bytes.
    destruct (n <? 0) eqn:Hneg; [discriminate|].
    destruct (256 ^ Z.of_nat length <=? n) eqn:Hbig; [discriminate|].
    intros [= <-]. apply Z.ltb_ge in Hneg. apply Z.leb_gt in Hbig.
    rewrite bytes_to_int_big_endian by exact Hneg. apply Z.mod_small. lia.
Qed.

(** X3: [int_to_fourbytes] and [fourbytes_to_int] are inverse to each
    other: a number in [0, 2^32) is turned into four bytes that
    [fourbytes_to_int] reads back, and the number read from four bytes is
    turned back into those bytes.  [int_to_fourbytes] fails its assertion
    from [2^32] on, and fails inside [to_bytes] on a negative number. *)
Theorem fourbytes_round_trip (n : Z) (b0 b1 b2 b3 : Z) :
  (0 <= n < 2 ^ 32 ->
   exists bytez,
     utils.int_to_fourbytes n = utils.Returns bytez /\
     List.length bytez = 4%nat /\ Forall utils.is_byte bytez /\
     util.fourbytes_to_int bytez = Some n) /\
  (Forall utils.is_byte [b0; b1; b2; b3] ->
   util.fourbytes_to_int [b0; b1; b2; b3] = Some n ->
   utils.int_to_fourbytes n = utils.Returns [b0; b1; b2; b3]) /\
  (2 ^ 32 <= n -> utils.int_to_fourbytes n = utils.Raises utils.AssertionError) /\
  (n < 0 -> utils.int_to_fourbytes n = utils.Raises utils.OverflowError).
Proof.
  assert (H32 : 2 ^ 32 = 4294967296) by reflexivity.
  assert (H256 : 256 ^ Z.of_nat 4 = 4294967296) by reflexivity.
  split; [|split; [|split]].
  - intros Hn. exists (utils.big_endian 4 n).
    unfold utils.int_to_fourbytes, utils.to_bytes.
    replace (n <? 2 ^ 32) with true by (symmetry; apply Z.ltb_lt; lia).
    replace (n <? 0) with false by (symmetry; apply Z.ltb_ge; lia).
    replace (256 ^ Z.of_nat 4 <=? n) with false by (symmetry; apply Z.leb_gt; lia).
    split; [reflexivity|]. split; [apply big_endian_length|].
    split; [apply big_endian_bytes|].
    cbn [utils.big_endian util.fourbytes_to_int]. f_equal.
    rewrite !Z.shiftl_mul_pow2 by lia.
    change (256 ^ Z.of_nat 3) with 16777216. change (256 ^ Z.of_nat 2) with 65536.
    change (256 ^ Z.of_nat 1) with 256. change (256 ^ Z.of_nat 0) with 1.
    change (2 ^ 24) with 16777216. change (2 ^ 16) with 65536. change (2 ^ 8) with 256.
    rewrite Z.div_1_r.
    pose proof (Z.div_mod n 16777216 ltac:(lia)).
    pose proof (Z.div_mod n 65536 ltac:(lia)).
    pose proof (Z.div_mod n 256 ltac:(lia)).
    pose proof (Z.div_mod (n / 16777216) 256 ltac:(lia)).
    pose proof (Z.div_mod (n / 65536) 256 ltac:(lia)).
    pose proof (Z.div_mod (n / 256) 256 ltac:(lia)).
    assert (n / 16777216 / 256 = 0) by (rewrite Z.div_div by lia; apply Z.div_small; lia).
    assert (n / 65536 / 256 = n / 16777216) by (rewrite Z.div_div by lia; reflexivity).
    assert (n / 256 / 256 = n / 65536) by (rewrite Z.div_div by lia; reflexivity).
    lia.
  - intros Hbytes Hread.
    repeat match goal with
           | Hf : Forall _ (_ :: _) |- _ => apply Forall_cons_1 in Hf; destruct Hf as [? Hf]
           end.
    unfold utils.is_byte in *.
    cbn [util.fourbytes_to_int] in Hread. injection Hread as Hread.
    rewrite !Z.shiftl_mul_pow2 in Hread by lia.
    change (2 ^ 24) with 16777216 in Hread. change (2 ^ 16) with 65536 in Hread.
    change (2 ^ 8) with 256 in Hread.
    unfold utils.int_to_fourbytes, utils.to_bytes.
    replace (n <? 2 ^ 32) with true by (symmetry; apply Z.ltb_lt; lia).
    replace (n <? 0) with false by (symmetry; apply Z.ltb_ge; lia).
    replace (256 ^ Z.of_nat 4 <=? n) with false by (symmetry; apply Z.leb_gt; lia).
    cbn [utils.big_endian].
    change (256 ^ Z.of_nat 3) with 16777216. change (256 ^ Z.of_nat 2) with 65536.
    change (256 ^ Z.of_nat 1) with 256. change (256 ^ Z.of_nat 0) with 1.
    rewrite Z.div_1_r.
    assert (E0 : n / 16777216 = b0) by (symmetry; apply (Z.div_unique n 16777216 b0 (b1 * 65536 + b2 * 256 + b3)); lia).
    assert (E1 : n / 65536 = b0 * 256 + b1) by (symmetry; apply (Z.div_unique n 65536 _ (b2 * 256 + b3)); lia).
    assert (E2 : n / 256 = b0 * 65536 + b1 * 256 + b2) by (symmetry; apply (Z.div_unique n 256 _ b3); lia).
    rewrite E0, E1, E2.
    assert (M0 : b0 mod 256 = b0) by (apply Z.mod_small; lia).
    assert (M1 : (b0 * 256 + b1) mod 256 = b1)
      by (symmetry; apply (Z.mod_unique _ 256 b0 b1); lia).
    assert (M2 : (b0 * 65536 + b1 * 256 + b2) mod 256 = b2)
      by (symmetry; apply (Z.mod_unique _ 256 (b0 * 256 + b1) b2); lia).
    assert (M3 : n mod 256 = b3)
      by (symmetry; apply (Z.mod_unique _ 256 (b0 * 65536 + b1 * 256 + b2) b3); lia).
    now rewrite M0, M1, M2, M3.
  - intros Hn. unfold utils.int_to_fourbytes.
    now replace (n <? 2 ^ 32) with false by (symmetry; apply Z.ltb_ge; lia).
  - intros Hn. unfold utils.int_to_fourbytes, utils.to_bytes.
    replace (n <? 2 ^ 32) with true by (symmetry; apply Z.ltb_lt; lia).
    now replace (n <? 0) with true by (symmetry; apply Z.ltb_lt; lia).
Qed.


(** X4: in strict mode, for [bits >= 1], [signed_to_unsigned] and
    [unsigned_to_signed] are inverse bijections between the bounds of
    [int<bits>] and those of [uint<bits>], and each fails its assertion on
    an input outside its bounds. *)
Theorem signed_unsigned_round_trip (v bits : Z) :
  1 <= bits ->
  let '(slo, shi) := utils.int_bounds true bits in
  let '(ulo, uhi) := utils.int_bounds false bits in
  (slo <= v <= shi ->
   exists u,
     utils.signed_to_unsigned v bits true = utils.Returns u /\
     ulo <= u <= uhi /\
     utils.unsigned_to_signed u bits true = utils.Returns v) /\
  (ulo <= v <= uhi ->
   exists s,
     utils.unsigned_to_signed v bits true = utils.Returns s /\
     slo <= s <= shi /\
     utils.signed_to_unsigned s bits true = utils.Returns v) /\
  (v < slo \/ shi < v ->
   utils.signed_to_unsigned v bits true = utils.Raises utils.AssertionError) /\
  (v < ulo \/ uhi < v ->
   utils.unsigned_to_signed v bits true = utils.Raises utils.AssertionError).
Proof.
  intros Hbits. cbn [utils.int_bounds].
  assert (Hpow : 2 ^ bits = 2 * 2 ^ (bits - 1)).
  { replace bits with (Z.succ (bits - 1)) at 1 by lia. apply Z.pow_succ_r. lia. }
  assert (Hpos : 0 < 2 ^ (bits - 1)) by (apply Z.pow_pos_nonneg; lia).
  unfold utils.signed_to_unsigned, utils.unsigned_to_signed.
  cbn [utils.int_bounds andb].
  split; [|split; [|split]].
  - intros Hv.
    replace ((- 2 ^ (bits - 1) <=? v) && (v <=? 2 ^ (bits - 1) - 1)) with true
      by (symmetry; apply andb_true_iff; split; apply Z.leb_le; lia).
    cbn [negb]. destruct (v <? 0) eqn:Hneg.
    + apply Z.ltb_lt in Hneg. exists (v + 2 ^ bits). split; [reflexivity|].
      split; [lia|].
      replace ((0 <=? v + 2 ^ bits) && (v + 2 ^ bits <=? 2 ^ bits - 1)) with true
        by (symmetry; apply andb_true_iff; split; apply Z.leb_le; lia).
      cbn [negb].
      replace (2 ^ (bits - 1) - 1 <? v + 2 ^ bits) with true
        by (symmetry; apply Z.ltb_lt; lia).
      f_equal. lia.
    + apply Z.ltb_ge in Hneg. exists v. split; [reflexivity|]. split; [lia|].
      replace ((0 <=? v) && (v <=? 2 ^ bits - 1)) with true
        by (symmetry; apply andb_true_iff; split; apply Z.leb_le; lia).
      cbn [negb].
      now replace (2 ^ (bits - 1) - 1 <? v) with false
        by (symmetry; apply Z.ltb_ge; lia).
  - intros Hv.
    replace ((0 <=? v) && (v <=? 2 ^ bits - 1)) with true
      by (symmetry; apply andb_true_iff; split; apply Z.leb_le; lia).
    cbn [negb]. destruct (2 ^ (bits - 1) - 1 <? v) eqn:Hhigh.
    + apply Z.ltb_lt in Hhigh. exists (v - 2 ^ bits). split; [reflexivity|].
      split; [lia|].
      replace ((- 2 ^ (bits - 1) <=? v - 2 ^ bits) && (v - 2 ^ bits <=? 2 ^ (bits - 1) - 1))
        with true by (symmetry; apply andb_true_iff; split; apply Z.leb_le; lia).
      cbn [negb].
      replace (v - 2 ^ bits <? 0) with true by (symmetry; apply Z.ltb_lt; lia).
      f_equal. lia.
    + apply Z.ltb_ge in Hhigh. exists v. split; [reflexivity|]. split; [lia|].
      replace ((- 2 ^ (bits - 1) <=? v) && (v <=? 2 ^ (bits - 1) - 1)) with true
        by (symmetry; apply andb_true_iff; split; apply Z.leb_le; lia).
      cbn [negb].
      now replace (v <? 0) with false by (symmetry; apply Z.ltb_ge; lia).
  - intros Hout.
    replace ((- 2 ^ (bits - 1) <=? v) && (v <=? 2 ^ (bits - 1) - 1)) with false;
      [reflexivity|].
    symmetry. apply andb_false_iff.
    destruct Hout; [left; apply Z.leb_gt|right; apply Z.leb_gt]; lia.
  - intros Hout.
    replace ((0 <=? v) && (v <=? 2 ^ bits - 1)) with false; [reflexivity|].
    symmetry. apply andb_false_iff.
    destruct Hout; [left; apply Z.leb_gt|right; apply Z.leb_gt]; lia.
Qed.

(** X5: [wrap256] never fails, although its signed branch converts in
    strict mode: the result lies within the bounds of [uint256], or of
    [int256] when [signed], it differs from the input by a multiple of
    [2^256], and an input already within the bounds is returned as it
    is. *)
Theorem wrap256_in_bounds (val : Z) (signed : bool) :
  let '(lo, hi) := utils.int_bounds signed 256 in
  exists ret,
    utils.wrap256 val signed = utils.Returns ret /\
    lo <= ret <= hi /\
    (ret - val) mod 2 ^ 256 = 0 /\
    (lo <= val <= hi -> ret = val).
Proof.
  pose proof (Z.mod_pos_bound val (2 ^ 256) ltac:(lia)) as Hr.
  pose proof (Z.div_mod val (2 ^ 256) ltac:(lia)) as Hv.
  assert (Hpow : 2 ^ 256 = 2 * 2 ^ 255) by reflexivity.
  assert (Hpos : 0 < 2 ^ 255) by lia.
  unfold utils.wrap256. destruct signed; cbn [utils.int_bounds].
  - unfold utils.unsigned_to_signed. cbn [utils.int_bounds andb].
    change (256 - 1) with 255.
    replace ((0 <=? val mod 2 ^ 256) && (val mod 2 ^ 256 <=? 2 ^ 256 - 1)) with true
      by (symmetry; apply andb_true_iff; split; apply Z.leb_le; lia).
    cbn [negb]. destruct (2 ^ 255 - 1 <? val mod 2 ^ 256) eqn:Hhigh.
    + apply Z.ltb_lt in Hhigh. eexists. split; [reflexivity|].
      split; [lia|]. split.
      * replace (val mod 2 ^ 256 - 2 ^ 256 - val)
          with (0 + (- (val / 2 ^ 256) - 1) * 2 ^ 256) by lia.
        now rewrite Z.mod_add by lia.
      * intros Hin.
        assert (val / 2 ^ 256 = -1) by nia. lia.
    + apply Z.ltb_ge in Hhigh. eexists. split; [reflexivity|].
      split; [lia|]. split.
      * replace (val mod 2 ^ 256 - val) with (0 + (- (val / 2 ^ 256)) * 2 ^ 256) by lia.
        now rewrite Z.mod_add by lia.
      * intros Hin.
        assert (val / 2 ^ 256 = 0) by nia. lia.
  - eexists. split; [reflexivity|]. split; [lia|]. split.
    + replace (val mod 2 ^ 256 - val) with (0 + (- (val / 2 ^ 256)) * 2 ^ 256) by lia.
      now rewrite Z.mod_add by lia.
    + intros Hin. apply Z.mod_small. lia.
Qed.


Lemma power_of_two_is_power (k : Z) :
  0 <= k -> utils.is_power_of_two (2 ^ k) = true.
Proof.
  intros Hk. unfold utils.is_power_of_two.
  assert (Hpos : 0 < 2 ^ k) by (apply Z.pow_pos_nonneg; lia).
  apply andb_true_iff. split.
  - apply negb_true_iff, Z.eqb_neq. lia.
  - apply Z.eqb_eq.
    replace (2 ^ k - 1) with (Z.ones k) by (rewrite Z.ones_equiv; lia).
    rewrite Z.land_ones by exact Hk. apply Z_mod_same_full.
Qed.

Lemma is_power_of_two_inv (n : Z) :
  utils.is_power_of_two n = true -> 0 < n /\ n = 2 ^ Z.log2 n.
Proof.
  unfold utils.is_power_of_two. intros Hn.
  apply andb_true_iff in Hn. destruct Hn as [Hnz Hland].
  apply negb_true_iff, Z.eqb_neq in Hnz. apply Z.eqb_eq in Hland.
  assert (Hpos : 0 < n).
  { destruct (Z.lt_trichotomy n 0) as [Hneg|[Hzero|Hpos]]; [|lia|exact Hpos].
    assert (Z.land n (n - 1) < 0) by (apply Z.land_neg; lia). lia. }
  split; [exact Hpos|].
  destruct (Z.log2_spec n Hpos) as [Hlow Hhigh].
  destruct (Z.eq_dec n (2 ^ Z.log2 n)) as [Heq|Hne]; [exact Heq|].
  exfalso.
  assert (Hlog : Z.log2 (n - 1) = Z.log2 n) by (apply Z.log2_unique; [apply Z.log2_nonneg|lia]).
  assert (Hbit : Z.testbit (Z.land n (n - 1)) (Z.log2 n) = true).
  { rewrite Z.land_spec. rewrite (Z.bit_log2 n Hpos).
    rewrite <- Hlog. rewrite Z.bit_log2; [reflexivity|].
    pose proof (Z.pow_pos_nonneg 2 (Z.log2 n) ltac:(lia) (Z.log2_nonneg n)). lia. }
  rewrite Hland, Z.bits_0 in Hbit. discriminate.
Qed.

(** X6: [is_power_of_two n] holds exactly when [n] is [2^k] for some
    [k >= 0]; zero and every negative integer are rejected, and there is
    no loss of precision on wide integers. *)
Theorem is_power_of_two_spec (n : Z) :
  utils.is_power_of_two n = true <-> exists k, 0 <= k /\ n = 2 ^ k.
Proof.
  split.
  - intros Hn. destruct (is_power_of_two_inv n Hn) as [_ Heq].
    exists (Z.log2 n). split; [apply Z.log2_nonneg|exact Heq].
  - intros (k & Hk & ->). now apply power_of_two_is_power.
Qed.

(** X7: for a positive [n], [int_log2 n] is the floor of the binary
    logarithm: [2^(int_log2 n) <= n < 2^(int_log2 n + 1)]; it is exact on
    the numbers [is_power_of_two] accepts; the sign of [n] is ignored, and
    [int_log2 0] is [-1]. *)
Theorem int_log2_is_floor_log2 (n : Z) :
  (0 < n -> 2 ^ utils.int_log2 n <= n < 2 ^ (utils.int_log2 n + 1)) /\
  (utils.is_power_of_two n = true -> 2 ^ utils.int_log2 n = n) /\
  utils.int_log2 (- n) = utils.int_log2 n /\
  utils.int_log2 0 = -1.
Proof.
  assert (Hlog : forall m, 0 < m -> utils.int_log2 m = Z.log2 m).
  { intros m Hm. unfold utils.int_log2, utils.bit_length.
    replace (m =? 0) with false by (symmetry; apply Z.eqb_neq; lia).
    rewrite Z.abs_eq by lia. lia. }
  split; [|split; [|split]].
  - intros Hn. rewrite (Hlog n Hn).
    pose proof (Z.log2_spec n Hn) as Hspec.
    replace (Z.log2 n + 1) with (Z.succ (Z.log2 n)) by lia. exact Hspec.
  - intros Hpow. destruct (is_power_of_two_inv n Hpow) as [Hpos Heq].
    rewrite (Hlog n Hpos). now rewrite <- Heq.
  - unfold utils.int_log2, utils.bit_length. rewrite Z.abs_opp.
    destruct (n =? 0) eqn:Hz.
    + apply Z.eqb_eq in Hz. subst n. reflexivity.
    + apply Z.eqb_neq in Hz.
      now replace (- n =? 0) with false by (symmetry; apply Z.eqb_neq; lia).
  - reflexivity.
Qed.


Lemma lxor_all_ones (x : Z) :
  0 <= x <= 2 ^ 256 - 1 -> Z.lxor (2 ^ 256 - 1) x = 2 ^ 256 - 1 - x.
Proof.
  intros Hx.
  assert (Hones : 2 ^ 256 - 1 = Z.ones 256) by (rewrite Z.ones_equiv; lia).
  assert (Hout : Z.ldiff x (Z.ones 256) = 0).
  { rewrite Z.ldiff_ones_r by lia.
    rewrite Z.shiftr_div_pow2 by lia. rewrite Z.div_small by lia. apply Z.shiftl_0_l. }
  rewrite Hones, (Z.sub_nocarry_ldiff _ _ Hout).
  apply Z.bits_inj'. intros i Hi.
  rewrite Z.lxor_spec, Z.ldiff_spec.
  assert (Hbit : Z.testbit (Z.ldiff x (Z.ones 256)) i = false)
    by (rewrite Hout; apply Z.bits_0).
  rewrite Z.ldiff_spec in Hbit.
  destruct (Z.testbit (Z.ones 256) i), (Z.testbit x i); try reflexivity; discriminate.
Qed.

(** X8: on [0 .. MAX_UINT256], [evm_not] is the complement
    [MAX_UINT256 - val], stays within those bounds and is its own
    inverse; outside them it fails its assertion. *)
Theorem evm_not_is_complement (val : Z) :
  (0 <= val <= utils.SizeLimits.MAX_UINT256 ->
   utils.evm_not val = utils.Returns (utils.SizeLimits.MAX_UINT256 - val) /\
   0 <= utils.SizeLimits.MAX_UINT256 - val <= utils.SizeLimits.MAX_UINT256 /\
   utils.evm_not (utils.SizeLimits.MAX_UINT256 - val) = utils.Returns val) /\
  (val < 0 \/ utils.SizeLimits.MAX_UINT256 < val ->
   utils.evm_not val = utils.Raises utils.AssertionError).
Proof.
  unfold utils.evm_not, utils.SizeLimits.MAX_UINT256. split.
  - intros Hv.
    replace ((0 <=? val) && (val <=? 2 ^ 256 - 1)) with true
      by (symmetry; apply andb_true_iff; split; apply Z.leb_le; lia).
    replace ((0 <=? 2 ^ 256 - 1 - val) && (2 ^ 256 - 1 - val <=? 2 ^ 256 - 1)) with true
      by (symmetry; apply andb_true_iff; split; apply Z.leb_le; lia).
    rewrite !lxor_all_ones by lia. split; [reflexivity|]. split; [lia|].
    f_equal. lia.
  - intros Hout.
    replace ((0 <=? val) && (val <=? 2 ^ 256 - 1)) with false; [reflexivity|].
    symmetry. apply andb_false_iff.
    destruct Hout; [left; apply Z.leb_gt|right; apply Z.leb_gt]; lia.
Qed.

(** X9: on a word [x] in [0 .. MAX_UINT256], [evm_twos_complement x] is
    [2^256 - x]: it is the successor of [evm_not x], adding it to [x]
    gives zero modulo [2^256], and it is a word itself unless [x] is 0,
    where it is [CEILING_UINT256]. *)
Theorem evm_twos_complement_negates (x : Z) :
  0 <= x <= utils.SizeLimits.MAX_UINT256 ->
  utils.evm_twos_complement x = 2 ^ 256 - x /\
  utils.evm_not x = utils.Returns (utils.evm_twos_complement x - 1) /\
  (x + utils.evm_twos_complement x) mod 2 ^ 256 = 0 /\
  (0 < x -> 0 < utils.evm_twos_complement x <= utils.SizeLimits.MAX_UINT256) /\
  (x = 0 -> utils.evm_twos_complement x = utils.SizeLimits.CEILING_UINT256).
Proof.
  unfold utils.SizeLimits.MAX_UINT256, utils.SizeLimits.CEILING_UINT256.
  intros Hx.
  assert (Htc : utils.evm_twos_complement x = 2 ^ 256 - x).
  { unfold utils.evm_twos_complement. rewrite lxor_all_ones by exact Hx. lia. }
  rewrite Htc. split; [reflexivity|]. split; [|split; [|split]].
  - unfold utils.evm_not, utils.SizeLimits.MAX_UINT256.
    replace ((0 <=? x) && (x <=? 2 ^ 256 - 1)) with true
      by (symmetry; apply andb_true_iff; split; apply Z.leb_le; lia).
    rewrite lxor_all_ones by exact Hx. f_equal. lia.
  - replace (x + (2 ^ 256 - x)) with (2 ^ 256) by lia. apply Z_mod_same_full.
  - lia.
  - intros ->. lia.
Qed.

(** X10: [evm_div] is the division that truncates toward zero, with
    [x / 0 = 0], and for a divisor other than zero [evm_mod] is its
    remainder: [x = y * evm_div x y + evm_mod x y], the remainder is
    smaller than the divisor in absolute value and takes the sign of the
    dividend; [evm_mod x 0] is 0. *)
Theorem evm_div_mod_truncate (x y : Z) :
  utils.evm_div x y = Z.quot x y /\
  utils.evm_mod x 0 = 0 /\
  (y <> 0 ->
   utils.evm_mod x y = Z.rem x y /\
   x = y * utils.evm_div x y + utils.evm_mod x y /\
   Z.abs (utils.evm_mod x y) < Z.abs y /\
   0 <= x * utils.evm_mod x y).
Proof.
  assert (Hdiv : utils.evm_div x y = Z.quot x y).
  { unfold utils.evm_div. destruct (y =? 0) eqn:Hy.
    - apply Z.eqb_eq in Hy. subst y. now destruct x.
    - apply Z.eqb_neq in Hy. rewrite Z.quot_div by exact Hy.
      destruct (x * y <? 0) eqn:Hsign;
        [apply Z.ltb_lt in Hsign|apply Z.ltb_ge in Hsign];
        destruct (Z.lt_trichotomy x 0) as [Hx|[Hx|Hx]],
                 (Z.lt_trichotomy y 0) as [Hy'|[Hy'|Hy']];
        try lia; try nia;
        rewrite ?(Z.sgn_neg x), ?(Z.sgn_pos x), ?(Z.sgn_neg y), ?(Z.sgn_pos y) by lia;
        try lia; subst x; change (Z.abs 0) with 0; rewrite Zdiv_0_l; lia. }
  split; [exact Hdiv|]. split; [reflexivity|].
  intros Hy.
  assert (Hmod : utils.evm_mod x y = Z.rem x y).
  { unfold utils.evm_mod.
    replace (y =? 0) with false by (symmetry; apply Z.eqb_neq; exact Hy).
    rewrite Z.rem_mod by exact Hy.
    destruct x as [|p|p];
      [change (Z.abs 0) with 0; now rewrite Zmod_0_l
      |change (Z.pos p <? 0) with false; change (Z.sgn (Z.pos p)) with 1; lia
      |change (Z.neg p <? 0) with true; change (Z.sgn (Z.neg p)) with (-1); lia]. }
  rewrite Hmod, Hdiv. split; [reflexivity|]. split; [|split].
  - apply Z.quot_rem'.
  - apply Z.rem_bound_abs. exact Hy.
  - rewrite Z.mul_comm. apply Z.rem_sign_mul. exact Hy.
Qed.

(** X11: for arguments that are not negative [evm_pow] is the power
    reduced modulo [2^256]: a word, 1 at exponent 0, and multiplied by the
    base, modulo [2^256], by each further unit of the exponent; a negative
    argument fails the assertion. *)
Theorem evm_pow_wraps (x y : Z) :
  (0 <= x -> 0 <= y ->
   exists r r',
     utils.evm_pow x y = utils.Returns r /\
     utils.evm_pow x (y + 1) = utils.Returns r' /\
     0 <= r < 2 ^ 256 /\
     r' = (x * r) mod 2 ^ 256 /\
     utils.evm_pow x 0 = utils.Returns 1) /\
  (x < 0 \/ y < 0 -> utils.evm_pow x y = utils.Raises utils.AssertionError).
Proof.
  unfold utils.evm_pow. split.
  - intros Hx Hy.
    replace ((0 <=? x) && (0 <=? y)) with true
      by (symmetry; apply andb_true_iff; split; apply Z.leb_le; lia).
    replace ((0 <=? x) && (0 <=? y + 1)) with true
      by (symmetry; apply andb_true_iff; split; apply Z.leb_le; lia).
    replace ((0 <=? x) && (0 <=? 0)) with true
      by (symmetry; apply andb_true_iff; split; apply Z.leb_le; lia).
    eexists _, _. split; [reflexivity|]. split; [reflexivity|].
    split; [apply Z.mod_pos_bound; lia|]. split; [|reflexivity].
    replace (y + 1) with (Z.succ y) by lia. rewrite Z.pow_succ_r by exact Hy.
    now rewrite Zmult_mod_idemp_r.
  - intros Hneg.
    replace ((0 <=? x) && (0 <=? y)) with false; [reflexivity|].
    symmetry. apply andb_false_iff.
    destruct Hneg; [left|right]; apply Z.leb_gt; lia.
Qed.


End UtilsIntegers.

Section UtilsStrings.

Lemma unhexlify_value (k : nat) :
  forall (s : string) (acc n : Z),
    String.length s = (2 * k)%nat ->
    hex_value_from acc s = Some n ->
    exists bytez,
      utils.unhexlify s = utils.Returns bytez /\
      fold_left (fun o b => o * 256 + b) bytez acc = n.
Proof.
  induction k as [|k IH]; intros s acc n Hlen Hval.
  - destruct s; [|discriminate]. cbn in Hval. injection Hval as <-.
    exists []. split; reflexivity.
  - destruct s as [|a [|b rest]]; cbn [String.length] in Hlen; try lia.
    cbn [hex_value_from] in Hval.
    destruct (utils.hex_digit a) as [x|] eqn:Ha; [|discriminate].
    destruct (utils.hex_digit b) as [y|] eqn:Hb; [|discriminate].
    destruct (IH rest ((acc * 16 + x) * 16 + y) n ltac:(lia) Hval) as (bytez & Hun & Hfold).
    exists (16 * x + y :: bytez). cbn [utils.unhexlify]. rewrite Ha, Hb, Hun.
    split; [reflexivity|]. cbn [fold_left].
    now replace (acc * 256 + (16 * x + y)) with ((acc * 16 + x) * 16 + y) by lia.
Qed.

Lemma unhexlify_odd (k : nat) :
  forall s, String.length s = S (2 * k) ->
            utils.unhexlify s = utils.Raises utils.BinasciiError.
Proof.
  induction k as [|k IH]; intros s Hlen.
  - destruct s as [|a [|b rest]]; cbn [String.length] in Hlen; try lia. reflexivity.
  - destruct s as [|a [|b rest]]; cbn [String.length] in Hlen; try lia.
    cbn [utils.unhexlify].
    rewrite (IH rest ltac:(lia)).
    now destruct (utils.hex_digit a), (utils.hex_digit b).
Qed.

Lemma unhexlify_not_hex (s : string) :
  forall acc, hex_value_from acc s = None ->
              utils.unhexlify s = utils.Raises utils.BinasciiError.
Proof.
  remember (String.length s) as len eqn:Hlen.
  revert s Hlen. induction len as [len IH] using lt_wf_ind.
  intros s Hlen acc Hval.
  destruct s as [|a [|b rest]]; [discriminate|reflexivity|].
  cbn [utils.unhexlify]. cbn [hex_value_from] in Hval.
  destruct (utils.hex_digit a) as [x|]; [|reflexivity].
  destruct (utils.hex_digit b) as [y|]; [|reflexivity].
  cbn [String.length] in Hlen.
  now rewrite (IH (String.length rest) ltac:(lia) rest eq_refl _ Hval).
Qed.

Lemma substring_all (s : string) : String.substring 0 (String.length s) s = s.
Proof. induction s as [|c s IH]; cbn; [reflexivity|now rewrite IH]. Qed.

Lemma after_two_skip (a b : Ascii.ascii) (s : string) :
  utils.after_two (String a (String b s)) = s.
Proof.
  unfold utils.after_two. cbn [String.length].
  change (S (S (String.length s)) - 2)%nat with (String.length s - 0)%nat.
  rewrite Nat.sub_0_r. cbn [String.substring]. apply substring_all.
Qed.

Lemma after_two_prefixed (s : string) : utils.after_two ("0x" ++ s) = s.
Proof. exact (after_two_skip _ _ s). Qed.

Lemma first_two_hex (s : string) (n : Z) :
  hex_value s = Some n -> String.eqb (utils.first_two s) "0x" = false.
Proof.
  unfold hex_value. intros Hval.
  destruct s as [|a [|b rest]];
    [reflexivity|apply String.eqb_neq; discriminate|].
  cbn [hex_value_from] in Hval.
  destruct (utils.hex_digit a) as [x|]; [|discriminate].
  destruct (utils.hex_digit b) as [y|] eqn:Hb; [|discriminate].
  unfold utils.first_two. cbn [String.substring].
  apply String.eqb_neq. intros Heq. injection Heq as _ Hx.
  rewrite Hx in Hb. vm_compute in Hb. discriminate.
Qed.

(** X13: [hex_to_int] reads a string of an even number of hexadecimal
    digits, of either case, as the base-16 number it denotes, with or
    without the prefix [0x]; after the prefix, an ASCII string of odd
    length or with a character that is no hexadecimal digit raises
    [binascii.Error]. *)
Theorem hex_to_int_reads_base16 (s : string) :
  (forall n,
      Nat.even (String.length s) = true ->
      hex_value s = Some n ->
      utils.hex_to_int s = utils.Returns n /\
      utils.hex_to_int ("0x" ++ s) = utils.Returns n) /\
  (ascii_only s = true ->
   Nat.odd (String.length s) = true \/ hex_value s = None ->
   utils.hex_to_int ("0x" ++ s) = utils.Raises utils.BinasciiError).
Proof.
  assert (Hprefixed : utils.hex_to_int ("0x" ++ s)
                      = match utils.unhexlify s with
                        | utils.Returns bytez => utils.Returns (utils.bytes_to_int bytez)
                        | utils.Raises e => utils.Raises e
                        end).
  { unfold utils.hex_to_int.
    replace (String.eqb (utils.first_two ("0x" ++ s)) "0x") with true
      by (now destruct s).
    now rewrite after_two_prefixed. }
  split.
  - intros n Heven Hval.
    apply Nat.even_spec in Heven. destruct Heven as [k Hk].
    destruct (unhexlify_value k s 0 n Hk Hval) as (bytez & Hun & Hfold).
    split.
    + unfold utils.hex_to_int. rewrite (first_two_hex s n Hval), Hun.
      now rewrite <- Hfold.
    + rewrite Hprefixed, Hun. now rewrite <- Hfold.
  - intros _ Hbad. rewrite Hprefixed. destruct Hbad as [Hodd|Hnone].
    + apply Nat.odd_spec in Hodd. destruct Hodd as [k Hk].
      rewrite (unhexlify_odd k s); [reflexivity|lia].
    + now rewrite (unhexlify_not_hex s 0 Hnone).
Qed.

End UtilsStrings.

Section UtilsChecksum.
Variable keccak256 : list Z -> list Z.

(** What the loop of [checksum_encode] does to one character. *)
Lemma char_case_facts (c : Ascii.ascii) :
  utils.lower_char (utils.lower_char c) = utils.lower_char c /\
  utils.lower_char (utils.upper_char c) = utils.lower_char c /\
  utils.upper_char (utils.upper_char c) = utils.upper_char c /\
  utils.is_decimal_digit (utils.upper_char c) = utils.is_decimal_digit c /\
  utils.is_decimal_digit (utils.lower_char c) = utils.is_decimal_digit c.
Proof.
  destruct c as [[] [] [] [] [] [] [] []]; vm_compute; repeat split.
Qed.

Lemma lower_checksum_chars (s : string) :
  forall v i, utils.lower (utils.checksum_chars v i s) = utils.lower s.
Proof.
  induction s as [|c s IH]; intros v i; [reflexivity|].
  cbn [utils.checksum_chars utils.lower]. rewrite IH. f_equal.
  destruct (char_case_facts c) as (Hll & Hlu & _).
  destruct (utils.is_decimal_digit c); [reflexivity|].
  now destruct (negb _).
Qed.

Lemma checksum_chars_idempotent (s : string) :
  forall v i,
    utils.checksum_chars v i (utils.checksum_chars v i s)
    = utils.checksum_chars v i s.
Proof.
  induction s as [|c s IH]; intros v i; [reflexivity|].
  cbn [utils.checksum_chars]. rewrite IH. f_equal.
  destruct (char_case_facts c) as (Hll & Hlu & Huu & Hdu & Hdl).
  destruct (utils.is_decimal_digit c) eqn:Hd; cbv iota; [now rewrite Hd|].
  destruct (negb _); cbv iota.
  - now rewrite Hdu, Huu.
  - now rewrite Hdl, Hll.
Qed.

Lemma checksum_chars_length (s : string) :
  forall v i, String.length (utils.checksum_chars v i s) = String.length s.
Proof.
  induction s as [|c s IH]; intros v i; [reflexivity|].
  cbn [utils.checksum_chars String.length]. now rewrite IH.
Qed.

Lemma prefixed_address (addr : string) :
  String.eqb (utils.first_two addr) "0x" = true ->
  addr = "0x" ++ utils.after_two addr.
Proof.
  intros Hpre. apply String.eqb_eq in Hpre.
  destruct addr as [|a [|b rest]]; [discriminate|discriminate|].
  rewrite after_two_skip.
  unfold utils.first_two in Hpre. cbn [String.substring] in Hpre.
  injection Hpre as -> -> _. reflexivity.
Qed.

(** X14: the address that [checksum_encode] returns is a fixed point of
    it, so [is_checksum_encoded] accepts it; it has the 42 characters of
    the input and differs from the input at most in the case of its
    letters. *)
Theorem checksum_encode_is_fixed_point (addr encoded : string) :
  ascii_only addr = true ->
  utils.checksum_encode keccak256 addr = utils.Returns encoded ->
  utils.checksum_encode keccak256 encoded = utils.Returns encoded /\
  utils.is_checksum_encoded keccak256 encoded = utils.Returns true /\
  String.length encoded = 42%nat /\
  utils.lower encoded = utils.lower addr.
Proof.
  intros _ Henc.
  assert (Hshape : String.eqb (utils.first_two addr) "0x" = true /\
                   String.length addr = 42%nat /\
                   encoded = "0x" ++ utils.checksum_chars
                       (utils.bytes_to_int
                          (keccak256 (util.bytes_of_str
                                        (utils.lower (utils.after_two addr)))))
                       0 (utils.after_two addr)).
  { unfold utils.checksum_encode in Henc.
    destruct (String.eqb (utils.first_two addr) "0x") eqn:Hpre; [|discriminate].
    destruct (String.length addr =? 42)%nat eqn:Hlen; [|discriminate].
    cbn [andb] in Henc. injection Henc as <-.
    apply Nat.eqb_eq in Hlen. now repeat split. }
  destruct Hshape as (Hpre & Hlen & Hencoded).
  set (rest := utils.after_two addr) in *.
  set (v := utils.bytes_to_int _) in Hencoded.
  assert (Haddr : addr = "0x" ++ rest) by now apply prefixed_address.
  assert (Hrest : String.length rest = 40%nat).
  { rewrite Haddr in Hlen. cbn [String.append String.length] in Hlen.
    change (S (S (String.length rest)) = 42%nat) in Hlen. lia. }
  assert (Hafter : utils.after_two encoded = utils.checksum_chars v 0 rest).
  { rewrite Hencoded. exact (after_two_skip _ _ _). }
  assert (Hlen' : String.length encoded = 42%nat).
  { rewrite Hencoded.
    change (S (S (String.length (utils.checksum_chars v 0 rest))) = 42%nat).
    rewrite checksum_chars_length. lia. }
  assert (Hfix : utils.checksum_encode keccak256 encoded = utils.Returns encoded).
  { unfold utils.checksum_encode.
    replace (String.eqb (utils.first_two encoded) "0x") with true
      by (rewrite Hencoded; now destruct (utils.checksum_chars v 0 rest)).
    rewrite Hlen'. cbn [Nat.eqb andb].
    rewrite Hafter, lower_checksum_chars. fold v.
    rewrite checksum_chars_idempotent. now rewrite <- Hencoded. }
  repeat split.
  - exact Hfix.
  - unfold utils.is_checksum_encoded. rewrite Hfix. now rewrite String.eqb_refl.
  - exact Hlen'.
  - rewrite Hencoded, Haddr.
    change (utils.lower ("0x" ++ utils.checksum_chars v 0 rest))
      with ("0x" ++ utils.lower (utils.checksum_chars v 0 rest)).
    now rewrite lower_checksum_chars.
Qed.

End UtilsChecksum.

Section UtilsCollections.
Context {A : Type} `{EqDecision A}.

Implicit Types (x y : A) (seq seen self other : list A).

Lemma contains_true x l : contains x l = true <-> x ∈ l.
Proof. apply bool_decide_eq_true. Qed.

Lemma contains_false x l : contains x l = false <-> x ∉ l.
Proof. apply bool_decide_eq_false. Qed.

Lemma contains_ext x l1 l2 :
  (x ∈ l1 <-> x ∈ l2) -> contains x l1 = contains x l2.
Proof. intros Hext. unfold contains. now apply bool_decide_ext. Qed.

Lemma list_filter_all (f : A -> bool) l :
  (forall x, x ∈ l -> f x = true) -> List.filter f l = l.
Proof.
  induction l as [|x l IH]; intros Hf; [reflexivity|].
  cbn [List.filter]. rewrite (Hf x) by now left.
  f_equal. apply IH. intros y Hy. apply Hf. now right.
Qed.

Lemma list_filter_twice (f g : A -> bool) l :
  List.filter f (List.filter g l) = List.filter (fun x => g x && f x) l.
Proof.
  induction l as [|x l IH]; [reflexivity|].
  cbn [List.filter]. destruct (g x); cbn [List.filter andb]; [|exact IH].
  destruct (f x); now rewrite IH.
Qed.

Lemma elem_of_list_filter (f : A -> bool) l x :
  x ∈ List.filter f l <-> x ∈ l /\ f x = true.
Proof. rewrite !list_elem_of_In. apply List.filter_In. Qed.

Lemma NoDup_list_filter (f : A -> bool) l : NoDup l -> NoDup (List.filter f l).
Proof.
  induction 1 as [|x l Hx Hl IH]; [constructor|].
  cbn [List.filter]. destruct (f x); [|exact IH].
  constructor; [|exact IH]. rewrite elem_of_list_filter. tauto.
Qed.

(** *** [uniq] *)

Lemma uniq_from_ext seq :
  forall seen seen', (forall x, x ∈ seen <-> x ∈ seen') ->
                     utils.uniq_from seen seq = utils.uniq_from seen' seq.
Proof.
  induction seq as [|x seq IH]; intros seen seen' Hext; [reflexivity|].
  cbn [utils.uniq_from]. rewrite (contains_ext x seen seen' (Hext x)).
  destruct (contains x seen'); [now apply IH|].
  f_equal. apply IH. intros y. rewrite !elem_of_cons, Hext. tauto.
Qed.

Lemma elem_of_uniq_from seq :
  forall seen x, x ∈ utils.uniq_from seen seq <-> x ∈ seq /\ x ∉ seen.
Proof.
  induction seq as [|a seq IH]; intros seen x; cbn [utils.uniq_from].
  - rewrite elem_of_nil. tauto.
  - destruct (contains a seen) eqn:Ha.
    + apply contains_true in Ha. rewrite IH, elem_of_cons.
      split; [tauto|]. intros [[->|Hx] Hn]; [contradiction|tauto].
    + apply contains_false in Ha. rewrite !elem_of_cons, IH, elem_of_cons.
      destruct (decide (x = a)) as [->|Hne]; tauto.
Qed.

Lemma NoDup_uniq_from seq : forall seen, NoDup (utils.uniq_from seen seq).
Proof.
  induction seq as [|a seq IH]; intros seen; cbn [utils.uniq_from];
    [constructor|].
  destruct (contains a seen); [apply IH|].
  constructor; [|apply IH].
  rewrite elem_of_uniq_from, elem_of_cons. tauto.
Qed.

Lemma sublist_uniq_from seq : forall seen, sublist (utils.uniq_from seen seq) seq.
Proof.
  induction seq as [|a seq IH]; intros seen; cbn [utils.uniq_from];
    [constructor|].
  destruct (contains a seen); [apply sublist_cons|apply sublist_skip]; apply IH.
Qed.

Lemma uniq_from_NoDup seq :
  NoDup seq ->
  forall seen, (forall x, x ∈ seq -> x ∉ seen) -> utils.uniq_from seen seq = seq.
Proof.
  induction 1 as [|a seq Ha Hseq IH]; intros seen Hnew; [reflexivity|].
  cbn [utils.uniq_from].
  assert (Hfresh : contains a seen = false).
  { apply contains_false, Hnew. now left. }
  rewrite Hfresh. f_equal. apply IH. intros x Hx.
  rewrite elem_of_cons. intros [->|Hin]; [contradiction|].
  revert Hin. apply Hnew. now right.
Qed.

Lemma uniq_from_filter seq :
  forall seen seen',
    utils.uniq_from (seen' ++ seen) seq
    = List.filter (fun x => negb (contains x seen')) (utils.uniq_from seen seq).
Proof.
  induction seq as [|a seq IH]; intros seen seen'; [reflexivity|].
  cbn [utils.uniq_from].
  destruct (contains a seen) eqn:Ha.
  - apply contains_true in Ha.
    replace (contains a (seen' ++ seen)) with true; [apply IH|].
    symmetry. apply contains_true. rewrite elem_of_app. tauto.
  - apply contains_false in Ha. destruct (contains a seen') eqn:Ha'.
    + apply contains_true in Ha'.
      replace (contains a (seen' ++ seen)) with true
        by (symmetry; apply contains_true; rewrite elem_of_app; tauto).
      cbn [List.filter].
      replace (contains a seen') with true by (symmetry; now apply contains_true).
      cbn [negb]. rewrite <- IH. apply uniq_from_ext. intros y.
      rewrite !elem_of_app, elem_of_cons. split; [tauto|].
      intros [Hy|[->|Hy]]; tauto.
    + apply contains_false in Ha'.
      replace (contains a (seen' ++ seen)) with false
        by (symmetry; apply contains_false; rewrite elem_of_app; tauto).
      cbn [List.filter].
      replace (contains a seen') with false by (symmetry; now apply contains_false).
      cbn [negb]. f_equal. rewrite <- IH. apply uniq_from_ext. intros y.
      rewrite elem_of_cons, !elem_of_app, elem_of_cons. tauto.
Qed.

(** X15: [uniq] yields each item of the sequence once, in the order of
    the sequence, and nothing else; a sequence without repetitions comes
    out as it is. *)
Theorem uniq_yields_each_item_once seq :
  NoDup (utils.uniq seq) /\
  (forall x, x ∈ utils.uniq seq <-> x ∈ seq) /\
  sublist (utils.uniq seq) seq /\
  (NoDup seq -> utils.uniq seq = seq).
Proof.
  unfold utils.uniq. split; [apply NoDup_uniq_from|]. split; [|split].
  - intros x. rewrite elem_of_uniq_from. split; [tauto|].
    intros Hx. split; [exact Hx|apply not_elem_of_nil].
  - apply sublist_uniq_from.
  - intros Hseq. apply uniq_from_NoDup; [exact Hseq|].
    intros x _. apply not_elem_of_nil.
Qed.

(** *** [OrderedSet] *)

Lemma update_uniq_from other :
  forall self, utils.update self other = (self ++ utils.uniq_from self other)%list.
Proof.
  induction other as [|a other IH]; intros self.
  - cbn. now rewrite app_nil_r.
  - change (utils.update self (a :: other))
      with (utils.update (utils.add self a) other).
    rewrite IH. unfold utils.add. cbn [utils.uniq_from].
    destruct (contains a self); [reflexivity|].
    rewrite <- app_assoc. cbn [app]. do 2 f_equal.
    apply uniq_from_ext. intros y.
    rewrite elem_of_app, !elem_of_cons, elem_of_nil. tauto.
Qed.

(** X16: [update] (and with it [addmany], [__ior__], [__or__] and
    [union]) leaves the items of the set where they are and appends the
    items of [other] that the set does not have, each once, in the order
    of their first occurrence; [OrderedSet(iterable)] holds the items that
    [uniq] yields, in that order. *)
Theorem update_appends_new_items self other :
  utils.update self other
  = (self ++ List.filter (fun x => negb (contains x self)) (utils.uniq other))%list
  /\ utils.union self other = utils.update self other
  /\ utils.from_iterable other = utils.uniq other.
Proof.
  split; [|split].
  - rewrite update_uniq_from. f_equal. unfold utils.uniq.
    rewrite <- uniq_from_filter. now rewrite app_nil_r.
  - reflexivity.
  - exact (update_uniq_from other []).
Qed.

Lemma dropmany_filter other :
  forall self,
    utils.dropmany self other
    = List.filter (fun x => negb (contains x other)) self.
Proof.
  induction other as [|a other IH]; intros self.
  - cbn [utils.dropmany fold_left]. symmetry. apply list_filter_all.
    intros x _. apply negb_true_iff, contains_false, not_elem_of_nil.
  - change (utils.dropmany self (a :: other))
      with (utils.dropmany (utils.discard self a) other).
    rewrite IH. unfold utils.discard. rewrite list_filter_twice.
    apply List.filter_ext. intros x.
    apply eq_iff_eq_true.
    rewrite andb_true_iff, !negb_true_iff, bool_decide_eq_false, !contains_false.
    rewrite not_elem_of_cons. tauto.
Qed.

(** X17: [dropmany] (and with it [__isub__], [__sub__] and [difference])
    keeps, in their order, the items of the set that are not in [other];
    [discard] of an item the set does not have changes nothing, where
    [remove] raises KeyError. *)
Theorem difference_keeps_the_other_items self other :
  utils.difference self other
  = List.filter (fun x => negb (contains x other)) self
  /\ (forall x, x ∉ self ->
                utils.discard self x = self /\
                utils.remove self x = utils.Raises utils.KeyError)
  /\ (forall x, x ∈ self -> utils.remove self x = utils.Returns (utils.discard self x)).
Proof.
  split; [apply dropmany_filter|]. split.
  - intros x Hx. split.
    + unfold utils.discard. apply list_filter_all. intros y Hy.
      apply negb_true_iff, bool_decide_eq_false. now intros ->.
    + unfold utils.remove. now replace (contains x self) with false
        by (symmetry; now apply contains_false).
  - intros x Hx. unfold utils.remove. now replace (contains x self) with true
      by (symmetry; now apply contains_true).
Qed.

End UtilsCollections.

Section UtilsOrderedSet.
Context {A : Type} `{EqDecision A}.

Implicit Types (x y : A) (self other : list A).

Lemma NoDup_update self other : NoDup self -> NoDup (utils.update self other).
Proof.
  intros Hself. rewrite update_uniq_from. apply NoDup_app.
  split; [exact Hself|]. split; [|apply NoDup_uniq_from].
  intros x Hx. rewrite elem_of_uniq_from. tauto.
Qed.

Lemma elem_of_update self other x :
  x ∈ utils.update self other <-> x ∈ self \/ x ∈ other.
Proof.
  rewrite update_uniq_from, elem_of_app, elem_of_uniq_from.
  destruct (decide (x ∈ self)); tauto.
Qed.

(** X18: the keys of an [OrderedSet] stay distinct under [add],
    [update], [discard] and [dropmany], and these change the membership
    as the operations of a set do. *)
Theorem ordered_set_keys_stay_distinct self other y :
  NoDup self ->
  (NoDup (utils.add self y) /\
   NoDup (utils.update self other) /\
   NoDup (utils.discard self y) /\
   NoDup (utils.dropmany self other)) /\
  (forall x,
      (x ∈ utils.add self y <-> x ∈ self \/ x = y) /\
      (x ∈ utils.update self other <-> x ∈ self \/ x ∈ other) /\
      (x ∈ utils.discard self y <-> x ∈ self /\ x <> y) /\
      (x ∈ utils.dropmany self other <-> x ∈ self /\ x ∉ other)).
Proof.
  intros Hself. split.
  - split; [|split; [|split]].
    + exact (NoDup_update self [y] Hself).
    + now apply NoDup_update.
    + now apply NoDup_list_filter.
    + rewrite dropmany_filter. now apply NoDup_list_filter.
  - intros x. split; [|split; [|split]].
    + change (utils.add self y) with (utils.update self [y]).
      rewrite elem_of_update, elem_of_cons, elem_of_nil. tauto.
    + apply elem_of_update.
    + unfold utils.discard.
      rewrite elem_of_list_filter, negb_true_iff, bool_decide_eq_false. tauto.
    + rewrite dropmany_filter, elem_of_list_filter, negb_true_iff, contains_false.
      tauto.
Qed.

(** X19: an item the set does not have is added at the end, where [last]
    finds it and from where [pop] and [remove] take it away again, giving
    the set back; adding an item the set has leaves the set as it is, the
    item keeping its place. *)
Theorem add_then_pop self y :
  (y ∉ self ->
   utils.last (utils.add self y) = utils.Returns y /\
   utils.pop (utils.add self y) = utils.Returns (y, self) /\
   utils.remove (utils.add self y) y = utils.Returns self) /\
  (y ∈ self -> utils.add self y = self).
Proof.
  split.
  - intros Hy.
    assert (Hadd : utils.add self y = (self ++ [y])%list).
    { unfold utils.add. now replace (contains y self) with false
        by (symmetry; now apply contains_false). }
    rewrite Hadd. unfold utils.last, utils.pop, utils.remove.
    rewrite rev_app_distr. cbn [rev app]. rewrite rev_involutive.
    split; [reflexivity|]. split; [reflexivity|].
    replace (contains y (self ++ [y])) with true
      by (symmetry; apply contains_true; rewrite elem_of_app, elem_of_cons; tauto).
    f_equal. unfold utils.discard. rewrite List.filter_app. cbn [List.filter].
    rewrite bool_decide_true by reflexivity. cbn [negb]. rewrite app_nil_r.
    apply list_filter_all. intros x Hx.
    apply negb_true_iff, bool_decide_eq_false. now intros ->.
  - intros Hy. unfold utils.add.
    now replace (contains y self) with true by (symmetry; now apply contains_true).
Qed.

(** X20: [first], [last] and [pop] fail on the empty set, with
    StopIteration for the first two and KeyError for [pop]; on a set with
    items [pop] takes the item that [last] returns and leaves the others
    in their order. *)
Theorem pop_takes_the_last_item self :
  (self = [] ->
   utils.first self = utils.Raises utils.StopIteration /\
   utils.last self = utils.Raises utils.StopIteration /\
   utils.pop self = utils.Raises utils.KeyError) /\
  (self <> [] ->
   exists x before,
     self = (before ++ [x])%list /\
     utils.last self = utils.Returns x /\
     utils.pop self = utils.Returns (x, before)).
Proof.
  split.
  - intros ->. repeat split.
  - intros Hne. destruct (exists_last Hne) as (before & x & ->).
    exists x, before. unfold utils.last, utils.pop.
    rewrite rev_app_distr. cbn [rev app]. now rewrite rev_involutive.
Qed.

(** X21: [__eq__] compares two sets as sets: it does not see the order
    of insertion. *)
Theorem eq_ignores_order self other :
  NoDup self -> NoDup other ->
  (utils.__eq__ self other = true <-> self ≡ₚ other).
Proof.
  intros Hself Hother. unfold utils.__eq__.
  rewrite andb_true_iff, Nat.eqb_eq, forallb_forall. split.
  - intros [Hlen Hsub].
    apply submseteq_length_Permutation; [|lia].
    apply NoDup_submseteq; [exact Hself|].
    intros x Hx. apply contains_true, Hsub. now apply list_elem_of_In.
  - intros Hperm. split; [now rewrite Hperm|].
    intros x Hx. apply contains_true. rewrite <- Hperm.
    now apply list_elem_of_In.
Qed.

End UtilsOrderedSet.

(* ===================================================================== *)
(** ** Further properties of the statement lowering *)
(* ===================================================================== *)

Section StmtFurther.
Context {UP : Upstream} {EL : ExprLowering} {IA : IRAnalysis} {CO : Core}
        {CX : ContextOps} {AE : AbiEncoder} {EM : Emitters} {HA : Hash}.

(** A computation that returned went through its first step. *)
Lemma bind_Ok_inv {A B} (m : M A) (k : A -> M B) c b c' :
  bind m k c = (Ok b, c') ->
  exists a c1, m c = (Ok a, c1) /\ k a c1 = (Ok b, c').
Proof.
  unfold bind. destruct (m c) as [[a|e] c1]; [|discriminate].
  intros Hk. now exists a, c1.
Qed.

Ltac bind_inv H :=
  let a := fresh "a" in
  let c1 := fresh "c" in
  let E := fresh "E" in
  apply bind_Ok_inv in H; destruct H as (a & c1 & E & H); cbv beta in H.

Tactic Notation "invert_bind" hyp(H) "as" ident(a) ident(c1) ident(E) :=
  apply bind_Ok_inv in H; destruct H as (a & c1 & E & H); cbv beta in H.

(** *** Provenance *)

(** [Stmt.__init__] writes the statement into the node it keeps. *)
Lemma Stmt_init_source (node : vy_ast.stmt) (fn : M IRnode) c n c' :
  Stmt_init node fn c = (Ok n, c') ->
  ast_source n = Some node /\ annotation n = node_source_code node.
Proof.
  unfold Stmt_init. intros H. bind_inv H.
  injection H as <- _. now split.
Qed.

Lemma parse_stmt_source (s : vy_ast.stmt) c n c' :
  parse_stmt s c = (Ok n, c') ->
  ast_source n = Some s /\ annotation n = node_source_code s.
Proof. destruct s; apply Stmt_init_source. Qed.

Lemma lower_stmts_source (code : list vy_ast.stmt) :
  forall c irs c',
    lower_stmts code c = (Ok irs, c') ->
    Forall2 (fun s n => ast_source n = Some s /\ annotation n = node_source_code s)
            code irs.
Proof.
  induction code as [|s code IH]; intros c irs c' H; cbn [lower_stmts] in H.
  - injection H as <- _. constructor.
  - bind_inv H. bind_inv H. injection H as <- _.
    constructor; [now apply parse_stmt_source in E|now apply IH in E0].
Qed.

(** X22: the node that [parse_body] returns is a [seq] with one child
    for each statement, in the order of the statements, each child
    carrying its statement as [ast_source] and the statement's source
    text as [annotation]; then, only when termination was asked for, at
    most one node for an implicit bare [return]; and last the no-op
    [pass]. *)
Theorem parse_body_children_trace_statements
        (code : list vy_ast.stmt) (ensure_terminated : bool) c n c' :
  parse_body code ensure_terminated c = (Ok n, c') ->
  exists irs extra,
    n = ir "seq" (irs ++ extra ++ [ir_str "pass"]) /\
    Forall2 (fun s i => ast_source i = Some s /\ annotation i = node_source_code s)
            code irs /\
    (extra = [] \/
     ensure_terminated = true /\
     exists r, extra = [r] /\ ast_source r = Some (vy_ast.Return None)).
Proof.
  unfold parse_body. intros H. bind_inv H. rename a into irs.
  apply lower_stmts_source in E. rewrite bind_get in H.
  bind_inv H. injection H as <- _.
  destruct (ensure_terminated && bool_decide (return_type c0 = None)) eqn:Hens.
  - apply andb_true_iff in Hens. destruct Hens as [-> _].
    bind_inv E0. destruct (negb a0).
    + bind_inv E0. injection E0 as <- _.
      exists irs, [a1]. unfold body_seq. rewrite <- app_assoc.
      split; [reflexivity|]. split; [exact E|]. right. split; [reflexivity|].
      exists a1. split; [reflexivity|]. now apply parse_stmt_source in E2.
    + injection E0 as <- _. exists irs, []. now repeat split; [|left].
  - injection E0 as <- _. exists irs, []. now repeat split; [|left].
Qed.

(** *** Order of lowering *)

Lemma lower_stmts_app (a b : list vy_ast.stmt) :
  forall c,
    lower_stmts (a ++ b) c
    = (irs <- lower_stmts a ;; irs' <- lower_stmts b ;; ret (irs ++ irs')%list) c.
Proof.
  induction a as [|s a IH]; intros c; cbn [app lower_stmts].
  - rewrite bind_ret. unfold bind. now destruct (lower_stmts b c) as [[?|?] ?].
  - unfold bind.
    destruct (parse_stmt s c) as [[n|e] c1]; [|reflexivity].
    rewrite IH. unfold bind.
    destruct (lower_stmts a c1) as [[irs|e] c2]; [|reflexivity].
    unfold ret. now destruct (lower_stmts b c2) as [[?|?] ?].
Qed.

(** X23: the statements of a body are lowered from left to right, each
    in the Context that the one before it left; the first statement that
    fails ends the lowering with its fault, and the statements after it
    are not lowered. *)
Theorem lowering_is_sequential (a : list vy_ast.stmt) c irs c1 :
  lower_stmts a c = (Ok irs, c1) ->
  (forall b irs' c2,
      lower_stmts b c1 = (Ok irs', c2) ->
      parse_body (a ++ b) false c = (Ok (body_seq (irs ++ irs')), c2)) /\
  (forall s rest ensure_terminated e c2,
      parse_stmt s c1 = (Err e, c2) ->
      parse_body (a ++ s :: rest) ensure_terminated c = (Err e, c2)).
Proof.
  intros Ha. split.
  - intros b irs' c2 Hb. unfold parse_body.
    assert (Hab : lower_stmts (a ++ b) c = (Ok (irs ++ irs')%list, c2)).
    { rewrite lower_stmts_app. now steps. }
    now steps.
  - intros s rest ensure_terminated e c2 Hs. unfold parse_body.
    assert (Hab : lower_stmts (a ++ s :: rest) c = (Err e, c2)).
    { rewrite lower_stmts_app. steps. cbn [lower_stmts]. now steps. }
    now steps.
Qed.

(** *** Assignment targets *)

Lemma existsb_negb_false {X} (f : X -> bool) (l : list X) :
  existsb (fun x => negb (f x)) l = false -> forallb f l = true.
Proof.
  induction l as [|x l IH]; [reflexivity|]. cbn [existsb forallb].
  destruct (f x); cbn [negb orb andb]; [exact IH|discriminate].
Qed.

(** X24: a target that [_get_target] returns is writeable in the Context
    it is returned in; for a tuple target every item of the tuple is.
    A bare name that is returned is no active loop variable. *)
Theorem target_is_writeable (target : vy_ast.expr) c n c' :
  _get_target target c = (Ok n, c') ->
  match target with
  | vy_ast.Tuple _ => forallb (writeable c') (args n) = true
  | vy_ast.Name id => writeable c' n = true /\ forvars c !! id = None
  | _ => writeable c' n = true
  end.
Proof.
  unfold _get_target. rewrite bind_get.
  assert (Hptr : forall e,
             (target0 <- parse_pointer_expr e ;;
              c0 <- get ;;
              if negb (writeable c0 target0) then constancy_check_failed
              else ret target0) c = (Ok n, c') ->
             writeable c' n = true).
  { intros e H. bind_inv H. rewrite bind_get in H.
    destruct (writeable c0 a) eqn:Hw; [|discriminate].
    now injection H as <- <-. }
  destruct target; try exact (Hptr _).
  - destruct (bool_decide (is_Some (forvars c !! id))) eqn:Hfor; [discriminate|].
    intros H. split; [now apply Hptr in H|].
    apply bool_decide_eq_false in Hfor.
    destruct (forvars c !! id); [|reflexivity].
    exfalso. apply Hfor. now eexists.
  - intros H. bind_inv H. rewrite bind_get in H.
    destruct (existsb _ (args a)) eqn:Hall; [discriminate|].
    injection H as <- <-. now apply existsb_negb_false.
Qed.


(** *** Events *)



(** *** Range loops *)

Lemma mapM_length {X Y} (f : X -> M Y) (l : list X) :
  forall c ys c', mapM f l c = (Ok ys, c') -> List.length ys = List.length l.
Proof.
  induction l as [|x l IH]; intros c ys c' H; cbn [mapM] in H.
  - now injection H as <- _.
  - bind_inv H. bind_inv H. injection H as <- _.
    cbn [List.length]. f_equal. now apply IH in E0.
Qed.

Lemma lower_keywords_keys (keywords : list (string * vy_ast.expr)) :
  forall kwargs c m c' k,
    lower_keywords keywords kwargs c = (Ok m, c') ->
    k ∈ List.map fst keywords \/ is_Some (kwargs !! k) ->
    is_Some (m !! k).
Proof.
  induction keywords as [|[arg v] keywords IH]; intros kwargs c m c' k H Hk;
    cbn [lower_keywords] in H.
  - injection H as <- _. destruct Hk as [Hk|Hk]; [|exact Hk].
    cbn in Hk. now apply elem_of_nil in Hk.
  - bind_inv H. apply (IH _ _ _ _ k) in H; [exact H|].
    cbn [List.map fst] in Hk. rewrite elem_of_cons in Hk.
    destruct (decide (k = arg)) as [->|Hne].
    + right. rewrite lookup_insert_eq. now eexists.
    + destruct Hk as [[Hk|Hk]|Hk]; [contradiction|now left|].
      right. now rewrite lookup_insert_ne.
Qed.

(** X27: the sanity checks of [_parse_For_range].  A range call whose
    arguments are lowered and are neither one nor two fails with
    TypeCheckFailure; a range call with a keyword other than [bound]
    fails whatever its arguments are, and whatever the loop body is:
    the body is not lowered. *)
Theorem range_call_sanity_checks
        (varname : string) (target_type : VyperType)
        (range_args : list vy_ast.expr) (keywords : list (string * vy_ast.expr))
        (body : M IRnode) (c : Context) :
  (forall args c1,
      mapM parse_value_expr range_args (cm_enter range_scope c) = (Ok args, c1) ->
      List.length range_args <> 1%nat ->
      List.length range_args <> 2%nat ->
      fst (_parse_For_range varname target_type range_args keywords body c)
      = Err (raise_ TypeCheckFailure "unreachable")) /\
  (forall k,
      k ∈ List.map fst keywords ->
      k <> "bound" ->
      (exists e,
          fst (_parse_For_range varname target_type range_args keywords body c)
          = Err e) /\
      forall body',
        _parse_For_range varname target_type range_args keywords body' c
        = _parse_For_range varname target_type range_args keywords body c).
Proof.
  split.
  - intros args c1 Hargs Hone Htwo.
    apply mapM_length in Hargs as Hlen.
    unfold _parse_For_range, range_endpoints.
    unfold bind at 1. unfold with_. unfold bind at 1. rewrite Hargs.
    destruct args as [|a1 [|a2 [|a3 args]]]; cbn [List.length] in Hlen;
      try (exfalso; lia); reflexivity.
  - intros k Hk Hbound.
    assert (Hstray : forall start start' end_ kwargs c1 c2
                            rounds rounds_bound kwargs' c3,
               range_endpoints target_type range_args keywords c
               = (Ok (start, end_, kwargs), c1) ->
               range_rounds target_type start' end_ kwargs c2
               = (Ok (rounds, rounds_bound, kwargs'), c3) ->
               bool_decide (kwargs' = ∅) = false).
    { intros start start' end_ kwargs c1 c2 rounds rounds_bound kwargs' c3
             Hends Hrounds.
      assert (Hin : is_Some (kwargs !! k)).
      { unfold range_endpoints, with_ in Hends.
        destruct (bind _ _ (cm_enter range_scope c)) as [[r|e] c0] eqn:Hin;
          [|discriminate].
        injection Hends as -> _.
        invert_bind Hin as args0 c4 Hargs. invert_bind Hin as se c5 Hse.
        invert_bind Hin as lowered c6 Hkw. injection Hin as _ _ <- _.
        apply (lower_keywords_keys _ _ _ _ _ k) in Hkw; [exact Hkw|now left]. }
      assert (Hin' : is_Some (kwargs' !! k)).
      { unfold range_rounds in Hrounds.
        destruct (kwargs !! "bound") as [bound|].
        - destruct (cache_when_complex end_ "end") as [b2 end'].
          invert_bind Hrounds as signed c4 Hsigned.
          invert_bind Hrounds as bound_value c5 Hvalue.
          injection Hrounds as _ _ <- _.
          now rewrite lookup_delete_ne by (intros Heq; now apply Hbound).
        - invert_bind Hrounds as e c4 He. invert_bind Hrounds as s0 c5 Hs.
          now injection Hrounds as _ _ <- _. }
      apply bool_decide_eq_false. intros ->.
      rewrite lookup_empty in Hin'. now destruct Hin'. }
    assert (Hfails : forall body0,
               _parse_For_range varname target_type range_args keywords body0 c
               = match range_endpoints target_type range_args keywords c with
                 | (Ok (start, end_, kwargs), c1) =>
                     match
                       assert_ (bool_decide (typ start = typ end_)
                                && bool_decide (typ end_ = Some target_type))
                               "start.typ == end.typ == target_type" c1
                     with
                     | (Ok _, c2) =>
                         match range_rounds target_type
                                 (snd (cache_when_complex start "start")) end_ kwargs c2
                         with
                         | (Ok _, c3) =>
                             (Err (raise_ AssertionError "len(kwargs) == 0"), c3)
                         | (Err e, c3) => (Err e, c3)
                         end
                     | (Err e, c2) => (Err e, c2)
                     end
                 | (Err e, c1) => (Err e, c1)
                 end).
    { intros body0. unfold _parse_For_range. unfold bind at 1.
      destruct (range_endpoints target_type range_args keywords c)
        as [[[[start end_] kwargs]|e] c1] eqn:Hends; [|reflexivity].
      cbv beta iota. unfold bind at 1.
      destruct (assert_ _ _ c1) as [[[]|e] c2]; [|reflexivity].
      cbv beta iota.
      destruct (cache_when_complex start "start") as [b1 start'].
      cbn [snd]. cbv beta iota. unfold bind at 1.
      destruct (range_rounds target_type start' end_ kwargs c2)
        as [[[[rounds rounds_bound] kwargs']|e] c3] eqn:Hrounds; [|reflexivity].
      cbv beta iota. unfold bind at 1.
      now rewrite (Hstray _ _ _ _ _ _ _ _ _ _ eq_refl Hrounds). }
    split.
    + rewrite Hfails.
      destruct (range_endpoints target_type range_args keywords c)
        as [[[[start end_] kwargs]|e] c1]; [|now eexists].
      destruct (assert_ _ _ c1) as [[[]|e] c2]; [|now eexists].
      destruct (range_rounds _ _ _ _ c2) as [[?|e] c3]; now eexists.
    + intros body'. now rewrite (Hfails body'), (Hfails body).
Qed.

(** *** Loop variables *)

Lemma forvars_del_released (varname : string) c u c' :
  forvars_del varname c = (Ok u, c') -> forvars c' !! varname = None.
Proof.
  unfold forvars_del. destruct (forvars c !! varname); [|discriminate].
  intros [= _ <-]. cbn. apply lookup_delete_eq.
Qed.

(** X28: when the lowering of a loop returns, the name of its variable
    is no longer among the active loop variables of the Context: the
    entry is deleted, not restored, so this holds also when the name was
    there before the loop. *)
Theorem loop_variable_is_released
        (varname : string) (target_type : VyperType) (body : M IRnode) c n c' :
  (forall iter,
      _parse_For_list varname target_type iter body c = (Ok n, c') ->
      forvars c' !! varname = None) /\
  (forall range_args keywords,
      _parse_For_range varname target_type range_args keywords body c = (Ok n, c') ->
      forvars c' !! varname = None).
Proof.
  split.
  - intros iter H. unfold _parse_For_list in H.
    invert_bind H as iter_list c1 E1. invert_bind H as iter_typ c2 E2.
    invert_bind H as vt c3 E3. invert_bind H as u4 c4 E4.
    invert_bind H as loop_var c5 E5. invert_bind H as i_name c6 E6.
    invert_bind H as u7 c7 E7. invert_bind H as staged c8 E8.
    destruct staged as [ret_ iter_list0].
    destruct (cache_when_complex iter_list0 "list_iter") as [b1 iter_list'].
    invert_bind H as b c9 E9. invert_bind H as list_typ c10 E10.
    invert_bind H as repeat_bound c11 E11. invert_bind H as u12 c12 E12.
    injection H as _ <-. now apply forvars_del_released in E12.
  - intros range_args keywords H. unfold _parse_For_range in H.
    invert_bind H as endpoints c1 E1. destruct endpoints as [[start end_] kwargs].
    invert_bind H as u2 c2 E2.
    destruct (cache_when_complex start "start") as [b1 start'].
    invert_bind H as counts c3 E3.
    destruct counts as [[rounds rounds_bound] kwargs'].
    invert_bind H as u4 c4 E4.
    destruct (rounds_bound <? 1); [discriminate|].
    invert_bind H as i_name c5 E5. invert_bind H as iptr c6 E6.
    invert_bind H as u7 c7 E7. invert_bind H as b c8 E8. invert_bind H as u9 c9 E9.
    injection H as _ <-. now apply forvars_del_released in E9.
Qed.

End StmtFurther.

(* ===================================================================== *)
(** ** The further theorems at work *)
(* ===================================================================== *)

Section UtilsExamples.

(** The bytes [01 02 03]. *)
Lemma bytes_to_int_big_endian_value_witness :
  utils.bytes_to_int ([1; 2] ++ [3])
  = utils.bytes_to_int [1; 2] * 256 ^ Z.of_nat (List.length [3])
    + utils.bytes_to_int [3].
Proof.
  refine (proj1 (bytes_to_int_big_endian_value [1; 2] [3] _ _));
    repeat (constructor; [unfold utils.is_byte; lia|]); constructor.
Defined.

(** The selector of [Error(string)], 0x08c379a0. *)
Lemma fourbytes_round_trip_witness :
  utils.int_to_fourbytes 147028384 = utils.Returns [8; 195; 121; 160].
Proof.
  apply (proj1 (proj2 (fourbytes_round_trip 147028384 8 195 121 160))).
  - repeat (constructor; [unfold utils.is_byte; lia|]); constructor.
  - vm_compute. reflexivity.
Defined.

(** [-1] as a byte and back. *)
Lemma signed_unsigned_round_trip_witness :
  exists u,
    utils.signed_to_unsigned (-1) 8 true = utils.Returns u /\
    0 <= u <= 2 ^ 8 - 1 /\
    utils.unsigned_to_signed u 8 true = utils.Returns (-1).
Proof.
  assert (Hbits : 1 <= 8) by lia.
  assert (Hrange : - 2 ^ (8 - 1) <= -1 <= 2 ^ (8 - 1) - 1) by (vm_compute; split; discriminate).
  exact (proj1 (signed_unsigned_round_trip (-1) 8 Hbits) Hrange).
Defined.

(** The logarithm of a power of two is exact. *)
Lemma int_log2_is_floor_log2_witness : 2 ^ utils.int_log2 8 = 8.
Proof.
  apply (proj1 (proj2 (int_log2_is_floor_log2 8))). reflexivity.
Defined.

Lemma evm_not_is_complement_witness :
  utils.evm_not 5 = utils.Returns (utils.SizeLimits.MAX_UINT256 - 5).
Proof.
  assert (Hword : 0 <= 5 <= utils.SizeLimits.MAX_UINT256)
    by (vm_compute; split; discriminate).
  exact (proj1 (proj1 (evm_not_is_complement 5) Hword)).
Defined.

Lemma evm_twos_complement_negates_witness :
  utils.evm_twos_complement 1 = 2 ^ 256 - 1.
Proof.
  assert (Hword : 0 <= 1 <= utils.SizeLimits.MAX_UINT256)
    by (vm_compute; split; discriminate).
  exact (proj1 (evm_twos_complement_negates 1 Hword)).
Defined.

(** [-7 % 2] on the machine is [-1], where Python gives [1]. *)
Lemma evm_div_mod_truncate_witness : utils.evm_mod (-7) 2 = Z.rem (-7) 2.
Proof.
  assert (Hy : 2 <> 0) by discriminate.
  exact (proj1 (proj2 (proj2 (evm_div_mod_truncate (-7) 2)) Hy)).
Defined.

Lemma evm_pow_wraps_witness :
  utils.evm_pow (-1) 2 = utils.Raises utils.AssertionError.
Proof.
  apply (proj2 (evm_pow_wraps (-1) 2)). left. lia.
Defined.


Lemma hex_to_int_reads_base16_witness :
  utils.hex_to_int "0xfF" = utils.Returns 255 /\
  utils.hex_to_int "0xf" = utils.Raises utils.BinasciiError.
Proof.
  split.
  - exact (proj2 (proj1 (hex_to_int_reads_base16 "fF") 255 eq_refl eq_refl)).
  - apply (proj2 (hex_to_int_reads_base16 "f")); [reflexivity|].
    left. reflexivity.
Defined.

(** An address in lower case, with the digest of the toy contract. *)
Lemma checksum_encode_is_fixed_point_witness :
  exists encoded,
    utils.checksum_encode (@keccak256 Demo.digest)
      "0xd8da6bf26964af9d7eed9e03e53415d37aa96045" = utils.Returns encoded /\
    utils.is_checksum_encoded (@keccak256 Demo.digest) encoded = utils.Returns true.
Proof.
  eexists. split; [vm_compute; reflexivity|].
  eapply (proj1 (proj2 (checksum_encode_is_fixed_point (@keccak256 Demo.digest)
                          "0xd8da6bf26964af9d7eed9e03e53415d37aa96045" _ _ _))).
  Unshelve. all: vm_compute; reflexivity.
Defined.

Lemma uniq_yields_each_item_once_witness : utils.uniq [3; 1; 2] = [3; 1; 2].
Proof.
  apply (proj2 (proj2 (proj2 (uniq_yields_each_item_once [3; 1; 2])))).
  apply NoDup_ListNoDup. repeat constructor; cbn; lia.
Defined.

Lemma difference_keeps_the_other_items_witness :
  utils.discard [1; 2] 3 = [1; 2] /\
  utils.remove [1; 2] 3 = utils.Raises utils.KeyError.
Proof.
  apply (proj1 (proj2 (difference_keeps_the_other_items [1; 2] [])) 3).
  rewrite list_elem_of_In. cbn. lia.
Defined.

Lemma ordered_set_keys_stay_distinct_witness :
  NoDup (utils.update [1; 2] [2; 3; 3]).
Proof.
  assert (Hself : NoDup [1; 2]).
  { apply NoDup_ListNoDup. repeat constructor; cbn; lia. }
  exact (proj1 (proj2 (proj1 (ordered_set_keys_stay_distinct [1; 2] [2; 3; 3] 0 Hself)))).
Defined.

Lemma add_then_pop_witness :
  utils.pop (utils.add [1; 2] 3) = utils.Returns (3, [1; 2]).
Proof.
  apply (proj1 (add_then_pop [1; 2] 3)).
  rewrite list_elem_of_In. cbn. lia.
Defined.

Lemma pop_takes_the_last_item_witness :
  utils.pop (@nil Z) = utils.Raises utils.KeyError.
Proof.
  exact (proj2 (proj2 (proj1 (pop_takes_the_last_item (@nil Z)) eq_refl))).
Defined.

Lemma eq_ignores_order_witness :
  utils.__eq__ [1; 2] [2; 1] = true <-> [1; 2] ≡ₚ [2; 1].
Proof.
  apply eq_ignores_order; apply NoDup_ListNoDup; repeat constructor; cbn; lia.
Defined.

End UtilsExamples.

Section StmtExamples.
Local Existing Instances Demo.upstream Demo.exprs Demo.analysis Demo.core
      Demo.context_ops Demo.abi Demo.emitters Demo.digest.

(** [pass; continue] as the body of a function without a return value:
    the implicit [return] is appended. *)
Lemma parse_body_children_trace_statements_witness :
  exists n c',
    parse_body [vy_ast.Pass; vy_ast.Continue] true Demo.ctx0 = (Ok n, c') /\
    exists irs extra,
      n = ir "seq" (irs ++ extra ++ [ir_str "pass"]) /\
      Forall2 (fun s i => ast_source i = Some s /\ annotation i = node_source_code s)
              [vy_ast.Pass; vy_ast.Continue] irs /\
      (extra = [] \/
       true = true /\
       exists r, extra = [r] /\ ast_source r = Some (vy_ast.Return None)).
Proof.
  eexists. eexists. split; [vm_compute; reflexivity|].
  eapply (parse_body_children_trace_statements
            [vy_ast.Pass; vy_ast.Continue] true Demo.ctx0).
  vm_compute. reflexivity.
Defined.

(** [pass; foo; pass]: the bare name is no statement, and the [pass]
    after it is not reached. *)
Lemma lowering_is_sequential_witness :
  exists e,
    parse_body ([vy_ast.Pass] ++ vy_ast.NameStmt "foo" :: [vy_ast.Pass])
               true Demo.ctx0
    = (Err e, Demo.ctx0) /\
    exc_kind_of e = StructureException.
Proof.
  assert (Ha : exists irs, lower_stmts [vy_ast.Pass] Demo.ctx0 = (Ok irs, Demo.ctx0))
    by (eexists; vm_compute; reflexivity).
  destruct Ha as [irs Ha].
  assert (Hs : parse_stmt (vy_ast.NameStmt "foo") Demo.ctx0
               = (Err (mkException StructureException "Unsupported statement type"
                         (Some "parse_Name")), Demo.ctx0))
    by (vm_compute; reflexivity).
  eexists. split;
    [exact (proj2 (lowering_is_sequential [vy_ast.Pass] Demo.ctx0 irs Demo.ctx0 Ha)
              _ _ _ _ _ Hs)
    |reflexivity].
Defined.

(** [self.x] is a writeable target. *)
Lemma target_is_writeable_witness : writeable Demo.ctx0 Demo.x_node = true.
Proof.
  apply (target_is_writeable Demo.self_x Demo.ctx0 Demo.x_node Demo.ctx0).
  vm_compute. reflexivity.
Defined.



(** [for i in range(): ...] and [for i in range(3, step=2): ...]. *)
Lemma range_call_sanity_checks_witness :
  fst (_parse_For_range "i" UINT256_T [] [] (ret (ir_str "pass")) Demo.ctx0)
  = Err (raise_ TypeCheckFailure "unreachable") /\
  exists e,
    fst (_parse_For_range "i" UINT256_T [vy_ast.Int 3] [("step", vy_ast.Int 2)]
           (ret (ir_str "pass")) Demo.ctx0)
    = Err e.
Proof.
  split.
  - apply (proj1 (range_call_sanity_checks "i" UINT256_T [] []
                    (ret (ir_str "pass")) Demo.ctx0)
             [] (cm_enter range_scope Demo.ctx0)).
    + reflexivity.
    + discriminate.
    + discriminate.
  - apply (proj2 (range_call_sanity_checks "i" UINT256_T [vy_ast.Int 3]
                    [("step", vy_ast.Int 2)] (ret (ir_str "pass")) Demo.ctx0)
             "step").
    + apply list_elem_of_In. cbn. tauto.
    + discriminate.
Defined.

(** [for i in range(3): pass]. *)
Lemma loop_variable_is_released_witness :
  exists n c',
    _parse_For_range "i" UINT256_T [vy_ast.Int 3] [] (ret (ir_str "pass")) Demo.ctx0
    = (Ok n, c') /\
    forvars c' !! "i" = None.
Proof.
  set (body := ret (ir_str "pass") : M IRnode).
  set (zero := set_typ (Some UINT256_T) (ir_int 0)).
  set (three := set_typ (Some UINT256_T) (ir_int 3)).
  set (c2 := Demo.bump_iter Demo.ctx0).
  set (c3 := Demo.allocate "i" UINT256_T c2).
  set (c4 := set_forvars (<["i" := true]> (forvars c3)) c3).
  assert (Hends : range_endpoints UINT256_T [vy_ast.Int 3] [] Demo.ctx0
                  = (Ok (zero, three, ∅), Demo.ctx0))
    by (vm_compute; reflexivity).
  assert (Hrounds : range_rounds UINT256_T (snd (cache_when_complex zero "start"))
                      three ∅ Demo.ctx0
                    = (Ok (ir_int 3, 3, ∅), Demo.ctx0))
    by (vm_compute; reflexivity).
  assert (Hbound : 1 <= 3) by lia.
  assert (Hfresh : fresh_varname "range_ix" Demo.ctx0 = (Ok "range_ix0", c2))
    by (vm_compute; reflexivity).
  assert (Hvar : new_variable "i" UINT256_T c2
                 = (Ok (Demo.var_node "i" UINT256_T MEMORY), c3))
    by (vm_compute; reflexivity).
  assert (Hbody : body c4 = (Ok (ir_str "pass"), c4)) by reflexivity.
  assert (Hfor : is_Some (forvars c4 !! "i"))
    by (exists true; vm_compute; reflexivity).
  pose proof (proj2 (parse_For_range_run
                       "i" UINT256_T [vy_ast.Int 3] [] body
                       Demo.ctx0 Demo.ctx0 c2 c3 c4 zero three (ir_int 3)
                       (Demo.var_node "i" UINT256_T MEMORY) (ir_str "pass")
                       ∅ 3 "range_ix0" Hends eq_refl eq_refl Hrounds)
                Hbound Hfresh Hvar Hbody Hfor) as Hrun.
  eexists. eexists. split; [exact Hrun|].
  exact (proj2 (loop_variable_is_released "i" UINT256_T body Demo.ctx0 _ _)
           _ _ Hrun).
Defined.

End StmtExamples.
